(** * Base16 / Base32 / Base58 / Base62 / Base64 / Base85 codecs

    A shallow embedding of [src/tables.c], [src/encod_func.c] and
    [src/decod_func.c], and the properties of the six encode/decode pairs.

    Conventions of the embedding.
    - A C buffer of [unsigned char] / [char] together with its length is a
      [list byte]; the terminating NUL of an output string is not part of
      the list.
    - C integers are [Z]; where an unsigned variable can exceed its width
      the wrap-around is written out ([u32], [ulong]).  Working arrays of
      [unsigned char] inside the big-integer codecs are lists of [Z] whose
      stores are reduced with [u8].
    - A decoder returns [Ok payload] or [Err kind]; in C every [Err] is a
      [NULL] return, the kind records which [return NULL] was taken.
    - [malloc], [calloc] and [realloc] are assumed to succeed and to return a
      non-null pointer, also for a size of zero. *)

From Stdlib Require Import String ZArith List Lia ZifyNat Bool.
From Stdlib Require Strings.Byte.
From coqutil Require Import Byte.
From coqutil Require Import Z.bitblast.
Import ListNotations.
Local Open Scope Z_scope.

(** ** Bytes and machine integers *)

Definition NUL : byte := Byte.x00.

(** ['='], the pad symbol of Base32 and Base64. *)
Definition PAD : byte := Byte.x3d.

Definition u8 (z : Z) : Z := z mod 2 ^ 8.
Definition u32 (z : Z) : Z := z mod 2 ^ 32.

(** [unsigned long] of the LP64 build ([build.sh], gcc on Linux). *)
Definition ulong (z : Z) : Z := z mod 2 ^ 64.

Definition cstr (s : string) : list byte := list_byte_of_string s.

(** ** Results of decoding *)

Inductive decode_error : Type :=
| LengthError            (* structural length constraint violated *)
| InvalidCharacterError  (* a symbol is not in the table *)
| EmptyInputRejected.    (* the [len == 0] guard of base62/base85 decode *)

Inductive result (A : Type) : Type :=
| Ok (a : A)
| Err (e : decode_error).
Arguments Ok {A} a.
Arguments Err {A} e.

Definition bind {A B} (r : result A) (k : A -> result B) : result B :=
  match r with
  | Ok a => k a
  | Err e => Err e
  end.

Notation "x <- r ;; k" := (bind r (fun x => k))
  (at level 61, r at next level, right associativity).

(** ** tables.c *)

Definition base16_table : list byte := cstr "0123456789ABCDEF".
Definition base32_table : list byte := cstr "ABCDEFGHIJKLMNOPQRSTUVWXYZ234567".
Definition base58_table : list byte :=
  cstr "123456789ABCDEFGHJKLMNPQRSTUVWXYZabcdefghijkmnopqrstuvwxyz".
Definition base62_table : list byte :=
  cstr "0123456789ABCDEFGHIJKLMNOPQRSTUVWXYZabcdefghijklmnopqrstuvwxyz".
Definition base64_table : list byte :=
  cstr "ABCDEFGHIJKLMNOPQRSTUVWXYZabcdefghijklmnopqrstuvwxyz0123456789+/".
(** The second symbol of the Base85 table is the double quote (0x22). *)
Definition base85_table : list byte :=
  cstr "!" ++ [Byte.x22] ++
  cstr "#$%&'()*+,-./0123456789:;<=>?@ABCDEFGHIJKLMNOPQRSTUVWXYZ[\]^_`abcdefghijklmnopqrstuvwxyz".

(** [table[i]]: a table is a C string, so the element one past its last
    symbol is the terminating NUL. *)
Definition tbl (table : list byte) (i : Z) : byte := nth (Z.to_nat i) table NUL.

(** ** decod_func.c: find_index *)

Fixpoint find_index_from (c : byte) (table : list byte) (i : Z) : Z :=
  match table with
  | [] => -1
  | t :: rest => if Byte.eqb t c then i else find_index_from c rest (i + 1)
  end.

Definition find_index (c : byte) (table : list byte) : Z :=
  find_index_from c table 0.

(** ** Base16 *)

(** encod_func.c: base16_encode (its local table [base16_chars] has the same
    contents as [base16_table]). *)
Definition base16_chars : list byte := cstr "0123456789ABCDEF".

Fixpoint base16_encode (input : list byte) : list byte :=
  match input with
  | [] => []
  | b :: rest =>
      tbl base16_chars (Z.land (Z.shiftr (byte.unsigned b) 4) 15)
      :: tbl base16_chars (Z.land (byte.unsigned b) 15)
      :: base16_encode rest
  end.

(** decod_func.c: base16_decode, the loop over symbol pairs.  The loop is
    entered only for even [len], where the odd-tail case does not occur. *)
Fixpoint base16_decode_loop (input : list byte) : result (list byte) :=
  match input with
  | hi :: lo :: rest =>
      let high_nibble := find_index hi base16_table in
      let low_nibble := find_index lo base16_table in
      if (high_nibble =? -1) || (low_nibble =? -1)
      then Err InvalidCharacterError
      else
        out <- base16_decode_loop rest ;;
        Ok (byte.of_Z (Z.lor (Z.shiftl high_nibble 4) low_nibble) :: out)
  | _ => Ok []
  end.

Definition base16_decode (input : list byte) : result (list byte) :=
  if Z.of_nat (length input) mod 2 =? 0
  then base16_decode_loop input
  else Err LengthError.

(** ** Base32 *)

(** encod_func.c: base32_encode, the inner [while (bit_count >= 5)] loop.
    It returns the symbols written and the remaining [bit_count]; [fuel]
    bounds the number of iterations. *)
Fixpoint base32_drain (fuel : nat) (val bit_count : Z) : list byte * Z :=
  match fuel with
  | O => ([], bit_count)
  | S fuel' =>
      if 5 <=? bit_count then
        let (out, bc) := base32_drain fuel' val (bit_count - 5) in
        (tbl base32_table (Z.land (Z.shiftr val (bit_count - 5)) 31) :: out, bc)
      else ([], bit_count)
  end.

(** The [for] loop over the input and the final short group.  [val] is an
    [unsigned int]: the shift drops the bits above bit 31. *)
Fixpoint base32_encode_loop (input : list byte) (val bit_count : Z) : list byte :=
  match input with
  | [] =>
      if 0 <? bit_count
      then [tbl base32_table (Z.land (u32 (Z.shiftl val (5 - bit_count))) 31)]
      else []
  | b :: rest =>
      let val := Z.lor (u32 (Z.shiftl val 8)) (byte.unsigned b) in
      let bit_count := bit_count + 8 in
      let (out, bit_count') := base32_drain (Z.to_nat bit_count) val bit_count in
      out ++ base32_encode_loop rest val bit_count'
  end.

Definition base32_encode (input : list byte) : list byte :=
  base32_encode_loop input 0 0.

(** [while (padded_len % m != 0) padded_len++;] *)
Fixpoint pad_len_loop (fuel : nat) (padded_len m : Z) : Z :=
  match fuel with
  | O => padded_len
  | S fuel' =>
      if padded_len mod m =? 0 then padded_len
      else pad_len_loop fuel' (padded_len + 1) m
  end.

Definition padded_length (len m : Z) : Z := pad_len_loop (Z.to_nat m) len m.

(** [strncpy(dst, src, len)] where [src] holds [len] bytes: the copy stops
    at the first NUL and the rest of the [len] bytes is filled with NUL. *)
Fixpoint strncpy (src : list byte) : list byte :=
  match src with
  | [] => []
  | c :: rest =>
      if Byte.eqb c NUL then repeat NUL (length src) else c :: strncpy rest
  end.

(** [padded_input]: the copy followed by [memset(.., '=', padded_len - len)]. *)
Definition padded_input (input : list byte) (m : Z) : list byte :=
  let len := Z.of_nat (length input) in
  strncpy input ++ repeat PAD (Z.to_nat (padded_length len m - len)).

(** One symbol of a group: ['='] counts as digit 0, any other symbol is
    looked up in the table. *)
Definition group_index (table : list byte) (c : byte) : result Z :=
  if Byte.eqb c PAD then Ok 0
  else
    let idx := find_index c table in
    if idx =? -1 then Err InvalidCharacterError else Ok idx.

Fixpoint group_indices (table : list byte) (group : list byte) : result (list Z) :=
  match group with
  | [] => Ok []
  | c :: rest =>
      idx <- group_index table c ;;
      idxs <- group_indices table rest ;;
      Ok (idx :: idxs)
  end.

(** [value |= indices[j] << (top - j * bits)] for the indices in order. *)
Fixpoint group_value (bits top : Z) (indices : list Z) (value : Z) : Z :=
  match indices with
  | [] => value
  | idx :: rest =>
      group_value bits (top - bits) rest (Z.lor value (Z.shiftl idx top))
  end.

Definition not_pad (c : byte) : bool := negb (Byte.eqb c PAD).

Definition emit_if (cond : bool) (z : Z) : list byte :=
  if cond then [byte.of_Z z] else [].

(** decod_func.c: base32_decode, the body of the loop for one group. *)
Definition base32_decode_group (c0 c1 c2 c3 c4 c5 c6 c7 : byte) : result (list byte) :=
  indices <- group_indices base32_table [c0; c1; c2; c3; c4; c5; c6; c7] ;;
  let value := group_value 5 35 indices 0 in
  Ok ([byte.of_Z (Z.land (Z.shiftr value 32) 255)]
      ++ emit_if (not_pad c2) (Z.land (Z.shiftr value 24) 255)
      ++ emit_if (not_pad c4) (Z.land (Z.shiftr value 16) 255)
      ++ emit_if (not_pad c5) (Z.land (Z.shiftr value 8) 255)
      ++ emit_if (not_pad c6) (Z.land value 255)).

Fixpoint base32_decode_groups (padded : list byte) : result (list byte) :=
  match padded with
  | c0 :: c1 :: c2 :: c3 :: c4 :: c5 :: c6 :: c7 :: rest =>
      bytes <- base32_decode_group c0 c1 c2 c3 c4 c5 c6 c7 ;;
      out <- base32_decode_groups rest ;;
      Ok (bytes ++ out)
  | _ => Ok []
  end.

Definition base32_decode (input : list byte) : result (list byte) :=
  base32_decode_groups (padded_input input 8).

(** ** Base64 *)

(** encod_func.c: base64_encode.  The three patterns are the values of
    [i + 1 < len] and [i + 2 < len] in the loop body. *)
Definition base64_val (b0 b1 b2 : Z) : Z :=
  u32 (Z.lor (Z.lor (Z.shiftl b0 16) (Z.shiftl b1 8)) b2).

Fixpoint base64_encode (input : list byte) : list byte :=
  match input with
  | [] => []
  | [b0] =>
      let val := base64_val (byte.unsigned b0) 0 0 in
      [tbl base64_table (Z.land (Z.shiftr val 18) 63);
       tbl base64_table (Z.land (Z.shiftr val 12) 63);
       PAD; PAD]
  | [b0; b1] =>
      let val := base64_val (byte.unsigned b0) (byte.unsigned b1) 0 in
      [tbl base64_table (Z.land (Z.shiftr val 18) 63);
       tbl base64_table (Z.land (Z.shiftr val 12) 63);
       tbl base64_table (Z.land (Z.shiftr val 6) 63);
       PAD]
  | b0 :: b1 :: b2 :: rest =>
      let val := base64_val (byte.unsigned b0) (byte.unsigned b1) (byte.unsigned b2) in
      tbl base64_table (Z.land (Z.shiftr val 18) 63)
      :: tbl base64_table (Z.land (Z.shiftr val 12) 63)
      :: tbl base64_table (Z.land (Z.shiftr val 6) 63)
      :: tbl base64_table (Z.land val 63)
      :: base64_encode rest
  end.

(** decod_func.c: base64_decode, the body of the loop for one group. *)
Definition base64_decode_group (c0 c1 c2 c3 : byte) : result (list byte) :=
  indices <- group_indices base64_table [c0; c1; c2; c3] ;;
  let value := u32 (group_value 6 18 indices 0) in
  Ok ([byte.of_Z (Z.land (Z.shiftr value 16) 255)]
      ++ emit_if (not_pad c2) (Z.land (Z.shiftr value 8) 255)
      ++ emit_if (not_pad c3) (Z.land value 255)).

Fixpoint base64_decode_groups (padded : list byte) : result (list byte) :=
  match padded with
  | c0 :: c1 :: c2 :: c3 :: rest =>
      bytes <- base64_decode_group c0 c1 c2 c3 ;;
      out <- base64_decode_groups rest ;;
      Ok (bytes ++ out)
  | _ => Ok []
  end.

Definition base64_decode (input : list byte) : result (list byte) :=
  base64_decode_groups (padded_input input 4).

(** ** Big-integer codecs: the shared loops *)

(** The loop
    [for (k = 0; k < j; k++) { carry += factor * a[k]; a[k] = carry % radix; carry /= radix; }]
    over a little-endian digit array.  [wrap] is the reduction of the type of
    [carry]; the stores go to [unsigned char] cells. *)
Fixpoint muladd_digits (wrap : Z -> Z) (radix factor : Z)
    (digits : list Z) (carry : Z) : list Z * Z :=
  match digits with
  | [] => ([], carry)
  | d :: rest =>
      let carry := wrap (carry + factor * d) in
      let (rest', carry') := muladd_digits wrap radix factor rest (carry / radix) in
      (u8 (carry mod radix) :: rest', carry')
  end.

(** The loop [while (carry > 0) { a[j++] = carry % radix; carry /= radix; }]:
    the digits appended to the array. *)
Fixpoint flush_carry (fuel : nat) (radix carry : Z) : list Z :=
  match fuel with
  | O => []
  | S fuel' =>
      if 0 <? carry
      then u8 (carry mod radix) :: flush_carry fuel' radix (carry / radix)
      else []
  end.

(** One iteration of the main loop: multiply the array by [factor], add
    [carry], and append the digits of what is left. *)
Definition bigint_step (wrap : Z -> Z) (radix factor : Z)
    (digits : list Z) (carry : Z) : list Z :=
  let (digits', carry') := muladd_digits wrap radix factor digits carry in
  digits' ++ flush_carry (Z.to_nat carry') radix carry'.

(** [int carry] of base58_decode: a signed int, which does not wrap. *)
Definition sint (z : Z) : Z := z.

Fixpoint count_leading (c : byte) (input : list byte) : nat :=
  match input with
  | [] => O
  | b :: rest => if Byte.eqb b c then S (count_leading c rest) else O
  end.

(** Writing [new] over the first cells of the buffer [old]. *)
Definition overwrite (new old : list byte) : list byte :=
  new ++ skipn (length new) old.

(** ** Base58 *)

(** ['1'], written by base58_encode for a leading zero byte. *)
Definition ONE : byte := Byte.x31.

(** encod_func.c: base58_encode, the digit array after the main loop.  The
    array comes from [calloc]; [j] starts at the number of leading zero
    bytes, so it starts as that many zero digits. *)
Definition base58_encode_digits (input : list byte) : list Z :=
  let zeros := count_leading NUL input in
  fold_left (fun result b => bigint_step u32 58 256 result (byte.unsigned b))
            (skipn zeros input) (repeat 0 zeros).

(** The output buffer: first a ['1'] for each leading zero byte, then the
    first [output_len] cells are overwritten with the symbols of the digits,
    most significant first, and the string is ended at [output_len]. *)
Definition base58_encode (input : list byte) : list byte :=
  let zeros := count_leading NUL input in
  let output := repeat ONE zeros in
  let result := base58_encode_digits input in
  let output_len := length result in
  firstn output_len (overwrite (map (tbl base58_table) (rev result)) output).

(** decod_func.c: base58_decode, the main loop over the symbols after the
    leading zero symbols. *)
Fixpoint base58_decode_loop (input : list byte) (output : list Z) : result (list Z) :=
  match input with
  | [] => Ok output
  | c :: rest =>
      let carry := find_index c base58_table in
      if carry =? -1 then Err InvalidCharacterError
      else base58_decode_loop rest (bigint_step sint 256 58 output carry)
  end.

(** The zero bytes are put in front of the little-endian array and the
    whole array is then reversed. *)
Definition base58_decode (input : list byte) : result (list byte) :=
  let zero_count := count_leading (tbl base58_table 0) input in
  output <- base58_decode_loop (skipn zero_count input) [] ;;
  let output := if (0 <? zero_count)%nat then repeat 0 zero_count ++ output else output in
  Ok (map byte.of_Z (rev output)).

(** ** Base62 *)

(** encod_func.c: base62_encode. *)
Definition base62_encode_digits (input : list byte) : list Z :=
  fold_left (fun result b => bigint_step u32 62 256 result (byte.unsigned b))
            input [].

Definition base62_encode (input : list byte) : list byte :=
  map (tbl base62_table) (rev (base62_encode_digits input)).

(** decod_func.c: base62_decode, the loop that adds the digit, with its
    [if (carry == 0) break;]. *)
Fixpoint add_digit (buffer : list Z) (carry : Z) : list Z * Z :=
  match buffer with
  | [] => ([], carry)
  | b :: rest =>
      let temp := u32 (b + carry) in
      let carry := temp / 256 in
      if carry =? 0 then (u8 (temp mod 256) :: rest, carry)
      else
        let (rest', carry') := add_digit rest carry in
        (u8 (temp mod 256) :: rest', carry')
  end.

Definition base62_decode_step (buffer : list Z) (digit : Z) : list Z :=
  let buffer := bigint_step u32 256 62 buffer 0 in
  let (buffer', carry) := add_digit buffer digit in
  buffer' ++ flush_carry (Z.to_nat carry) 256 carry.

Definition base62_decode (input : list byte) : result (list byte) :=
  if (length input =? 0)%nat then Err EmptyInputRejected
  else if existsb (fun c => find_index c base62_table =? -1) input
  then Err InvalidCharacterError
  else
    let buffer :=
      fold_left (fun buffer c => base62_decode_step buffer (find_index c base62_table))
                input [0] in
    Ok (map byte.of_Z (rev buffer)).

(** ** Base85 *)

(** encod_func.c: base85_encode, packing a block of at most four bytes:
    [value = (value << 8) | input[i + j]], then [value <<= 8] for each
    missing byte. *)
Definition base85_pack (block : list byte) : Z :=
  let value := fold_left (fun value b => Z.lor (u32 (Z.shiftl value 8)) (byte.unsigned b))
                         block 0 in
  fold_left (fun value _ => u32 (Z.shiftl value 8))
            (repeat tt (4 - length block)) value.

(** [for (j = 4; j >= 0; j--) { block[j] = table[value % 85]; value /= 85; }] *)
Fixpoint base85_digits (n : nat) (value : Z) (block : list byte) : list byte :=
  match n with
  | O => block
  | S n' => base85_digits n' (value / 85) (tbl base85_table (value mod 85) :: block)
  end.

Definition base85_encode_block (block : list byte) : list byte :=
  base85_digits 5 (base85_pack block) [].

Fixpoint base85_encode (input : list byte) : list byte :=
  match input with
  | [] => []
  | b0 :: b1 :: b2 :: b3 :: rest =>
      base85_encode_block [b0; b1; b2; b3] ++ base85_encode rest
  | short => base85_encode_block short
  end.

(** [strchr(table, c)] as the offset [pos - table]: the terminating NUL of
    the table is part of the string that is searched. *)
Fixpoint strchr_from (table : list byte) (c : byte) (i : Z) : option Z :=
  match table with
  | [] => if Byte.eqb c NUL then Some i else None
  | t :: rest => if Byte.eqb t c then Some i else strchr_from rest c (i + 1)
  end.

Definition strchr (table : list byte) (c : byte) : option Z :=
  strchr_from table c 0.

Definition is_space (c : byte) : bool :=
  Byte.eqb c Byte.x20 || Byte.eqb c Byte.x0a || Byte.eqb c Byte.x0d || Byte.eqb c Byte.x09.

(** [cleaned_input]: the input without space, LF, CR and TAB. *)
Definition cleaned_input (input : list byte) : list byte :=
  filter (fun c => negb (is_space c)) input.

(** decod_func.c: base85_decode, the inner loop over the symbols of a block. *)
Fixpoint base85_value (block : list byte) (value : Z) : result Z :=
  match block with
  | [] => Ok value
  | c :: rest =>
      match strchr base85_table c with
      | None => Err InvalidCharacterError
      | Some pos => base85_value rest (ulong (value * 85 + pos))
      end
  end.

Definition base85_unpack (value : Z) : list byte :=
  [byte.of_Z (Z.land (Z.shiftr value 24) 255);
   byte.of_Z (Z.land (Z.shiftr value 16) 255);
   byte.of_Z (Z.land (Z.shiftr value 8) 255);
   byte.of_Z (Z.land value 255)].

Fixpoint base85_decode_blocks (cleaned : list byte) : result (list byte) :=
  match cleaned with
  | c0 :: c1 :: c2 :: c3 :: c4 :: rest =>
      value <- base85_value [c0; c1; c2; c3; c4] 0 ;;
      out <- base85_decode_blocks rest ;;
      Ok (base85_unpack value ++ out)
  | _ => Ok []
  end.

Definition base85_decode (input : list byte) : result (list byte) :=
  if (length input =? 0)%nat then Err EmptyInputRejected
  else
    let cleaned := cleaned_input input in
    if Z.of_nat (length cleaned) mod 5 =? 0
    then base85_decode_blocks cleaned
    else Err LengthError.

(** ** The six formats *)

Inductive format : Type := Base16 | Base32 | Base58 | Base62 | Base64 | Base85.

Definition encode (F : format) (payload : list byte) : list byte :=
  match F with
  | Base16 => base16_encode payload
  | Base32 => base32_encode payload
  | Base58 => base58_encode payload
  | Base62 => base62_encode payload
  | Base64 => base64_encode payload
  | Base85 => base85_encode payload
  end.

Definition decode (F : format) (text : list byte) : result (list byte) :=
  match F with
  | Base16 => base16_decode text
  | Base32 => base32_decode text
  | Base58 => base58_decode text
  | Base62 => base62_decode text
  | Base64 => base64_decode text
  | Base85 => base85_decode text
  end.


(** ** main.c: file names

    The functions of main.c follow the codecs in [src/encod_func.c].  Reading
    and writing files is not modelled: the two paths of main take the bytes
    of the file they read as an argument and return the name and the bytes
    of the file they write. *)

Definition SLASH : byte := Byte.x2f.
Definition BACKSLASH : byte := Byte.x5c.
Definition DOT : byte := Byte.x2e.

(** A file name or path is a C string: the list of its characters before
    the terminating NUL.  [strrchr(s, c)], for a character [c] other than
    NUL, is the offset of the last occurrence of [c], or [None] for NULL. *)
Fixpoint strrchr_from (s : list byte) (c : byte) (i : nat) (found : option nat)
    : option nat :=
  match s with
  | [] => found
  | x :: rest => strrchr_from rest c (S i) (if Byte.eqb x c then Some i else found)
  end.

Definition strrchr (s : list byte) (c : byte) : option nat :=
  strrchr_from s c 0 None.

(** [p > q] on two pointers into the same string, NULL being the least. *)
Definition ptr_gt (p q : option nat) : bool :=
  match p, q with
  | Some a, Some b => (b <? a)%nat
  | Some _, None => true
  | None, _ => false
  end.

(** main.c: get_filename. *)
Definition get_filename (path : list byte) : list byte :=
  let last_slash := strrchr path SLASH in
  let last_backslash := strrchr path BACKSLASH in
  let last_separator := if ptr_gt last_slash last_backslash then last_slash
                        else last_backslash in
  match last_separator with
  | Some i => skipn (S i) path
  | None => path
  end.

(** The loop of extension_definition and decode_input_name: the number of
    dots and the index of the last one, [-1] when there is none. *)
Fixpoint count_dots (name : list byte) (i num_dots last_dot_index : Z) : Z * Z :=
  match name with
  | [] => (num_dots, last_dot_index)
  | c :: rest =>
      if Byte.eqb c DOT then count_dots rest (i + 1) (num_dots + 1) i
      else count_dots rest (i + 1) num_dots last_dot_index
  end.

(** main.c: extension_definition. *)
Definition extension_definition (name_input : list byte) : option (list byte) :=
  let (num_dots, last_dot_index) := count_dots name_input 0 0 (-1) in
  if num_dots <? 1 then None
  else Some (skipn (Z.to_nat (last_dot_index + 1)) name_input).

(** main.c: decode_input_name. *)
Definition decode_input_name (name_input : list byte) : option (list byte) :=
  let (num_dots, last_dot_index) := count_dots name_input 0 0 (-1) in
  if num_dots <? 2 then None
  else Some (skipn (Z.to_nat (last_dot_index + 1)) name_input).

(** main.c: create_output_name, [strcpy] then [strcat]. *)
Definition create_output_name (name_input dot_output : list byte) : list byte :=
  name_input ++ dot_output.

(** main.c: clear_decoded_name, the name cut at its last dot. *)
Definition clear_decoded_name (filename : list byte) : list byte :=
  match strrchr filename DOT with
  | Some last_dot => firstn last_dot filename
  | None => filename
  end.

(** ** main.c: choosing the codec *)

(** The size of the buffer that choice_of_alg allocates and passes to the
    first four encoders, [malloc(file_size * 2)]. *)
Definition choice_of_alg_buffer (file_size : nat) : nat := file_size * 2.

(** main.c: choice_of_alg, the [switch] on the number the menu has read:
    the encoded data and the extension of the output file.  As in the
    codecs, a buffer is taken to hold what is stored in it: the text and
    its terminating NUL. *)
Definition choice_of_alg (choice : Z) (file_data : list byte)
    : option (list byte * list byte) :=
  match choice with
  | 1 => Some (base16_encode file_data, cstr ".base16")
  | 2 => Some (base32_encode file_data, cstr ".base32")
  | 3 => Some (base58_encode file_data, cstr ".base58")
  | 4 => Some (base62_encode file_data, cstr ".base62")
  | 5 => Some (base64_encode file_data, cstr ".base64")
  | 6 => Some (base85_encode file_data, cstr ".base85")
  | _ => None
  end.

(** The ways url_to_decod_algorithm returns NULL. *)
Inductive dispatch_error : Type :=
| InvalidInputParameters            (* [*file_size == 0] *)
| Base16OddLength                   (* the length check made before base16_decode *)
| UnknownAlgorithm
| DecodingFailed (e : decode_error). (* the decoder returned NULL *)

Inductive outcome : Type :=
| Decoded (data : list byte)
| Failed (e : dispatch_error).

Definition streq (a b : list byte) : bool :=
  if list_eq_dec Byte.byte_eq_dec a b then true else false.

Definition decoded_or_failed (r : result (list byte)) : outcome :=
  match r with
  | Ok data => Decoded data
  | Err e => Failed (DecodingFailed e)
  end.

(** main.c: url_to_decod_algorithm. *)
Definition url_to_decod_algorithm (file_decode_data algorithm : list byte) : outcome :=
  if (length file_decode_data =? 0)%nat then Failed InvalidInputParameters
  else if streq algorithm (cstr "base16") then
    if Z.of_nat (length file_decode_data) mod 2 =? 0
    then decoded_or_failed (base16_decode file_decode_data)
    else Failed Base16OddLength
  else if streq algorithm (cstr "base32") then
    decoded_or_failed (base32_decode file_decode_data)
  else if streq algorithm (cstr "base58") then
    decoded_or_failed (base58_decode file_decode_data)
  else if streq algorithm (cstr "base62") then
    decoded_or_failed (base62_decode file_decode_data)
  else if streq algorithm (cstr "base64") then
    decoded_or_failed (base64_decode file_decode_data)
  else if streq algorithm (cstr "base85") then
    decoded_or_failed (base85_decode file_decode_data)
  else Failed UnknownAlgorithm.

(** ** main.c: the two paths of main *)


(** What [strlen] sees of a buffer: the characters before the first NUL. *)
Fixpoint c_string (buffer : list byte) : list byte :=
  match buffer with
  | [] => []
  | c :: rest => if Byte.eqb c NUL then [] else c :: c_string rest
  end.




(** ** Auxiliary definitions used in the statements *)

(** Every index of the table is found back by [find_index]. *)
Definition table_ok (table : list byte) : bool :=
  forallb (fun i => find_index (tbl table (Z.of_nat i)) table =? Z.of_nat i)
          (seq 0 (length table)).

Definition in_table (table : list byte) (c : byte) : bool :=
  negb (find_index c table =? -1).

(** Cutting a list into consecutive pieces of [k] elements; the last piece
    holds what is left. *)
Fixpoint chunks_fuel {A} (fuel k : nat) (l : list A) : list (list A) :=
  match fuel with
  | O => []
  | S fuel' =>
      match l with
      | [] => []
      | _ => firstn k l :: chunks_fuel fuel' k (skipn k l)
      end
  end.

Definition chunks {A} (k : nat) (l : list A) : list (list A) :=
  chunks_fuel (length l) k l.

(** Spec 4.3, decode: [value = value*85 + digit] over the digits of a block,
    and the four big-endian bytes of a value. *)
Definition base85_accumulate (digits : list Z) : Z :=
  fold_left (fun value digit => value * 85 + digit) digits 0.

Definition big_endian_4 (value : Z) : list byte :=
  [byte.of_Z (value / 2 ^ 24); byte.of_Z (value / 2 ^ 16);
   byte.of_Z (value / 2 ^ 8); byte.of_Z value].

Definition base85_block_bytes (block : list byte) : list byte :=
  big_endian_4 (base85_accumulate (map (fun c => find_index c base85_table) block)).

(** C8 as it is stated, for one input. *)
Definition base85_decode_claim (input : list byte) : Prop :=
  let cleaned := filter (fun c => negb (existsb (Byte.eqb c)
                           [Byte.x20; Byte.x09; Byte.x0d; Byte.x0a])) input in
  (Z.of_nat (length cleaned) mod 5 <> 0 -> base85_decode input = Err LengthError) /\
  (Z.of_nat (length cleaned) mod 5 = 0 ->
   (exists c, In c cleaned /\ ~ In c base85_table) ->
   base85_decode input = Err InvalidCharacterError) /\
  (Z.of_nat (length cleaned) mod 5 = 0 ->
   (forall c, In c cleaned -> In c base85_table) ->
   exists output,
     base85_decode input = Ok output /\
     output = flat_map base85_block_bytes (chunks 5 cleaned) /\
     Z.of_nat (length output) = Z.of_nat (length cleaned) / 5 * 4).

(** Spec 4.1, decode: the text right-padded with the pad symbol up to the
    next multiple of [m] symbols. *)
Definition pad_right (m : nat) (text : list byte) : list byte :=
  text ++ repeat PAD ((m - length text mod m) mod m).

(** How many of the given offsets of a group hold the pad symbol. *)
Definition pads_at (offsets : list nat) (group : list byte) : nat :=
  length (filter (fun o => Byte.eqb (nth o group NUL) PAD) offsets).

(** Every symbol is in the table or is the pad symbol. *)
Definition padded_text (table : list byte) (text : list byte) : Prop :=
  forall c, In c text -> c = PAD \/ In c table.

(** Spec 4.1, encode: the payload as a bit-stream, most significant bit of
    each byte first. *)
Definition byte_bits (b : byte) : list bool :=
  map (Z.testbit (byte.unsigned b)) [7; 6; 5; 4; 3; 2; 1; 0].

Definition bit_stream (payload : list byte) : list bool :=
  flat_map byte_bits payload.

(** The number written by a group of bits, most significant bit first. *)
Definition bits_value (bits : list bool) : Z :=
  fold_left (fun acc (b : bool) => 2 * acc + Z.b2z b) bits 0.

(** The symbol of a group of at most [k] bits: a short group is
    left-shifted, that is zero-filled on the right, to [k] bits. *)
Definition group_symbol (table : list byte) (k : nat) (group : list bool) : byte :=
  tbl table (Z.shiftl (bits_value group) (Z.of_nat (k - length group))).

(** The bit-stream consumed [k] bits at a time. *)
Definition stream_symbols (table : list byte) (k : nat) (payload : list byte) : list byte :=
  map (group_symbol table k) (chunks k (bit_stream payload)).

(** The state of the loop of base32_encode: the low [bit_count] bits of
    [val] are the bits read and not yet written, [pending]. *)
Definition pending_ok (val bit_count : Z) (pending : list bool) : Prop :=
  Z.of_nat (length pending) = bit_count /\
  val mod 2 ^ bit_count = bits_value pending.

(** The number held by a little-endian digit array, and the number written
    by a big-endian digit sequence. *)
Fixpoint lval (radix : Z) (digits : list Z) : Z :=
  match digits with
  | [] => 0
  | d :: rest => d + radix * lval radix rest
  end.

Definition bval (radix : Z) (digits : list Z) : Z :=
  fold_left (fun acc d => acc * radix + d) digits 0.

Definition digits_ok (radix : Z) (digits : list Z) : Prop :=
  Forall (fun d => 0 <= d < radix) digits.

(** A digit array without a zero most significant digit: it is empty or
    its number needs all of its digits. *)
Definition canon (radix : Z) (digits : list Z) : Prop :=
  digits_ok radix digits /\
  (digits = [] \/ radix ^ (Z.of_nat (length digits) - 1) <= lval radix digits).

(** The type of [carry] does not wrap below 2^32. *)
Definition wrap_ok (wrap : Z -> Z) : Prop :=
  forall z, 0 <= z < 2 ^ 32 -> wrap z = z.

(** The payloads on which a format gives back what was encoded. *)
Definition round_trip_domain (F : format) (payload : list byte) : Prop :=
  match F with
  | Base16 | Base64 => True
  | Base32 => (length payload mod 5 <> 4)%nat
  | Base58 => hd_error payload <> Some NUL
  | Base62 => payload <> [] /\ hd_error payload <> Some NUL
  | Base85 => payload <> [] /\ (length payload mod 4 = 0)%nat
  end.

(** The table of a format, and the symbols its encoder writes: base85_encode
    takes [value % 85], so it writes the first 85 symbols of its table. *)
Definition table_of (F : format) : list byte :=
  match F with
  | Base16 => base16_table
  | Base32 => base32_table
  | Base58 => base58_table
  | Base62 => base62_table
  | Base64 => base64_table
  | Base85 => base85_table
  end.

Definition written_symbols (F : format) : list byte :=
  match F with
  | Base85 => firstn 85 base85_table
  | Base64 => base64_table ++ [PAD]
  | _ => table_of F
  end.

(** The digits of a text, symbol by symbol. *)
Definition text_digits (table : list byte) (text : list byte) : list Z :=
  map (fun c => find_index c table) text.

(** A payload followed by the zero bytes that fill its last block of [m]. *)
Definition zero_fill (m : nat) (payload : list byte) : list byte :=
  payload ++ repeat NUL ((m - length payload mod m) mod m).

(** The name of a format in a file name, and its number in the menu. *)
Definition algorithm_name (F : format) : list byte :=
  match F with
  | Base16 => cstr "base16"
  | Base32 => cstr "base32"
  | Base58 => cstr "base58"
  | Base62 => cstr "base62"
  | Base64 => cstr "base64"
  | Base85 => cstr "base85"
  end.

Definition choice_number (F : format) : Z :=
  match F with
  | Base16 => 1
  | Base32 => 2
  | Base58 => 3
  | Base62 => 4
  | Base64 => 5
  | Base85 => 6
  end.

(** * Properties *)

(** ** Bytes *)

Lemma byte_eqb_eq (a b : byte) : Byte.eqb a b = true <-> a = b.
Proof.
  split; intro H.
  - now apply Byte.byte_dec_bl.
  - now apply Byte.byte_dec_lb.
Qed.

Lemma byte_eqb_neq (a b : byte) : Byte.eqb a b = false <-> a <> b.
Proof.
  split; intro H.
  - now apply Byte.eqb_false.
  - destruct (Byte.eqb a b) eqn:E; [apply byte_eqb_eq in E; contradiction | reflexivity].
Qed.

Lemma byte_eqb_refl (a : byte) : Byte.eqb a a = true.
Proof. now apply byte_eqb_eq. Qed.

Lemma unsigned_bound (b : byte) : 0 <= byte.unsigned b < 256.
Proof. apply byte.unsigned_range. Qed.

Lemma of_Z_small (z : Z) : 0 <= z < 256 -> byte.unsigned (byte.of_Z z) = z.
Proof.
  intro H. rewrite byte.unsigned_of_Z. unfold byte.wrap.
  apply Z.mod_small. exact H.
Qed.

(** ** find_index and the tables *)

Lemma find_index_from_bounds c table i :
  find_index_from c table i = -1 \/
  i <= find_index_from c table i < i + Z.of_nat (length table).
Proof.
  revert i. induction table as [|t rest IH]; intro i; simpl.
  - now left.
  - destruct (Byte.eqb t c).
    + right. lia.
    + destruct (IH (i + 1)) as [H|H]; [now left | right; lia].
Qed.

Lemma find_index_from_shift c table i :
  0 <= i ->
  find_index_from c table i =
  if find_index_from c table 0 =? -1 then -1 else i + find_index_from c table 0.
Proof.
  revert i. induction table as [|t rest IH]; intros i Hi; simpl.
  - reflexivity.
  - destruct (Byte.eqb t c).
    + simpl. lia.
    + rewrite (IH (i + 1)) by lia. rewrite (IH 1) by lia.
      destruct (find_index_from_bounds c rest 0) as [H|H].
      * rewrite H. reflexivity.
      * destruct (find_index_from c rest 0 =? -1) eqn:E; [lia|].
        destruct (1 + find_index_from c rest 0 =? -1) eqn:E'; lia.
Qed.

Lemma find_index_bounds c table :
  find_index c table = -1 \/ 0 <= find_index c table < Z.of_nat (length table).
Proof.
  unfold find_index.
  destruct (find_index_from_bounds c table 0) as [H|H]; [now left | right; lia].
Qed.

Lemma find_index_cons c t rest :
  find_index c (t :: rest) =
  if Byte.eqb t c then 0
  else if find_index c rest =? -1 then -1 else 1 + find_index c rest.
Proof.
  unfold find_index. simpl. destruct (Byte.eqb t c); [reflexivity|].
  now rewrite find_index_from_shift by lia.
Qed.

Lemma find_index_absent c table :
  find_index c table = -1 <-> ~ In c table.
Proof.
  induction table as [|t rest IH].
  - simpl. split; [intros _ []| reflexivity].
  - rewrite find_index_cons. cbn [In].
    destruct (Byte.eqb t c) eqn:E.
    + apply byte_eqb_eq in E. split; [lia | intro H; exfalso; apply H; now left].
    + apply byte_eqb_neq in E.
      destruct (find_index_bounds c rest) as [H|H].
      * rewrite H. cbn [Z.eqb]. split; [|reflexivity].
        intros _ [H1|H1]; [contradiction | now apply IH].
      * destruct (find_index c rest =? -1) eqn:E'; [lia|].
        split; [intro; lia|]. intro Hn. exfalso. apply Hn. right.
        destruct (in_dec Byte.byte_eq_dec c rest) as [Hin|Hin]; [exact Hin|].
        apply IH in Hin. lia.
Qed.

Lemma find_index_present c table :
  find_index c table <> -1 <-> In c table.
Proof.
  rewrite find_index_absent.
  destruct (in_dec Byte.byte_eq_dec c table); tauto.
Qed.

Lemma in_table_true table c : in_table table c = true <-> In c table.
Proof.
  unfold in_table. rewrite <- find_index_present.
  destruct (find_index c table =? -1) eqn:E; simpl; split; intro; try lia; try congruence.
Qed.

Lemma tbl_find_index c table :
  find_index c table <> -1 -> tbl table (find_index c table) = c.
Proof.
  induction table as [|t rest IH]; intro H.
  - now contradiction H.
  - rewrite find_index_cons in *. unfold tbl in *.
    destruct (Byte.eqb t c) eqn:E.
    + apply byte_eqb_eq in E. now simpl.
    + destruct (find_index_bounds c rest) as [Hb|Hb].
      * rewrite Hb in H. now simpl in H.
      * destruct (find_index c rest =? -1) eqn:E'; [lia|].
        replace (Z.to_nat (1 + find_index c rest)) with (S (Z.to_nat (find_index c rest))) by lia.
        simpl. apply IH. lia.
Qed.

Lemma table_ok_spec table :
  table_ok table = true ->
  forall i, 0 <= i < Z.of_nat (length table) -> find_index (tbl table i) table = i.
Proof.
  unfold table_ok. rewrite forallb_forall. intros H i Hi.
  specialize (H (Z.to_nat i)).
  rewrite Z2Nat.id in H by lia.
  apply Z.eqb_eq, H, in_seq. lia.
Qed.

Lemma tbl_in table i :
  0 <= i < Z.of_nat (length table) -> In (tbl table i) table.
Proof. intro H. unfold tbl. apply nth_In. lia. Qed.

Lemma base16_index i : 0 <= i < 16 -> find_index (tbl base16_table i) base16_table = i.
Proof. exact (table_ok_spec base16_table eq_refl i). Qed.

Lemma base32_index i : 0 <= i < 32 -> find_index (tbl base32_table i) base32_table = i.
Proof. exact (table_ok_spec base32_table eq_refl i). Qed.

Lemma base58_index i : 0 <= i < 58 -> find_index (tbl base58_table i) base58_table = i.
Proof. exact (table_ok_spec base58_table eq_refl i). Qed.

Lemma base62_index i : 0 <= i < 62 -> find_index (tbl base62_table i) base62_table = i.
Proof. exact (table_ok_spec base62_table eq_refl i). Qed.

Lemma base64_index i : 0 <= i < 64 -> find_index (tbl base64_table i) base64_table = i.
Proof. exact (table_ok_spec base64_table eq_refl i). Qed.

Lemma base85_index i : 0 <= i < 90 -> find_index (tbl base85_table i) base85_table = i.
Proof. exact (table_ok_spec base85_table eq_refl i). Qed.

(** ** Bit operations as arithmetic *)

Ltac zlia := Z.div_mod_to_equations; lia.

Lemma testbit_high l n i :
  0 <= l < 2 ^ n -> 0 <= n <= i -> Z.testbit l i = false.
Proof.
  intros Hl Hi. rewrite <- (Z.mod_small l (2 ^ n)) by exact Hl.
  apply Z.mod_pow2_bits_high. exact Hi.
Qed.

Lemma lor_shiftl_add h l n :
  0 <= n -> 0 <= l < 2 ^ n -> Z.lor (Z.shiftl h n) l = h * 2 ^ n + l.
Proof.
  intros Hn Hl. rewrite <- Z.shiftl_mul_pow2 by exact Hn.
  apply Z.or_to_plus. apply Z.bits_inj'. intros i Hi.
  rewrite Z.land_spec, Z.bits_0.
  destruct (Z.ltb_spec i n) as [Hlt|Hge].
  - rewrite Z.shiftl_spec_low by exact Hlt. reflexivity.
  - rewrite (testbit_high l n i) by lia. apply andb_false_r.
Qed.

Lemma land_mask x n m : 0 <= n -> m = 2 ^ n - 1 -> Z.land x m = x mod 2 ^ n.
Proof.
  intros Hn ->. rewrite <- Z.land_ones by exact Hn.
  now rewrite Z.ones_equiv, Z.sub_1_r.
Qed.

Lemma land_15 x : Z.land x 15 = x mod 16.
Proof. now rewrite (land_mask x 4). Qed.
Lemma land_31 x : Z.land x 31 = x mod 32.
Proof. now rewrite (land_mask x 5). Qed.
Lemma land_63 x : Z.land x 63 = x mod 64.
Proof. now rewrite (land_mask x 6). Qed.
Lemma land_255 x : Z.land x 255 = x mod 256.
Proof. now rewrite (land_mask x 8). Qed.

Lemma shiftr_div x n k : 0 <= n -> k = 2 ^ n -> Z.shiftr x n = x / k.
Proof. intros Hn ->. now apply Z.shiftr_div_pow2. Qed.

Lemma shiftl_mul x n k : 0 <= n -> k = 2 ^ n -> Z.shiftl x n = x * k.
Proof. intros Hn ->. now apply Z.shiftl_mul_pow2. Qed.

(** ** Lists taken two at a time *)

Lemma pair_induction {A} (P : list A -> Prop) :
  P [] -> (forall a, P [a]) -> (forall a b l, P l -> P (a :: b :: l)) ->
  forall l, P l.
Proof.
  intros H0 H1 H2.
  assert (H : forall l, P l /\ forall a, P (a :: l)).
  { induction l as [|b l [IHl IHl']]; split; auto. }
  intro l. apply H.
Qed.

(** ** Base16 *)

Lemma base16_nibble_bound c :
  In c base16_table -> 0 <= find_index c base16_table < 16.
Proof.
  intro H. apply find_index_present in H.
  destruct (find_index_bounds c base16_table) as [Hb|Hb]; [contradiction|].
  exact Hb.
Qed.

Lemma base16_byte_value h l :
  0 <= h < 16 -> 0 <= l < 16 ->
  byte.unsigned (byte.of_Z (Z.lor (Z.shiftl h 4) l)) = Z.lor (Z.shiftl h 4) l.
Proof.
  intros Hh Hl. apply of_Z_small.
  rewrite (lor_shiftl_add h l 4) by lia. lia.
Qed.

Lemma base16_decode_loop_invalid input :
  Z.of_nat (length input) mod 2 = 0 ->
  (exists c, In c input /\ ~ In c base16_table) ->
  base16_decode_loop input = Err InvalidCharacterError.
Proof.
  induction input as [|a|a b l IH] using pair_induction; intros Hlen [c [Hin Hnot]].
  - destruct Hin.
  - discriminate Hlen.
  - cbn [base16_decode_loop].
    destruct (find_index a base16_table =? -1) eqn:Ea; [reflexivity|].
    destruct (find_index b base16_table =? -1) eqn:Eb; [reflexivity|].
    cbn [orb]. rewrite IH; [reflexivity | |].
    + cbn [length] in Hlen. zlia.
    + exists c. split; [|exact Hnot].
      destruct Hin as [->|[->|Hin]]; [| |exact Hin]; exfalso.
      * apply find_index_absent in Hnot. lia.
      * apply find_index_absent in Hnot. lia.
Qed.

Lemma base16_decode_loop_valid input :
  Z.of_nat (length input) mod 2 = 0 ->
  (forall c, In c input -> In c base16_table) ->
  exists output,
    base16_decode_loop input = Ok output /\
    Z.of_nat (length output) = Z.of_nat (length input) / 2 /\
    forall i, (i < length output)%nat ->
      byte.unsigned (nth i output NUL) =
      Z.lor (Z.shiftl (find_index (nth (2 * i) input NUL) base16_table) 4)
            (find_index (nth (2 * i + 1) input NUL) base16_table).
Proof.
  induction input as [|a|a b l IH] using pair_induction; intros Hlen Hall.
  - exists []. repeat split. intros i Hi. inversion Hi.
  - discriminate Hlen.
  - destruct IH as [out [Hout [Hl Hnth]]].
    + cbn [length] in Hlen. zlia.
    + intros c Hc. apply Hall. now right; right.
    + pose proof (base16_nibble_bound a (Hall a (or_introl eq_refl))) as Ha.
      pose proof (base16_nibble_bound b (Hall b (or_intror (or_introl eq_refl)))) as Hb.
      exists (byte.of_Z (Z.lor (Z.shiftl (find_index a base16_table) 4)
                               (find_index b base16_table)) :: out).
      cbn [base16_decode_loop].
      replace (find_index a base16_table =? -1) with false by lia.
      replace (find_index b base16_table =? -1) with false by lia.
      cbn [orb]. rewrite Hout. cbn [bind]. split; [reflexivity|]. split.
      * cbn [length]. rewrite !Nat2Z.inj_succ, Hl.
        replace (Z.succ (Z.succ (Z.of_nat (length l)))) with (Z.of_nat (length l) + 1 * 2) by lia.
        rewrite Z.div_add by lia. lia.
      * intros [|i] Hi.
        -- cbn [nth Nat.mul Nat.add]. now apply base16_byte_value.
        -- replace (2 * S i)%nat with (S (S (2 * i))) by lia.
           replace (S (S (2 * i)) + 1)%nat with (S (S (2 * i + 1))) by lia.
           cbn [nth]. apply Hnth. cbn [length] in Hi. lia.
Qed.

(** C3: base16_decode rejects odd lengths with a length error and
    even-length input holding a symbol outside the upper-case table with an
    invalid-character error (the lower-case hex letters are outside the
    table); any other input decodes, pair by pair, to [len / 2] bytes, each
    [(high << 4) | low]. *)
Theorem base16_decode_cases (input : list byte) :
  (Z.of_nat (length input) mod 2 = 1 -> base16_decode input = Err LengthError) /\
  (Z.of_nat (length input) mod 2 = 0 ->
   (exists c, In c input /\ ~ In c base16_table) ->
   base16_decode input = Err InvalidCharacterError) /\
  (Z.of_nat (length input) mod 2 = 0 ->
   (forall c, In c input -> In c base16_table) ->
   exists output,
     base16_decode input = Ok output /\
     Z.of_nat (length output) = Z.of_nat (length input) / 2 /\
     forall i, (i < length output)%nat ->
       byte.unsigned (nth i output NUL) =
       Z.lor (Z.shiftl (find_index (nth (2 * i) input NUL) base16_table) 4)
             (find_index (nth (2 * i + 1) input NUL) base16_table)) /\
  (forall c, In c (cstr "abcdef") -> ~ In c base16_table).
Proof.
  unfold base16_decode. repeat split.
  - intros ->. reflexivity.
  - intros H. rewrite H. cbn [Z.eqb]. now apply base16_decode_loop_invalid.
  - intros H. rewrite H. cbn [Z.eqb]. now apply base16_decode_loop_valid.
  - intros c Hc. apply find_index_absent.
    repeat (destruct Hc as [<-|Hc]; [reflexivity|]). destruct Hc.
Qed.

Lemma base16_decode_cases_witness :
  base16_decode (cstr "ABC") = Err LengthError /\
  base16_decode (cstr "ABcD") = Err InvalidCharacterError /\
  exists output,
    base16_decode (cstr "ABCD") = Ok output /\
    Z.of_nat (length output) = Z.of_nat (length (cstr "ABCD")) / 2 /\
    forall i, (i < length output)%nat ->
      byte.unsigned (nth i output NUL) =
      Z.lor (Z.shiftl (find_index (nth (2 * i) (cstr "ABCD") NUL) base16_table) 4)
            (find_index (nth (2 * i + 1) (cstr "ABCD") NUL) base16_table).
Proof.
  split; [|split].
  - apply (proj1 (base16_decode_cases (cstr "ABC"))). reflexivity.
  - apply (proj1 (proj2 (base16_decode_cases (cstr "ABcD")))); [reflexivity|].
    exists Byte.x63. split; [vm_compute; tauto|].
    apply find_index_absent. reflexivity.
  - apply (proj1 (proj2 (proj2 (base16_decode_cases (cstr "ABCD"))))); [reflexivity|].
    intros c Hc. apply find_index_present.
    repeat (destruct Hc as [<-|Hc]; [vm_compute; discriminate|]). destruct Hc.
Defined.

(** ** Empty payload and empty text *)

(** C4 as stated fails: base62_decode returns NULL for the empty text. *)
Lemma empty_decode_counterexample :
  ~ (encode Base62 [] = [] /\ decode Base62 [] = Ok []).
Proof. intros [_ H]. discriminate H. Qed.

(** C4 (amended): every format encodes the empty payload to the empty text;
    the empty text decodes to the empty payload under Base16, Base32, Base58
    and Base64, and is rejected by the [len == 0] guard of base62_decode and
    base85_decode. *)
Theorem empty_encode_decode (F : format) :
  encode F [] = [] /\
  decode F [] =
  match F with
  | Base62 | Base85 => Err EmptyInputRejected
  | _ => Ok []
  end.
Proof. destruct F; split; reflexivity. Qed.

(** ** Base58: leading zero bytes *)

(** C2 on the code: the digit array starts with one cell per leading zero
    byte, and the digits of the remaining bytes are stored into those cells
    first, so the ['1'] prefix is overwritten.  [00 00 01] encodes to "12",
    not to "11" followed by the encoding "2" of [01]; the payload
    [00 AB CD] of the function's documentation encodes to "E5J", without a
    leading ['1']. *)
Theorem base58_encode_leading_zeros_overwritten :
  base58_encode [Byte.x00] = cstr "1" /\
  base58_encode [Byte.x01] = cstr "2" /\
  base58_encode [Byte.x00; Byte.x00; Byte.x01] = cstr "12" /\
  base58_encode [Byte.x00; Byte.x00; Byte.x01] <> cstr "11" ++ base58_encode [Byte.x01] /\
  base58_encode [Byte.x00; Byte.xab; Byte.xcd] = cstr "E5J" /\
  base58_encode [Byte.xab; Byte.xcd] = cstr "E5J".
Proof.
  split; [reflexivity|]. split; [reflexivity|]. split; [reflexivity|].
  split; [vm_compute; discriminate|]. split; reflexivity.
Qed.

(** ** Base62: leading zero bytes *)

Lemma base62_encode_digits_skip input :
  base62_encode_digits input =
  base62_encode_digits (skipn (count_leading NUL input) input).
Proof.
  unfold base62_encode_digits.
  induction input as [|b rest IH]; [reflexivity|].
  cbn [count_leading].
  destruct (Byte.eqb b NUL) eqn:E.
  - apply byte_eqb_eq in E. subst b. cbn [skipn fold_left]. exact IH.
  - reflexivity.
Qed.

Lemma skipn_count_leading_all c input :
  (forall b, In b input -> b = c) -> skipn (count_leading c input) input = [].
Proof.
  induction input as [|b rest IH]; intro H; [reflexivity|].
  cbn [count_leading]. rewrite (H b (or_introl eq_refl)), byte_eqb_refl.
  cbn [skipn]. apply IH. intros b' Hb'. apply H. now right.
Qed.

(** C9: base62_encode gives the same text for a payload and for the payload
    without its leading zero bytes; a payload of zero bytes only encodes to
    the empty text, like the empty payload. *)
Theorem base62_encode_drops_leading_zeros (payload : list byte) :
  base62_encode payload =
  base62_encode (skipn (count_leading NUL payload) payload) /\
  ((forall b, In b payload -> b = NUL) -> base62_encode payload = []) /\
  base62_encode [Byte.x00] = [] /\
  base62_encode [Byte.x00] = base62_encode [].
Proof.
  assert (H : base62_encode payload =
              base62_encode (skipn (count_leading NUL payload) payload)).
  { unfold base62_encode. now rewrite base62_encode_digits_skip at 1. }
  repeat split; [exact H|].
  intro Hz. rewrite H, skipn_count_leading_all by exact Hz. reflexivity.
Qed.

Lemma base62_encode_drops_leading_zeros_witness :
  base62_encode [Byte.x00; Byte.x00] = [].
Proof.
  apply (proj1 (proj2 (base62_encode_drops_leading_zeros [Byte.x00; Byte.x00]))).
  intros b [<-|[<-|[]]]; reflexivity.
Defined.

(** ** Cutting a list into pieces *)

Lemma chunks_fuel_enough {A} (k : nat) (l : list A) :
  (0 < k)%nat ->
  forall fuel, (length l <= fuel)%nat -> chunks_fuel fuel k l = chunks k l.
Proof.
  intros Hk. unfold chunks.
  remember (length l) as n eqn:Hn.
  revert l Hn. induction n as [n IH] using lt_wf_ind. intros l Hn fuel Hfuel.
  destruct l as [|a l].
  - destruct fuel; subst n; reflexivity.
  - destruct fuel as [|fuel]; [subst n; cbn [length] in Hfuel; lia|].
    subst n. cbn [length chunks_fuel]. f_equal.
    assert (Hs : (length (skipn k (a :: l)) < S (length l))%nat).
    { rewrite length_skipn. cbn [length]. lia. }
    rewrite (IH _ Hs _ eq_refl fuel) by (cbn [length] in Hfuel; lia).
    rewrite (IH _ Hs _ eq_refl (length l)) by lia.
    reflexivity.
Qed.

Lemma chunks_app {A} (k : nat) (g rest : list A) :
  (0 < k)%nat -> length g = k -> chunks k (g ++ rest) = g :: chunks k rest.
Proof.
  intros Hk Hg. unfold chunks at 1.
  destruct (g ++ rest) as [|a l] eqn:E.
  - destruct g; [cbn [length] in Hg; lia | discriminate E].
  - cbn [length chunks_fuel]. rewrite <- E.
    rewrite <- Hg at 1. rewrite firstn_app, Nat.sub_diag, firstn_all.
    cbn [firstn]. rewrite app_nil_r. f_equal.
    rewrite <- Hg, skipn_app, Nat.sub_diag, skipn_all. cbn [skipn app].
    apply chunks_fuel_enough; [lia|].
    apply (f_equal (@length A)) in E. rewrite length_app in E.
    cbn [length] in E. lia.
Qed.

Lemma chunks_short {A} (k : nat) (l : list A) :
  (0 < length l <= k)%nat -> chunks k l = [l].
Proof.
  intro H. rewrite <- (app_nil_r l) at 1.
  destruct l as [|a l]; [cbn [length] in H; lia|].
  unfold chunks. rewrite app_nil_r. cbn [length chunks_fuel].
  rewrite firstn_all2 by (cbn [length] in *; lia).
  rewrite skipn_all2 by (cbn [length] in *; lia).
  destruct (length l); reflexivity.
Qed.

(** ** Base85 decoding *)

Lemma of_Z_mod (z : Z) : byte.of_Z (z mod 256) = byte.of_Z z.
Proof.
  apply byte.unsigned_inj. rewrite !byte.unsigned_of_Z. unfold byte.wrap.
  change (2 ^ 8) with 256. apply Z.mod_mod. lia.
Qed.

Lemma cleaned_input_filter input :
  cleaned_input input =
  filter (fun c => negb (existsb (Byte.eqb c)
            [Byte.x20; Byte.x09; Byte.x0d; Byte.x0a])) input.
Proof.
  unfold cleaned_input. apply filter_ext. intro c. unfold is_space.
  cbn [existsb].
  destruct (Byte.eqb c Byte.x20), (Byte.eqb c Byte.x0a),
           (Byte.eqb c Byte.x0d), (Byte.eqb c Byte.x09); reflexivity.
Qed.

Lemma strchr_from_find c table i :
  c <> NUL -> 0 <= i ->
  strchr_from table c i =
  if find_index_from c table i =? -1 then None
  else Some (find_index_from c table i).
Proof.
  intros Hc. revert i. induction table as [|t rest IH]; intros i Hi.
  - cbn [strchr_from find_index_from]. apply byte_eqb_neq in Hc. now rewrite Hc.
  - cbn [strchr_from find_index_from]. destruct (Byte.eqb t c).
    + destruct (i =? -1) eqn:E; [lia | reflexivity].
    + apply IH. lia.
Qed.

Lemma strchr_find c table :
  c <> NUL ->
  strchr table c =
  if find_index c table =? -1 then None else Some (find_index c table).
Proof. intro Hc. now apply strchr_from_find. Qed.

(** The terminating NUL of the table is found by [strchr], at the offset
    that follows the last symbol. *)
Lemma strchr_NUL : strchr base85_table NUL = Some 90.
Proof. reflexivity. Qed.

Lemma ulong_small z : 0 <= z < 2 ^ 64 -> ulong z = z.
Proof. intro H. unfold ulong. now apply Z.mod_small. Qed.

Lemma base85_digit_bound c :
  In c base85_table -> 0 <= find_index c base85_table < 90.
Proof.
  intro H. apply find_index_present in H.
  destruct (find_index_bounds c base85_table) as [Hb|Hb]; [contradiction|].
  exact Hb.
Qed.

Lemma base85_value_invalid block :
  ~ In NUL block ->
  (exists c, In c block /\ ~ In c base85_table) ->
  forall value, base85_value block value = Err InvalidCharacterError.
Proof.
  induction block as [|a block IH]; intros Hnul [c [Hin Hnot]] value.
  - destruct Hin.
  - cbn [base85_value]. rewrite strchr_find by (intro; apply Hnul; now left).
    destruct (find_index a base85_table =? -1) eqn:E; [reflexivity|].
    apply IH.
    + intro H. apply Hnul. now right.
    + exists c. split; [|exact Hnot]. destruct Hin as [->|Hin]; [|exact Hin].
      apply find_index_absent in Hnot. lia.
Qed.

Lemma base85_value_error block value e :
  base85_value block value = Err e -> e = InvalidCharacterError.
Proof.
  revert value. induction block as [|a block IH]; intros value H.
  - discriminate H.
  - cbn [base85_value] in H. destruct (strchr base85_table a).
    + now apply IH in H.
    + now inversion H.
Qed.

Lemma base85_value_step a block value :
  a <> NUL -> In a base85_table ->
  base85_value (a :: block) value =
  base85_value block (ulong (value * 85 + find_index a base85_table)).
Proof.
  intros Hnul Hin. cbn [base85_value]. rewrite strchr_find by exact Hnul.
  apply find_index_present in Hin.
  destruct (find_index a base85_table =? -1) eqn:E; [lia | reflexivity].
Qed.

Lemma base85_value_block c0 c1 c2 c3 c4 :
  ~ In NUL [c0; c1; c2; c3; c4] ->
  (forall c, In c [c0; c1; c2; c3; c4] -> In c base85_table) ->
  base85_value [c0; c1; c2; c3; c4] 0 =
  Ok (base85_accumulate (map (fun c => find_index c base85_table) [c0; c1; c2; c3; c4])).
Proof.
  intros Hnul Hall.
  assert (H0 := base85_digit_bound c0 (Hall c0 ltac:(cbn [In]; tauto))).
  assert (H1 := base85_digit_bound c1 (Hall c1 ltac:(cbn [In]; tauto))).
  assert (H2 := base85_digit_bound c2 (Hall c2 ltac:(cbn [In]; tauto))).
  assert (H3 := base85_digit_bound c3 (Hall c3 ltac:(cbn [In]; tauto))).
  assert (H4 := base85_digit_bound c4 (Hall c4 ltac:(cbn [In]; tauto))).
  rewrite !base85_value_step
    by (first [ intro; subst; apply Hnul; cbn [In]; tauto
              | apply Hall; cbn [In]; tauto ]).
  cbn [base85_value]. unfold base85_accumulate. cbn [map fold_left].
  set (d0 := find_index c0 base85_table) in *.
  set (d1 := find_index c1 base85_table) in *.
  set (d2 := find_index c2 base85_table) in *.
  set (d3 := find_index c3 base85_table) in *.
  set (d4 := find_index c4 base85_table) in *.
  change (2 ^ 64) with 18446744073709551616 in *.
  rewrite (ulong_small (0 * 85 + d0)) by (change (2 ^ 64) with 18446744073709551616; lia).
  rewrite (ulong_small ((0 * 85 + d0) * 85 + d1)) by (change (2 ^ 64) with 18446744073709551616; lia).
  rewrite (ulong_small (((0 * 85 + d0) * 85 + d1) * 85 + d2)) by (change (2 ^ 64) with 18446744073709551616; lia).
  rewrite (ulong_small ((((0 * 85 + d0) * 85 + d1) * 85 + d2) * 85 + d3)) by (change (2 ^ 64) with 18446744073709551616; lia).
  rewrite (ulong_small (((((0 * 85 + d0) * 85 + d1) * 85 + d2) * 85 + d3) * 85 + d4)) by (change (2 ^ 64) with 18446744073709551616; lia).
  reflexivity.
Qed.

Lemma base85_unpack_big_endian value :
  base85_unpack value = big_endian_4 value.
Proof.
  unfold base85_unpack, big_endian_4.
  rewrite !land_255, !of_Z_mod.
  rewrite (shiftr_div value 24 (2 ^ 24)), (shiftr_div value 16 (2 ^ 16)),
          (shiftr_div value 8 (2 ^ 8)) by lia.
  reflexivity.
Qed.

(** The bytes of a block depend on the low 32 bits of [value] only, so the
    result is the same where [unsigned long] has 32 bits. *)
Lemma base85_unpack_low32 value :
  base85_unpack (value mod 2 ^ 32) = base85_unpack value.
Proof.
  rewrite !base85_unpack_big_endian. unfold big_endian_4.
  rewrite <- (of_Z_mod (value mod 2 ^ 32 / 2 ^ 24)), <- (of_Z_mod (value / 2 ^ 24)).
  rewrite <- (of_Z_mod (value mod 2 ^ 32 / 2 ^ 16)), <- (of_Z_mod (value / 2 ^ 16)).
  rewrite <- (of_Z_mod (value mod 2 ^ 32 / 2 ^ 8)), <- (of_Z_mod (value / 2 ^ 8)).
  rewrite <- (of_Z_mod (value mod 2 ^ 32)), <- (of_Z_mod value).
  change (2 ^ 32) with 4294967296. change (2 ^ 24) with 16777216.
  change (2 ^ 16) with 65536. change (2 ^ 8) with 256.
  repeat (apply (f_equal2 (@cons byte)); [f_equal; zlia|]). reflexivity.
Qed.

Lemma base85_decode_blocks_error cleaned e :
  base85_decode_blocks cleaned = Err e -> e = InvalidCharacterError.
Proof.
  remember (length cleaned) as n eqn:Hn. revert cleaned Hn.
  induction n as [n IH] using lt_wf_ind. intros cleaned Hn H.
  destruct cleaned as [|c0 [|c1 [|c2 [|c3 [|c4 rest]]]]]; try discriminate H.
  cbn [base85_decode_blocks] in H.
  destruct (base85_value [c0; c1; c2; c3; c4] 0) eqn:Ev.
  - cbn [bind] in H.
    destruct (base85_decode_blocks rest) eqn:Er; [discriminate H|].
    cbn [bind] in H. inversion H; subst e0.
    apply (IH (length rest)) with (cleaned := rest); [subst n; cbn [length]; lia | reflexivity | exact Er].
  - cbn [bind] in H. inversion H; subst e0. now apply base85_value_error in Ev.
Qed.

Lemma base85_decode_blocks_invalid cleaned :
  ~ In NUL cleaned ->
  Z.of_nat (length cleaned) mod 5 = 0 ->
  (exists c, In c cleaned /\ ~ In c base85_table) ->
  base85_decode_blocks cleaned = Err InvalidCharacterError.
Proof.
  remember (length cleaned) as n eqn:Hn. revert cleaned Hn.
  induction n as [n IH] using lt_wf_ind. intros cleaned Hn Hnul Hlen [c [Hin Hnot]].
  destruct cleaned as [|c0 [|c1 [|c2 [|c3 [|c4 rest]]]]];
    try (subst n; discriminate Hlen).
  - destruct Hin.
  - cbn [base85_decode_blocks].
    destruct (in_dec Byte.byte_eq_dec c [c0; c1; c2; c3; c4]) as [Hblk|Hblk].
    + rewrite base85_value_invalid; [reflexivity | |].
      * intro H. apply Hnul. cbn [In] in *. tauto.
      * now exists c.
    + assert (Hrest : In c rest) by (cbn [In] in *; tauto).
      rewrite (IH (length rest)) with (cleaned := rest).
      * destruct (base85_value [c0; c1; c2; c3; c4] 0) eqn:Ev; cbn [bind]; [reflexivity|].
        apply base85_value_error in Ev. now subst.
      * subst n. cbn [length]. lia.
      * reflexivity.
      * intro H. apply Hnul. cbn [In]. tauto.
      * subst n. cbn [length] in Hlen. zlia.
      * now exists c.
Qed.

Lemma base85_decode_blocks_valid cleaned :
  ~ In NUL cleaned ->
  Z.of_nat (length cleaned) mod 5 = 0 ->
  (forall c, In c cleaned -> In c base85_table) ->
  base85_decode_blocks cleaned = Ok (flat_map base85_block_bytes (chunks 5 cleaned)) /\
  Z.of_nat (length (flat_map base85_block_bytes (chunks 5 cleaned))) =
  Z.of_nat (length cleaned) / 5 * 4.
Proof.
  remember (length cleaned) as n eqn:Hn. revert cleaned Hn.
  induction n as [n IH] using lt_wf_ind. intros cleaned Hn Hnul Hlen Hall.
  destruct cleaned as [|c0 [|c1 [|c2 [|c3 [|c4 rest]]]]];
    try (subst n; discriminate Hlen).
  - subst n. split; reflexivity.
  - destruct (IH (length rest)) with (cleaned := rest) as [IH1 IH2].
    + subst n. cbn [length]. lia.
    + reflexivity.
    + intro H. apply Hnul. cbn [In]. tauto.
    + subst n. cbn [length] in Hlen. zlia.
    + intros c Hc. apply Hall. cbn [In]. tauto.
    + change (c0 :: c1 :: c2 :: c3 :: c4 :: rest) with ([c0; c1; c2; c3; c4] ++ rest).
      rewrite chunks_app by (cbn [length]; lia).
      cbn [flat_map app base85_decode_blocks].
      rewrite base85_value_block.
      * rewrite IH1. cbn [bind]. rewrite base85_unpack_big_endian. split; [reflexivity|].
        unfold base85_block_bytes at 1. cbn [big_endian_4 app length].
        subst n. cbn [length]. rewrite !Nat2Z.inj_succ, IH2.
        replace (Z.succ (Z.succ (Z.succ (Z.succ (Z.succ (Z.of_nat (length rest)))))))
          with (Z.of_nat (length rest) + 1 * 5) by lia.
        rewrite Z.div_add by lia. lia.
      * intro H. apply Hnul. cbn [In] in *. tauto.
      * intros c Hc. apply Hall. cbn [In] in *. tauto.
Qed.

Lemma cleaned_input_no_NUL input : ~ In NUL input -> ~ In NUL (cleaned_input input).
Proof. intros H Hin. apply H. unfold cleaned_input in Hin. now apply filter_In in Hin. Qed.

(** C8 as stated fails on the empty input, which the [len == 0] guard
    rejects. *)
Lemma base85_decode_claim_counterexample : ~ base85_decode_claim [].
Proof.
  intros [_ [_ H]].
  destruct H as [output [H _]]; [reflexivity | intros c [] |].
  discriminate H.
Qed.

(** C8 (amended): for a non-empty input without NUL bytes, base85_decode
    discards space, tab, CR and LF, fails with a length error when the
    cleaned length is not a multiple of 5 and with an invalid-character
    error when a cleaned symbol is outside [base85_table]; otherwise every
    5-symbol block is accumulated as [value*85 + digit] and unpacked into 4
    big-endian bytes, [cleaned_length/5*4] bytes in all.  The empty input is
    rejected. *)
Theorem base85_decode_cases (input : list byte) :
  input <> [] -> ~ In NUL input ->
  base85_decode_claim input /\ base85_decode [] = Err EmptyInputRejected.
Proof.
  intros Hne Hnul. split; [|reflexivity].
  unfold base85_decode_claim. rewrite <- cleaned_input_filter.
  unfold base85_decode.
  destruct input as [|a input]; [contradiction|].
  cbn [length Nat.eqb].
  pose proof (cleaned_input_no_NUL _ Hnul) as Hc.
  repeat split.
  - intro H. destruct (Z.of_nat (length (cleaned_input (a :: input))) mod 5 =? 0) eqn:E; [lia | reflexivity].
  - intros H Hex. rewrite H. cbn [Z.eqb]. now apply base85_decode_blocks_invalid.
  - intros H Hall. rewrite H. cbn [Z.eqb].
    destruct (base85_decode_blocks_valid _ Hc H Hall) as [H1 H2].
    eexists. split; [exact H1|]. split; [reflexivity | exact H2].
Qed.

Lemma base85_decode_cases_witness :
  base85_decode_claim (cstr "!!!! !") /\ base85_decode [] = Err EmptyInputRejected.
Proof.
  apply (base85_decode_cases (cstr "!!!! !")).
  - discriminate.
  - vm_compute. intros H. repeat (destruct H as [H|H]; [discriminate H|]). exact H.
Defined.

(** ** Padding of the Base32 and Base64 input *)

Lemma mod_opp_succ p m :
  0 < m -> p mod m <> 0 -> (- (p + 1)) mod m = (- p) mod m - 1.
Proof.
  intros Hm Hp.
  pose proof (Z.mod_pos_bound p m Hm) as Hb.
  rewrite (Z.mod_opp_l_nz p m) by lia.
  replace (- (p + 1)) with (- p - 1) by lia.
  rewrite <- Zminus_mod_idemp_l, (Z.mod_opp_l_nz p m) by lia.
  apply Z.mod_small. lia.
Qed.

Lemma pad_len_loop_spec m fuel padded_len :
  0 < m -> (- padded_len) mod m <= Z.of_nat fuel ->
  pad_len_loop fuel padded_len m = padded_len + (- padded_len) mod m.
Proof.
  intro Hm. revert padded_len. induction fuel as [|fuel IH]; intros p Hfuel.
  - cbn [pad_len_loop]. pose proof (Z.mod_pos_bound (- p) m Hm). lia.
  - cbn [pad_len_loop]. destruct (p mod m =? 0) eqn:E.
    + apply Z.eqb_eq in E. rewrite Z.mod_opp_l_z by lia. lia.
    + apply Z.eqb_neq in E.
      pose proof (mod_opp_succ p m Hm E) as Hs.
      rewrite IH by lia. lia.
Qed.

Lemma padded_length_spec len m :
  0 < m -> 0 <= len -> padded_length len m = len + (- len) mod m.
Proof.
  intros Hm Hlen. unfold padded_length. apply pad_len_loop_spec; try assumption.
  rewrite Z2Nat.id by lia. pose proof (Z.mod_pos_bound (- len) m Hm). lia.
Qed.

Lemma mod_opp_sub len m :
  0 < m -> (- len) mod m = (m - len mod m) mod m.
Proof.
  intro Hm. pose proof (Z.mod_pos_bound len m Hm) as Hb.
  destruct (Z.eq_dec (len mod m) 0) as [E|E].
  - rewrite Z.mod_opp_l_z, E, Z.sub_0_r, Z_mod_same_full by lia. reflexivity.
  - rewrite Z.mod_opp_l_nz by lia. symmetry. apply Z.mod_small. lia.
Qed.

Lemma pad_amount (len m : nat) :
  (0 < m)%nat ->
  Z.to_nat (padded_length (Z.of_nat len) (Z.of_nat m) - Z.of_nat len) =
  ((m - len mod m) mod m)%nat.
Proof.
  intro Hm. rewrite padded_length_spec by lia.
  replace (Z.of_nat len + - Z.of_nat len mod Z.of_nat m - Z.of_nat len)
    with (- Z.of_nat len mod Z.of_nat m) by lia.
  pose proof (Nat.mod_upper_bound len m ltac:(lia)) as Hb.
  rewrite mod_opp_sub by lia.
  rewrite <- Nat2Z.inj_mod, <- Nat2Z.inj_sub, <- Nat2Z.inj_mod by lia.
  apply Nat2Z.id.
Qed.

Lemma strncpy_no_NUL input : ~ In NUL input -> strncpy input = input.
Proof.
  induction input as [|c rest IH]; intro H; [reflexivity|].
  cbn [strncpy]. destruct (Byte.eqb c NUL) eqn:E.
  - apply byte_eqb_eq in E. exfalso. apply H. now left.
  - f_equal. apply IH. intro Hin. apply H. now right.
Qed.

Lemma strncpy_length input : length (strncpy input) = length input.
Proof.
  induction input as [|c rest IH]; [reflexivity|].
  cbn [strncpy]. destruct (Byte.eqb c NUL).
  - apply repeat_length.
  - cbn [length]. now rewrite IH.
Qed.

Lemma strncpy_NUL input : In NUL input -> In NUL (strncpy input).
Proof.
  induction input as [|c rest IH]; intro H; [destruct H|].
  cbn [strncpy]. destruct (Byte.eqb c NUL) eqn:E.
  - cbn [length repeat]. now left.
  - apply byte_eqb_neq in E. destruct H as [H|H]; [congruence|].
    right. now apply IH.
Qed.

Lemma padded_input_valid input (m : nat) :
  (0 < m)%nat -> ~ In NUL input ->
  padded_input input (Z.of_nat m) = pad_right m input.
Proof.
  intros Hm H. unfold padded_input, pad_right.
  now rewrite strncpy_no_NUL, pad_amount.
Qed.

Lemma nat_pad_multiple (len m : nat) :
  (0 < m)%nat -> ((len + (m - len mod m) mod m) mod m = 0)%nat.
Proof.
  intro Hm. pose proof (Nat.mod_upper_bound len m ltac:(lia)) as Hb.
  rewrite Nat.Div0.add_mod_idemp_r.
  destruct (Nat.eq_dec (len mod m) 0) as [E|E].
  - rewrite E, Nat.sub_0_r. rewrite <- Nat.Div0.add_mod_idemp_r, Nat.Div0.mod_same.
    now rewrite Nat.add_0_r.
  - rewrite (Nat.div_mod_eq len m) at 1.
    replace (m * (len / m) + len mod m + (m - len mod m))%nat
      with (m + (len / m) * m)%nat by lia.
    rewrite Nat.Div0.mod_add. apply Nat.Div0.mod_same.
Qed.

Lemma pad_right_length (m : nat) text :
  (0 < m)%nat ->
  (length (pad_right m text) mod m = 0)%nat /\
  (length text <= length (pad_right m text) < length text + m)%nat.
Proof.
  intro Hm. unfold pad_right. rewrite length_app, repeat_length.
  pose proof (Nat.mod_upper_bound (m - length text mod m) m ltac:(lia)) as H2.
  split; [now apply nat_pad_multiple | lia].
Qed.

Lemma padded_input_length input (m : nat) :
  (0 < m)%nat ->
  (length (padded_input input (Z.of_nat m)) mod m = 0)%nat.
Proof.
  intro Hm. unfold padded_input.
  rewrite length_app, strncpy_length, repeat_length, pad_amount by exact Hm.
  now apply nat_pad_multiple.
Qed.

(** ** Symbols of a group *)

Lemma PAD_not_in_base32 : ~ In PAD base32_table.
Proof. apply find_index_absent. reflexivity. Qed.

Lemma PAD_not_in_base64 : ~ In PAD base64_table.
Proof. apply find_index_absent. reflexivity. Qed.

Lemma NUL_not_in_base32 : ~ In NUL base32_table.
Proof. apply find_index_absent. reflexivity. Qed.

Lemma NUL_not_in_base64 : ~ In NUL base64_table.
Proof. apply find_index_absent. reflexivity. Qed.

Lemma group_index_PAD table : group_index table PAD = Ok 0.
Proof. reflexivity. Qed.

Lemma group_index_symbol table c :
  c <> PAD -> In c table -> group_index table c = Ok (find_index c table).
Proof.
  intros Hc Hin. unfold group_index.
  apply byte_eqb_neq in Hc. rewrite Hc.
  apply find_index_present in Hin.
  destruct (find_index c table =? -1) eqn:E; [lia | reflexivity].
Qed.

Lemma group_index_invalid table c :
  c <> PAD -> ~ In c table -> group_index table c = Err InvalidCharacterError.
Proof.
  intros Hc Hin. unfold group_index.
  apply byte_eqb_neq in Hc. rewrite Hc.
  apply find_index_absent in Hin. now rewrite Hin.
Qed.

Lemma group_index_error table c e :
  group_index table c = Err e -> e = InvalidCharacterError.
Proof.
  unfold group_index. destruct (Byte.eqb c PAD); [discriminate|].
  destruct (find_index c table =? -1); [|discriminate].
  now inversion 1.
Qed.

Lemma group_indices_error table group e :
  group_indices table group = Err e -> e = InvalidCharacterError.
Proof.
  induction group as [|c rest IH]; [discriminate|].
  cbn [group_indices]. destruct (group_index table c) eqn:E; cbn [bind].
  - destruct (group_indices table rest); cbn [bind]; [discriminate|].
    intro H. inversion H; subst. now apply IH.
  - intro H. inversion H; subst. now apply group_index_error in E.
Qed.

Lemma group_indices_invalid table group :
  (exists c, In c group /\ c <> PAD /\ ~ In c table) ->
  group_indices table group = Err InvalidCharacterError.
Proof.
  induction group as [|a rest IH]; intros [c [Hin [Hpad Hnot]]]; [destruct Hin|].
  cbn [group_indices].
  destruct (group_index table a) eqn:E; cbn [bind].
  - destruct Hin as [->|Hin]; [now rewrite group_index_invalid in E|].
    rewrite IH; [reflexivity|]. now exists c.
  - now apply group_index_error in E; subst.
Qed.

Lemma group_indices_valid table group :
  padded_text table group ->
  exists indices, group_indices table group = Ok indices /\
                  length indices = length group.
Proof.
  induction group as [|a rest IH]; intro H.
  - now exists [].
  - destruct IH as [idxs [Hi Hl]]; [intros c Hc; apply H; now right|].
    cbn [group_indices]. rewrite Hi.
    destruct (Byte.byte_eq_dec a PAD) as [->|Hne].
    + rewrite group_index_PAD. cbn [bind]. eexists. split; [reflexivity|].
      cbn [length]. now rewrite Hl.
    + destruct (H a (or_introl eq_refl)) as [Ha|Ha]; [contradiction|].
      rewrite group_index_symbol by assumption. cbn [bind].
      eexists. split; [reflexivity|]. cbn [length]. now rewrite Hl.
Qed.

Lemma emit_if_length cond z :
  length (emit_if cond z) = if cond then 1%nat else 0%nat.
Proof. now destruct cond. Qed.

(** ** Base64 decoding *)

Ltac nlia := zify; Z.to_euclidean_division_equations; lia.

Lemma padded_text_app table x y :
  padded_text table (x ++ y) <-> padded_text table x /\ padded_text table y.
Proof.
  unfold padded_text. split.
  - intro H. split; intros c Hc; apply H, in_or_app; tauto.
  - intros [H1 H2] c Hc. apply in_app_or in Hc. destruct Hc; auto.
Qed.

Lemma padded_text_repeat table n : padded_text table (repeat PAD n).
Proof. intros c Hc. left. now apply repeat_spec in Hc. Qed.

Lemma padded_text_no_NUL table text :
  ~ In NUL table -> padded_text table text -> ~ In NUL text.
Proof.
  intros Ht H Hin. destruct (H NUL Hin) as [E|E]; [discriminate E | contradiction].
Qed.

Lemma pad_right_multiple (m : nat) text :
  (0 < m)%nat -> (length text mod m = 0)%nat -> pad_right m text = text.
Proof.
  intros Hm H. unfold pad_right. rewrite H, Nat.sub_0_r, Nat.Div0.mod_same.
  cbn [repeat]. apply app_nil_r.
Qed.

Lemma pad_right_app (m : nat) x y :
  (0 < m)%nat -> (length x mod m = 0)%nat ->
  pad_right m (x ++ y) = x ++ pad_right m y.
Proof.
  intros Hm H. unfold pad_right. rewrite <- app_assoc. do 3 f_equal.
  rewrite length_app, <- Nat.Div0.add_mod_idemp_l, H. reflexivity.
Qed.

Lemma base64_decode_group_valid c0 c1 c2 c3 :
  padded_text base64_table [c0; c1; c2; c3] ->
  exists bytes,
    base64_decode_group c0 c1 c2 c3 = Ok bytes /\
    length bytes = (3 - pads_at [2; 3] [c0; c1; c2; c3])%nat.
Proof.
  intro H. destruct (group_indices_valid _ _ H) as [idxs [Hi _]].
  unfold base64_decode_group. rewrite Hi. cbn [bind].
  eexists. split; [reflexivity|].
  rewrite !length_app, !emit_if_length. unfold pads_at, not_pad.
  cbn [filter nth length].
  destruct (Byte.eqb c2 PAD), (Byte.eqb c3 PAD); reflexivity.
Qed.

Lemma base64_decode_group_invalid c0 c1 c2 c3 :
  (exists c, In c [c0; c1; c2; c3] /\ c <> PAD /\ ~ In c base64_table) ->
  base64_decode_group c0 c1 c2 c3 = Err InvalidCharacterError.
Proof.
  intro H. unfold base64_decode_group.
  now rewrite group_indices_invalid.
Qed.

Lemma base64_decode_group_error c0 c1 c2 c3 e :
  base64_decode_group c0 c1 c2 c3 = Err e -> e = InvalidCharacterError.
Proof.
  unfold base64_decode_group.
  destruct (group_indices base64_table [c0; c1; c2; c3]) eqn:E; cbn [bind].
  - discriminate.
  - intro H. inversion H; subst. now apply group_indices_error in E.
Qed.

(** Induction over a text whose length is a multiple of four. *)
Lemma groups4_induction (P : list byte -> Prop) :
  P [] ->
  (forall c0 c1 c2 c3 rest, P rest -> P (c0 :: c1 :: c2 :: c3 :: rest)) ->
  forall text, (length text mod 4 = 0)%nat -> P text.
Proof.
  intros H0 H4 text.
  remember (length text) as n eqn:Hn. revert text Hn.
  induction n as [n IH] using lt_wf_ind. intros text Hn Hlen.
  destruct text as [|c0 [|c1 [|c2 [|c3 rest]]]];
    try (subst n; discriminate Hlen).
  - exact H0.
  - apply H4. apply (IH (length rest)); [subst n; cbn [length]; lia | reflexivity|].
    subst n. cbn [length] in Hlen. nlia.
Qed.

Ltac by_groups4 text Hlen :=
  pattern text; refine (groups4_induction _ _ _ text Hlen);
  clear Hlen; try clear text; cbv beta;
  [ | intros c0 c1 c2 c3 rest IH ].

Lemma base64_decode_groups_error padded e :
  (length padded mod 4 = 0)%nat ->
  base64_decode_groups padded = Err e -> e = InvalidCharacterError.
Proof.
  intro Hlen. by_groups4 padded Hlen; [discriminate|].
  cbn [base64_decode_groups].
  destruct (base64_decode_group c0 c1 c2 c3) eqn:E; cbn [bind].
  - destruct (base64_decode_groups rest); cbn [bind]; [discriminate|].
    intro H. inversion H; subst. now apply IH.
  - intro H. inversion H; subst. now apply base64_decode_group_error in E.
Qed.

Lemma base64_decode_groups_invalid padded :
  (length padded mod 4 = 0)%nat ->
  (exists c, In c padded /\ c <> PAD /\ ~ In c base64_table) ->
  base64_decode_groups padded = Err InvalidCharacterError.
Proof.
  intro Hlen. by_groups4 padded Hlen; [intros [c [[] _]]|].
  intros [c [Hin Hc]]. cbn [base64_decode_groups].
  destruct (in_dec Byte.byte_eq_dec c [c0; c1; c2; c3]) as [Hg|Hg].
  - rewrite base64_decode_group_invalid; [reflexivity | now exists c].
  - rewrite IH by (exists c; cbn [In] in *; tauto).
    destruct (base64_decode_group c0 c1 c2 c3) eqn:E; cbn [bind]; [reflexivity|].
    now apply base64_decode_group_error in E; subst.
Qed.

Lemma base64_decode_groups_app x y :
  (length x mod 4 = 0)%nat ->
  base64_decode_groups (x ++ y) =
  (a <- base64_decode_groups x ;; b <- base64_decode_groups y ;; Ok (a ++ b)).
Proof.
  intro Hlen. by_groups4 x Hlen.
  - cbn [app base64_decode_groups bind]. now destruct (base64_decode_groups y).
  - cbn [app base64_decode_groups]. rewrite IH.
    destruct (base64_decode_group c0 c1 c2 c3); cbn [bind]; [|reflexivity].
    destruct (base64_decode_groups rest); cbn [bind]; [|reflexivity].
    destruct (base64_decode_groups y); cbn [bind]; [|reflexivity].
    now rewrite app_assoc.
Qed.

Lemma base64_decode_padded text :
  padded_text base64_table text ->
  base64_decode text = base64_decode_groups (pad_right 4 text).
Proof.
  intro H. unfold base64_decode.
  change 4 with (Z.of_nat 4). rewrite padded_input_valid; [reflexivity | lia |].
  exact (padded_text_no_NUL _ _ NUL_not_in_base64 H).
Qed.

Lemma base64_decode_groups_valid padded :
  (length padded mod 4 = 0)%nat ->
  padded_text base64_table padded ->
  exists outs,
    base64_decode_groups padded = Ok (concat outs) /\
    Forall2 (fun group bytes =>
               base64_decode group = Ok bytes /\
               length bytes = (3 - pads_at [2; 3] group)%nat)
            (chunks 4 padded) outs.
Proof.
  intro Hlen. by_groups4 padded Hlen; intro Hv.
  - exists []. split; [reflexivity | constructor].
  - change (c0 :: c1 :: c2 :: c3 :: rest) with ([c0; c1; c2; c3] ++ rest) in *.
    apply padded_text_app in Hv. destruct Hv as [Hg Hr].
    destruct (IH Hr) as [outs [Ho Hf]].
    destruct (base64_decode_group_valid _ _ _ _ Hg) as [bytes [Hb Hl]].
    exists (bytes :: outs). rewrite chunks_app by (cbn [length]; lia).
    split.
    + cbn [app base64_decode_groups concat]. now rewrite Hb, Ho.
    + constructor; [|exact Hf]. split; [|exact Hl].
      rewrite base64_decode_padded, pad_right_multiple by (try exact Hg; cbn [length]; lia).
      cbn [base64_decode_groups]. rewrite Hb. cbn [bind]. now rewrite app_nil_r.
Qed.

Lemma base64_decode_invalid input :
  (exists c, In c input /\ c <> PAD /\ ~ In c base64_table) ->
  base64_decode input = Err InvalidCharacterError.
Proof.
  intros [c [Hin [Hpad Hnot]]]. unfold base64_decode.
  apply base64_decode_groups_invalid.
  - change 4 with (Z.of_nat 4). apply padded_input_length. lia.
  - unfold padded_input.
    destruct (in_dec Byte.byte_eq_dec NUL input) as [Hnul|Hnul].
    + exists NUL. split; [apply in_or_app; left; now apply strncpy_NUL|].
      split; [discriminate | exact NUL_not_in_base64].
    + exists c. rewrite strncpy_no_NUL by exact Hnul.
      split; [apply in_or_app; now left | now split].
Qed.

Lemma base64_decode_valid text :
  padded_text base64_table text ->
  exists outs,
    base64_decode text = Ok (concat outs) /\
    Forall2 (fun group bytes =>
               base64_decode group = Ok bytes /\
               length bytes = (3 - pads_at [2; 3] group)%nat)
            (chunks 4 (pad_right 4 text)) outs.
Proof.
  intro H. rewrite base64_decode_padded by exact H.
  apply base64_decode_groups_valid.
  - apply pad_right_length. lia.
  - apply padded_text_app. split; [exact H | apply padded_text_repeat].
Qed.

Lemma base64_decode_app x y :
  (length x mod 4 = 0)%nat -> padded_text base64_table (x ++ y) ->
  base64_decode (x ++ y) =
  (a <- base64_decode x ;; b <- base64_decode y ;; Ok (a ++ b)).
Proof.
  intros Hlen Hv. pose proof Hv as Hv'. apply padded_text_app in Hv'.
  destruct Hv' as [Hx Hy].
  rewrite !base64_decode_padded by assumption.
  rewrite pad_right_app, (pad_right_multiple 4 x) by (try exact Hlen; lia).
  now apply base64_decode_groups_app.
Qed.

Lemma base64_decode_group_alone group :
  length group = 4%nat -> padded_text base64_table group ->
  exists bytes,
    base64_decode group = Ok bytes /\
    length bytes = (3 - pads_at [2; 3] group)%nat.
Proof.
  intros Hlen Hv.
  rewrite base64_decode_padded, pad_right_multiple by (try exact Hv; try rewrite Hlen; try reflexivity; lia).
  do 4 (destruct group as [|? group]; [discriminate Hlen|]).
  destruct group; [|discriminate Hlen].
  destruct (base64_decode_group_valid _ _ _ _ Hv) as [bytes [Hb Hl]].
  exists bytes. split; [|exact Hl].
  cbn [base64_decode_groups]. rewrite Hb. cbn [bind]. now rewrite app_nil_r.
Qed.

Lemma base64_pad_in_group pre group post :
  (length pre mod 4 = 0)%nat -> length group = 4%nat ->
  padded_text base64_table (pre ++ group ++ post) ->
  exists a b c,
    base64_decode pre = Ok a /\
    base64_decode group = Ok b /\
    base64_decode post = Ok c /\
    base64_decode (pre ++ group ++ post) = Ok (a ++ b ++ c) /\
    length b = (3 - pads_at [2; 3] group)%nat.
Proof.
  intros Hpre Hgroup Hv. pose proof Hv as Hv'.
  apply padded_text_app in Hv'. destruct Hv' as [Hvpre Hv'].
  pose proof Hv' as Hv''. apply padded_text_app in Hv''. destruct Hv'' as [Hvg Hvpost].
  destruct (base64_decode_valid pre Hvpre) as [oa [Ha _]].
  destruct (base64_decode_group_alone group Hgroup Hvg) as [b [Hb Hl]].
  destruct (base64_decode_valid post Hvpost) as [oc [Hc _]].
  exists (concat oa), b, (concat oc).
  rewrite base64_decode_app by assumption.
  rewrite (base64_decode_app group post) by (try exact Hv'; rewrite Hgroup; reflexivity).
  rewrite Ha, Hb, Hc. cbn [bind]. repeat split. exact Hl.
Qed.

(** ** Base32 decoding *)

Lemma base32_decode_group_valid c0 c1 c2 c3 c4 c5 c6 c7 :
  padded_text base32_table [c0; c1; c2; c3; c4; c5; c6; c7] ->
  exists bytes,
    base32_decode_group c0 c1 c2 c3 c4 c5 c6 c7 = Ok bytes /\
    length bytes = (5 - pads_at [2; 4; 5; 6] [c0; c1; c2; c3; c4; c5; c6; c7])%nat.
Proof.
  intro H. destruct (group_indices_valid _ _ H) as [idxs [Hi _]].
  unfold base32_decode_group. rewrite Hi. cbn [bind].
  eexists. split; [reflexivity|].
  rewrite !length_app, !emit_if_length. unfold pads_at, not_pad.
  cbn [filter nth length].
  destruct (Byte.eqb c2 PAD), (Byte.eqb c4 PAD), (Byte.eqb c5 PAD), (Byte.eqb c6 PAD);
    reflexivity.
Qed.

Lemma base32_decode_group_invalid c0 c1 c2 c3 c4 c5 c6 c7 :
  (exists c, In c [c0; c1; c2; c3; c4; c5; c6; c7] /\ c <> PAD /\ ~ In c base32_table) ->
  base32_decode_group c0 c1 c2 c3 c4 c5 c6 c7 = Err InvalidCharacterError.
Proof.
  intro H. unfold base32_decode_group.
  now rewrite group_indices_invalid.
Qed.

Lemma base32_decode_group_error c0 c1 c2 c3 c4 c5 c6 c7 e :
  base32_decode_group c0 c1 c2 c3 c4 c5 c6 c7 = Err e -> e = InvalidCharacterError.
Proof.
  unfold base32_decode_group.
  destruct (group_indices base32_table [c0; c1; c2; c3; c4; c5; c6; c7]) eqn:E; cbn [bind].
  - discriminate.
  - intro H. inversion H; subst. now apply group_indices_error in E.
Qed.

(** Induction over a text whose length is a multiple of eight. *)
Lemma groups8_induction (P : list byte -> Prop) :
  P [] ->
  (forall c0 c1 c2 c3 c4 c5 c6 c7 rest,
     P rest -> P (c0 :: c1 :: c2 :: c3 :: c4 :: c5 :: c6 :: c7 :: rest)) ->
  forall text, (length text mod 8 = 0)%nat -> P text.
Proof.
  intros H0 H8 text.
  remember (length text) as n eqn:Hn. revert text Hn.
  induction n as [n IH] using lt_wf_ind. intros text Hn Hlen.
  destruct text as [|c0 [|c1 [|c2 [|c3 [|c4 [|c5 [|c6 [|c7 rest]]]]]]]];
    try (subst n; discriminate Hlen).
  - exact H0.
  - apply H8. apply (IH (length rest)); [subst n; cbn [length]; lia | reflexivity|].
    subst n. cbn [length] in Hlen. nlia.
Qed.

Ltac by_groups8 text Hlen :=
  pattern text; refine (groups8_induction _ _ _ text Hlen);
  clear Hlen; try clear text; cbv beta;
  [ | intros c0 c1 c2 c3 c4 c5 c6 c7 rest IH ].

Lemma base32_decode_groups_error padded e :
  (length padded mod 8 = 0)%nat ->
  base32_decode_groups padded = Err e -> e = InvalidCharacterError.
Proof.
  intro Hlen. by_groups8 padded Hlen; [discriminate|].
  cbn [base32_decode_groups].
  destruct (base32_decode_group c0 c1 c2 c3 c4 c5 c6 c7) eqn:E; cbn [bind].
  - destruct (base32_decode_groups rest); cbn [bind]; [discriminate|].
    intro H. inversion H; subst. now apply IH.
  - intro H. inversion H; subst. now apply base32_decode_group_error in E.
Qed.

Lemma base32_decode_groups_invalid padded :
  (length padded mod 8 = 0)%nat ->
  (exists c, In c padded /\ c <> PAD /\ ~ In c base32_table) ->
  base32_decode_groups padded = Err InvalidCharacterError.
Proof.
  intro Hlen. by_groups8 padded Hlen; [intros [c [[] _]]|].
  intros [c [Hin Hc]]. cbn [base32_decode_groups].
  destruct (in_dec Byte.byte_eq_dec c [c0; c1; c2; c3; c4; c5; c6; c7]) as [Hg|Hg].
  - rewrite base32_decode_group_invalid; [reflexivity | now exists c].
  - rewrite IH by (exists c; cbn [In] in *; tauto).
    destruct (base32_decode_group c0 c1 c2 c3 c4 c5 c6 c7) eqn:E; cbn [bind]; [reflexivity|].
    now apply base32_decode_group_error in E; subst.
Qed.

Lemma base32_decode_groups_app x y :
  (length x mod 8 = 0)%nat ->
  base32_decode_groups (x ++ y) =
  (a <- base32_decode_groups x ;; b <- base32_decode_groups y ;; Ok (a ++ b)).
Proof.
  intro Hlen. by_groups8 x Hlen.
  - cbn [app base32_decode_groups bind]. now destruct (base32_decode_groups y).
  - cbn [app base32_decode_groups]. rewrite IH.
    destruct (base32_decode_group c0 c1 c2 c3 c4 c5 c6 c7); cbn [bind]; [|reflexivity].
    destruct (base32_decode_groups rest); cbn [bind]; [|reflexivity].
    destruct (base32_decode_groups y); cbn [bind]; [|reflexivity].
    now rewrite app_assoc.
Qed.

Lemma base32_decode_padded text :
  padded_text base32_table text ->
  base32_decode text = base32_decode_groups (pad_right 8 text).
Proof.
  intro H. unfold base32_decode.
  change 8 with (Z.of_nat 8). rewrite padded_input_valid; [reflexivity | lia |].
  exact (padded_text_no_NUL _ _ NUL_not_in_base32 H).
Qed.

Lemma base32_decode_groups_valid padded :
  (length padded mod 8 = 0)%nat ->
  padded_text base32_table padded ->
  exists outs,
    base32_decode_groups padded = Ok (concat outs) /\
    Forall2 (fun group bytes =>
               base32_decode group = Ok bytes /\
               length bytes = (5 - pads_at [2; 4; 5; 6] group)%nat)
            (chunks 8 padded) outs.
Proof.
  intro Hlen. by_groups8 padded Hlen; intro Hv.
  - exists []. split; [reflexivity | constructor].
  - change (c0 :: c1 :: c2 :: c3 :: c4 :: c5 :: c6 :: c7 :: rest)
      with ([c0; c1; c2; c3; c4; c5; c6; c7] ++ rest) in *.
    apply padded_text_app in Hv. destruct Hv as [Hg Hr].
    destruct (IH Hr) as [outs [Ho Hf]].
    destruct (base32_decode_group_valid _ _ _ _ _ _ _ _ Hg) as [bytes [Hb Hl]].
    exists (bytes :: outs). rewrite chunks_app by (cbn [length]; lia).
    split.
    + cbn [app base32_decode_groups concat]. now rewrite Hb, Ho.
    + constructor; [|exact Hf]. split; [|exact Hl].
      rewrite base32_decode_padded, pad_right_multiple by (try exact Hg; cbn [length]; lia).
      cbn [base32_decode_groups]. rewrite Hb. cbn [bind]. now rewrite app_nil_r.
Qed.

Lemma base32_decode_invalid input :
  (exists c, In c input /\ c <> PAD /\ ~ In c base32_table) ->
  base32_decode input = Err InvalidCharacterError.
Proof.
  intros [c [Hin [Hpad Hnot]]]. unfold base32_decode.
  apply base32_decode_groups_invalid.
  - change 8 with (Z.of_nat 8). apply padded_input_length. lia.
  - unfold padded_input.
    destruct (in_dec Byte.byte_eq_dec NUL input) as [Hnul|Hnul].
    + exists NUL. split; [apply in_or_app; left; now apply strncpy_NUL|].
      split; [discriminate | exact NUL_not_in_base32].
    + exists c. rewrite strncpy_no_NUL by exact Hnul.
      split; [apply in_or_app; now left | now split].
Qed.

Lemma base32_decode_valid text :
  padded_text base32_table text ->
  exists outs,
    base32_decode text = Ok (concat outs) /\
    Forall2 (fun group bytes =>
               base32_decode group = Ok bytes /\
               length bytes = (5 - pads_at [2; 4; 5; 6] group)%nat)
            (chunks 8 (pad_right 8 text)) outs.
Proof.
  intro H. rewrite base32_decode_padded by exact H.
  apply base32_decode_groups_valid.
  - apply pad_right_length. lia.
  - apply padded_text_app. split; [exact H | apply padded_text_repeat].
Qed.

Lemma base32_decode_app x y :
  (length x mod 8 = 0)%nat -> padded_text base32_table (x ++ y) ->
  base32_decode (x ++ y) =
  (a <- base32_decode x ;; b <- base32_decode y ;; Ok (a ++ b)).
Proof.
  intros Hlen Hv. pose proof Hv as Hv'. apply padded_text_app in Hv'.
  destruct Hv' as [Hx Hy].
  rewrite !base32_decode_padded by assumption.
  rewrite pad_right_app, (pad_right_multiple 8 x) by (try exact Hlen; lia).
  now apply base32_decode_groups_app.
Qed.

Lemma base32_decode_group_alone group :
  length group = 8%nat -> padded_text base32_table group ->
  exists bytes,
    base32_decode group = Ok bytes /\
    length bytes = (5 - pads_at [2; 4; 5; 6] group)%nat.
Proof.
  intros Hlen Hv.
  rewrite base32_decode_padded, pad_right_multiple by (try exact Hv; try rewrite Hlen; try reflexivity; lia).
  do 8 (destruct group as [|? group]; [discriminate Hlen|]).
  destruct group; [|discriminate Hlen].
  destruct (base32_decode_group_valid _ _ _ _ _ _ _ _ Hv) as [bytes [Hb Hl]].
  exists bytes. split; [|exact Hl].
  cbn [base32_decode_groups]. rewrite Hb. cbn [bind]. now rewrite app_nil_r.
Qed.

Lemma base32_pad_in_group pre group post :
  (length pre mod 8 = 0)%nat -> length group = 8%nat ->
  padded_text base32_table (pre ++ group ++ post) ->
  exists a b c,
    base32_decode pre = Ok a /\
    base32_decode group = Ok b /\
    base32_decode post = Ok c /\
    base32_decode (pre ++ group ++ post) = Ok (a ++ b ++ c) /\
    length b = (5 - pads_at [2; 4; 5; 6] group)%nat.
Proof.
  intros Hpre Hgroup Hv. pose proof Hv as Hv'.
  apply padded_text_app in Hv'. destruct Hv' as [Hvpre Hv'].
  pose proof Hv' as Hv''. apply padded_text_app in Hv''. destruct Hv'' as [Hvg Hvpost].
  destruct (base32_decode_valid pre Hvpre) as [oa [Ha _]].
  destruct (base32_decode_group_alone group Hgroup Hvg) as [b [Hb Hl]].
  destruct (base32_decode_valid post Hvpost) as [oc [Hc _]].
  exists (concat oa), b, (concat oc).
  rewrite base32_decode_app by assumption.
  rewrite (base32_decode_app group post) by (try exact Hv'; rewrite Hgroup; reflexivity).
  rewrite Ha, Hb, Hc. cbn [bind]. repeat split. exact Hl.
Qed.

(** ** Padding and the byte count of a group *)

(** C5: base64_decode and base32_decode work on the text right-padded with
    ['='] to the next multiple of 4 and 8 symbols.  A symbol that is neither
    in the table nor ['='] makes the decoder fail with an invalid-character
    error; otherwise the output is the concatenation, group by group, of
    [3 - p] bytes (Base64, [p] the number of pads at offsets 2 and 3: 3
    bytes without pad, 2 with a pad as fourth symbol, 1 with pads as third
    and fourth symbols) and of [5 - p] bytes (Base32, [p] the number of pads
    at offsets 2, 4, 5, 6). *)
Theorem padded_group_decoding (input : list byte) :
  (forall c0 c1 c2 c3,
     pads_at [2%nat; 3%nat] [c0; c1; c2; c3] =
     (Nat.b2n (Byte.eqb c2 PAD) + Nat.b2n (Byte.eqb c3 PAD))%nat) /\
  (forall c0 c1 c2 c3 c4 c5 c6 c7,
     pads_at [2%nat; 4%nat; 5%nat; 6%nat] [c0; c1; c2; c3; c4; c5; c6; c7] =
     (Nat.b2n (Byte.eqb c2 PAD) + Nat.b2n (Byte.eqb c4 PAD)
      + Nat.b2n (Byte.eqb c5 PAD) + Nat.b2n (Byte.eqb c6 PAD))%nat) /\
  ((length (pad_right 4 input) mod 4 = 0)%nat /\
   (length input <= length (pad_right 4 input) < length input + 4)%nat /\
   ((exists c, In c input /\ c <> PAD /\ ~ In c base64_table) ->
    base64_decode input = Err InvalidCharacterError) /\
   (padded_text base64_table input ->
    exists outs,
      base64_decode input = Ok (concat outs) /\
      Forall2 (fun group bytes =>
                 base64_decode group = Ok bytes /\
                 length bytes = (3 - pads_at [2; 3] group)%nat)
              (chunks 4 (pad_right 4 input)) outs)) /\
  ((length (pad_right 8 input) mod 8 = 0)%nat /\
   (length input <= length (pad_right 8 input) < length input + 8)%nat /\
   ((exists c, In c input /\ c <> PAD /\ ~ In c base32_table) ->
    base32_decode input = Err InvalidCharacterError) /\
   (padded_text base32_table input ->
    exists outs,
      base32_decode input = Ok (concat outs) /\
      Forall2 (fun group bytes =>
                 base32_decode group = Ok bytes /\
                 length bytes = (5 - pads_at [2; 4; 5; 6] group)%nat)
              (chunks 8 (pad_right 8 input)) outs)).
Proof.
  split.
  { intros. unfold pads_at. cbn [filter nth].
    destruct (Byte.eqb c2 PAD), (Byte.eqb c3 PAD); reflexivity. }
  split.
  { intros. unfold pads_at. cbn [filter nth].
    destruct (Byte.eqb c2 PAD), (Byte.eqb c4 PAD), (Byte.eqb c5 PAD),
             (Byte.eqb c6 PAD); reflexivity. }
  split; (split; [apply pad_right_length; lia|]);
    (split; [apply pad_right_length; lia|]); split.
  - apply base64_decode_invalid.
  - apply base64_decode_valid.
  - apply base32_decode_invalid.
  - apply base32_decode_valid.
Qed.

Lemma in_table_all table text :
  forallb (fun c => Byte.eqb c PAD || in_table table c) text = true ->
  padded_text table text.
Proof.
  rewrite forallb_forall. intros H c Hc. specialize (H c Hc).
  apply orb_true_iff in H. destruct H as [H|H].
  - left. now apply byte_eqb_eq.
  - right. now apply in_table_true.
Qed.

Lemma padded_group_decoding_witness :
  base64_decode (cstr "TWF!") = Err InvalidCharacterError /\
  (exists outs,
     base64_decode (cstr "TWFuTQ") = Ok (concat outs) /\
     Forall2 (fun group bytes =>
                base64_decode group = Ok bytes /\
                length bytes = (3 - pads_at [2; 3] group)%nat)
             (chunks 4 (pad_right 4 (cstr "TWFuTQ"))) outs) /\
  base32_decode (cstr "JB1WY3DP") = Err InvalidCharacterError /\
  (exists outs,
     base32_decode (cstr "JBSWY3DPJBSWY") = Ok (concat outs) /\
     Forall2 (fun group bytes =>
                base32_decode group = Ok bytes /\
                length bytes = (5 - pads_at [2; 4; 5; 6] group)%nat)
             (chunks 8 (pad_right 8 (cstr "JBSWY3DPJBSWY"))) outs).
Proof.
  split; [|split; [|split]].
  - apply (proj1 (proj2 (proj2 (proj1 (proj2 (proj2 (padded_group_decoding (cstr "TWF!")))))))).
    exists Byte.x21. split; [vm_compute; tauto|].
    split; [discriminate | apply find_index_absent; reflexivity].
  - apply (proj2 (proj2 (proj2 (proj1 (proj2 (proj2 (padded_group_decoding (cstr "TWFuTQ")))))))).
    apply in_table_all. reflexivity.
  - apply (proj1 (proj2 (proj2 (proj2 (proj2 (proj2 (padded_group_decoding (cstr "JB1WY3DP")))))))).
    exists Byte.x31. split; [vm_compute; tauto|].
    split; [discriminate | apply find_index_absent; reflexivity].
  - apply (proj2 (proj2 (proj2 (proj2 (proj2 (proj2 (padded_group_decoding (cstr "JBSWY3DPJBSWY")))))))).
    apply in_table_all. reflexivity.
Defined.

(** C10: ['='] is accepted in every group, not only in the last one.  When
    all symbols of a text are table symbols or ['='], the text decodes, and
    a group in the middle of it contributes exactly the bytes it gives when
    decoded alone as a final group, with the byte count lowered by the pads
    at the checked offsets; the pad symbol counts as digit 0. *)
Theorem pad_accepted_in_any_group :
  (forall pre group post,
     (length pre mod 4 = 0)%nat -> length group = 4%nat ->
     padded_text base64_table (pre ++ group ++ post) ->
     exists a b c,
       base64_decode pre = Ok a /\
       base64_decode group = Ok b /\
       base64_decode post = Ok c /\
       base64_decode (pre ++ group ++ post) = Ok (a ++ b ++ c) /\
       length b = (3 - pads_at [2; 3] group)%nat) /\
  (forall pre group post,
     (length pre mod 8 = 0)%nat -> length group = 8%nat ->
     padded_text base32_table (pre ++ group ++ post) ->
     exists a b c,
       base32_decode pre = Ok a /\
       base32_decode group = Ok b /\
       base32_decode post = Ok c /\
       base32_decode (pre ++ group ++ post) = Ok (a ++ b ++ c) /\
       length b = (5 - pads_at [2; 4; 5; 6] group)%nat) /\
  group_index base64_table PAD = Ok 0 /\
  group_index base32_table PAD = Ok 0.
Proof.
  split; [exact base64_pad_in_group|].
  split; [exact base32_pad_in_group|].
  split; reflexivity.
Qed.

Lemma pad_accepted_in_any_group_witness :
  (exists a b c,
     base64_decode (cstr "TWFu") = Ok a /\
     base64_decode (cstr "TQ==") = Ok b /\
     base64_decode (cstr "TWFu") = Ok c /\
     base64_decode (cstr "TWFu" ++ cstr "TQ==" ++ cstr "TWFu") = Ok (a ++ b ++ c) /\
     length b = (3 - pads_at [2; 3] (cstr "TQ=="))%nat) /\
  (exists a b c,
     base32_decode (cstr "JBSWY3DP") = Ok a /\
     base32_decode (cstr "JA======") = Ok b /\
     base32_decode (cstr "JBSWY3DP") = Ok c /\
     base32_decode (cstr "JBSWY3DP" ++ cstr "JA======" ++ cstr "JBSWY3DP") = Ok (a ++ b ++ c) /\
     length b = (5 - pads_at [2; 4; 5; 6] (cstr "JA======"))%nat).
Proof.
  split.
  - apply (proj1 pad_accepted_in_any_group); [reflexivity | reflexivity |].
    apply in_table_all. reflexivity.
  - apply (proj1 (proj2 pad_accepted_in_any_group)); [reflexivity | reflexivity |].
    apply in_table_all. reflexivity.
Defined.

(** ** Bit-streams *)

Lemma bits_value_acc bits acc :
  fold_left (fun acc (b : bool) => 2 * acc + Z.b2z b) bits acc =
  acc * 2 ^ Z.of_nat (length bits) + bits_value bits.
Proof.
  unfold bits_value. revert acc. induction bits as [|b bits IH]; intro acc.
  - cbn [fold_left length]. change (2 ^ Z.of_nat 0) with 1. lia.
  - cbn [fold_left length]. rewrite IH, (IH (2 * 0 + Z.b2z b)).
    rewrite Nat2Z.inj_succ, Z.pow_succ_r by lia. lia.
Qed.

Lemma bits_value_app x y :
  bits_value (x ++ y) = bits_value x * 2 ^ Z.of_nat (length y) + bits_value y.
Proof.
  unfold bits_value at 1. rewrite fold_left_app, bits_value_acc. reflexivity.
Qed.

Lemma bits_value_bound bits : 0 <= bits_value bits < 2 ^ Z.of_nat (length bits).
Proof.
  induction bits as [|b bits IH] using rev_ind.
  - cbn. lia.
  - rewrite bits_value_app, length_app. cbn [length].
    rewrite Nat2Z.inj_add, Z.pow_add_r by lia.
    change (2 ^ Z.of_nat 1) with 2. change (bits_value [b]) with (2 * 0 + Z.b2z b).
    destruct b; cbn [Z.b2z]; lia.
Qed.

Lemma byte_bits_length b : length (byte_bits b) = 8%nat.
Proof. reflexivity. Qed.

Lemma byte_bits_value b : bits_value (byte_bits b) = byte.unsigned b.
Proof. destruct b; reflexivity. Qed.

Lemma bit_stream_cons b rest : bit_stream (b :: rest) = byte_bits b ++ bit_stream rest.
Proof. reflexivity. Qed.

Lemma bit_stream_length payload :
  length (bit_stream payload) = (8 * length payload)%nat.
Proof.
  induction payload as [|b rest IH]; [reflexivity|].
  rewrite bit_stream_cons, length_app, byte_bits_length, IH. cbn [length]. lia.
Qed.

(** A list that is long enough starts with a piece of [n] elements. *)
Lemma take_piece {A} (n : nat) (l : list A) :
  (n <= length l)%nat ->
  exists x y, l = x ++ y /\ length x = n /\ length y = (length l - n)%nat.
Proof.
  intro H. exists (firstn n l), (skipn n l).
  rewrite firstn_skipn, length_firstn, length_skipn. repeat split; lia.
Qed.

Lemma chunks_app_full {A} (k : nat) (x y : list A) :
  (0 < k)%nat -> (length x mod k = 0)%nat ->
  chunks k (x ++ y) = chunks k x ++ chunks k y.
Proof.
  intros Hk. remember (length x) as n eqn:Hn. revert x Hn.
  induction n as [n IH] using lt_wf_ind. intros x Hn Hlen.
  destruct (Nat.eq_dec n 0) as [E|E].
  - subst n. destruct x; [reflexivity | cbn [length] in E; lia].
  - assert (Hge : (k <= length x)%nat).
    { rewrite <- Hn. destruct (Nat.lt_ge_cases n k) as [Hlt|Hge]; [|exact Hge].
      rewrite Nat.mod_small in Hlen by exact Hlt. lia. }
    destruct (take_piece k x Hge) as [g [r [-> [Hg Hr]]]].
    rewrite <- app_assoc, (chunks_app k g (r ++ y)), (chunks_app k g r) by assumption.
    cbn [app]. f_equal.
    apply (IH (length r)); [rewrite length_app in Hn; lia | reflexivity |].
    rewrite length_app, Hg in Hn. subst n.
    rewrite <- Nat.Div0.add_mod_idemp_l, Nat.Div0.mod_same in Hlen. exact Hlen.
Qed.

Lemma chunks_length {A} (k : nat) (l : list A) :
  (0 < k)%nat ->
  (length l <= k * length (chunks k l) < length l + k)%nat.
Proof.
  intro Hk. remember (length l) as n eqn:Hn. revert l Hn.
  induction n as [n IH] using lt_wf_ind. intros l Hn.
  destruct (Nat.eq_dec n 0) as [E|E].
  - subst n. destruct l; [cbn; lia | cbn [length] in E; lia].
  - destruct (Nat.lt_ge_cases k n) as [Hlt|Hge].
    + destruct (take_piece k l ltac:(lia)) as [g [r [-> [Hg Hr]]]].
      rewrite chunks_app by assumption. cbn [length].
      rewrite length_app in Hn.
      pose proof (IH (length r) ltac:(lia) r eq_refl). lia.
    + rewrite chunks_short by lia. cbn [length]. lia.
Qed.

(** ** Base64 encoding *)

Lemma lor_disjoint_add a b n :
  0 <= n -> a mod 2 ^ n = 0 -> 0 <= b < 2 ^ n -> Z.lor a b = a + b.
Proof.
  intros Hn Ha Hb.
  assert (E : a = a / 2 ^ n * 2 ^ n).
  { pose proof (Z.div_mod a (2 ^ n) ltac:(lia)). lia. }
  rewrite E at 1. rewrite <- Z.shiftl_mul_pow2 by exact Hn.
  rewrite lor_shiftl_add by assumption. lia.
Qed.

Lemma u32_small z : 0 <= z < 2 ^ 32 -> u32 z = z.
Proof. intro H. unfold u32. now apply Z.mod_small. Qed.

Lemma base64_val_sum b0 b1 b2 :
  0 <= b0 < 256 -> 0 <= b1 < 256 -> 0 <= b2 < 256 ->
  base64_val b0 b1 b2 = b0 * 65536 + b1 * 256 + b2.
Proof.
  intros H0 H1 H2. unfold base64_val.
  rewrite (shiftl_mul b0 16 65536), (shiftl_mul b1 8 256) by lia.
  rewrite (lor_disjoint_add (b0 * 65536) (b1 * 256) 16) by (change (2 ^ 16) with 65536; zlia).
  rewrite (lor_disjoint_add (b0 * 65536 + b1 * 256) b2 8) by (change (2 ^ 8) with 256; zlia).
  apply u32_small. change (2 ^ 32) with 4294967296. lia.
Qed.

Lemma sextet val n k :
  0 <= n -> k = 2 ^ n -> Z.land (Z.shiftr val n) 63 = val / k mod 64.
Proof. intros Hn ->. now rewrite land_63, Z.shiftr_div_pow2. Qed.

(** Splitting a group of bits and its value. *)
Lemma bits_split (n m : nat) (bits : list bool) :
  length bits = (n + m)%nat ->
  exists x y,
    bits = x ++ y /\ length x = n /\ length y = m /\
    bits_value bits = bits_value x * 2 ^ Z.of_nat m + bits_value y /\
    0 <= bits_value x < 2 ^ Z.of_nat n /\
    0 <= bits_value y < 2 ^ Z.of_nat m.
Proof.
  intro H. destruct (take_piece n bits ltac:(lia)) as [x [y [-> [Hx Hy]]]].
  exists x, y. rewrite bits_value_app.
  pose proof (bits_value_bound x) as Bx. pose proof (bits_value_bound y) as By.
  replace m with (length y) by lia. rewrite <- Hx. repeat split; lia.
Qed.

Lemma group_symbol_full table k group :
  length group = k -> group_symbol table k group = tbl table (bits_value group).
Proof.
  intro H. unfold group_symbol. rewrite H, Nat.sub_diag. now rewrite Z.shiftl_0_r.
Qed.

Ltac pow2 :=
  repeat match goal with
  | H : context [2 ^ Z.of_nat ?n] |- _ =>
      let v := eval cbv in (2 ^ Z.of_nat n) in
      change (2 ^ Z.of_nat n) with v in H
  | |- context [2 ^ Z.of_nat ?n] =>
      let v := eval cbv in (2 ^ Z.of_nat n) in
      change (2 ^ Z.of_nat n) with v
  end.

Ltac symbols_eq :=
  repeat match goal with
  | |- _ :: _ = _ :: _ =>
      apply (f_equal2 (@cons byte)); [apply (f_equal (tbl _)); zlia | ]
  | |- _ = _ => reflexivity
  end.

Lemma base64_symbols_3 b0 b1 b2 bits :
  let val := base64_val (byte.unsigned b0) (byte.unsigned b1) (byte.unsigned b2) in
  map (group_symbol base64_table 6)
      (chunks 6 (byte_bits b0 ++ byte_bits b1 ++ byte_bits b2 ++ bits)) =
  [tbl base64_table (Z.land (Z.shiftr val 18) 63);
   tbl base64_table (Z.land (Z.shiftr val 12) 63);
   tbl base64_table (Z.land (Z.shiftr val 6) 63);
   tbl base64_table (Z.land val 63)]
  ++ map (group_symbol base64_table 6) (chunks 6 bits).
Proof.
  intro val. subst val.
  pose proof (unsigned_bound b0) as H0. pose proof (unsigned_bound b1) as H1.
  pose proof (unsigned_bound b2) as H2.
  rewrite base64_val_sum by assumption.
  assert (HV : bits_value (byte_bits b0 ++ byte_bits b1 ++ byte_bits b2) =
               byte.unsigned b0 * 65536 + byte.unsigned b1 * 256 + byte.unsigned b2).
  { rewrite !bits_value_app, !byte_bits_value, !length_app, !byte_bits_length.
    pow2. lia. }
  destruct (bits_split 6 18 (byte_bits b0 ++ byte_bits b1 ++ byte_bits b2) eq_refl)
    as [g0 [r0 [E0 [L0 [M0 [V0 [B0 _]]]]]]].
  destruct (bits_split 6 12 r0 M0) as [g1 [r1 [E1 [L1 [M1 [V1 [B1 _]]]]]]].
  destruct (bits_split 6 6 r1 M1) as [g2 [g3 [E2 [L2 [L3 [V2 [B2 B3]]]]]]].
  replace (byte_bits b0 ++ byte_bits b1 ++ byte_bits b2 ++ bits)
    with ((byte_bits b0 ++ byte_bits b1 ++ byte_bits b2) ++ bits)
    by (now rewrite <- !app_assoc).
  rewrite E0 in *. rewrite E1 in *. rewrite E2 in *. clear E0 E1 E2.
  rewrite <- !app_assoc.
  rewrite (chunks_app 6 g0), (chunks_app 6 g1), (chunks_app 6 g2), (chunks_app 6 g3)
    by (assumption || lia).
  cbn [map app]. rewrite !group_symbol_full by assumption.
  rewrite (sextet _ 18 262144), (sextet _ 12 4096), (sextet _ 6 64) by lia.
  rewrite land_63. pow2.
  symbols_eq.
Qed.

Lemma triple_induction {A} (P : list A -> Prop) :
  P [] -> (forall a, P [a]) -> (forall a b, P [a; b]) ->
  (forall a b c l, P l -> P (a :: b :: c :: l)) ->
  forall l, P l.
Proof.
  intros H0 H1 H2 H3 l.
  remember (length l) as n eqn:Hn. revert l Hn.
  induction n as [n IH] using lt_wf_ind. intros l Hn.
  destruct l as [|a [|b [|c l]]]; auto.
  apply H3. apply (IH (length l)); [subst n; cbn [length]; lia | reflexivity].
Qed.

Lemma base64_symbols_1 b0 :
  let val := base64_val (byte.unsigned b0) 0 0 in
  map (group_symbol base64_table 6) (chunks 6 (byte_bits b0)) =
  [tbl base64_table (Z.land (Z.shiftr val 18) 63);
   tbl base64_table (Z.land (Z.shiftr val 12) 63)].
Proof.
  intro val. subst val.
  pose proof (unsigned_bound b0) as H0.
  rewrite base64_val_sum by lia.
  pose proof (byte_bits_value b0) as HV.
  destruct (bits_split 6 2 (byte_bits b0) eq_refl)
    as [g0 [g1 [E0 [L0 [L1 [V0 [B0 B1]]]]]]].
  rewrite E0 in *. clear E0.
  rewrite (chunks_app 6 g0), (chunks_short 6 g1) by (assumption || lia).
  cbn [map]. rewrite group_symbol_full by assumption.
  unfold group_symbol. rewrite L1. change (Z.of_nat (6 - 2)) with 4.
  rewrite (shiftl_mul _ 4 16) by lia.
  rewrite (sextet _ 18 262144), (sextet _ 12 4096) by lia. pow2.
  symbols_eq.
Qed.

Lemma base64_symbols_2 b0 b1 :
  let val := base64_val (byte.unsigned b0) (byte.unsigned b1) 0 in
  map (group_symbol base64_table 6) (chunks 6 (byte_bits b0 ++ byte_bits b1)) =
  [tbl base64_table (Z.land (Z.shiftr val 18) 63);
   tbl base64_table (Z.land (Z.shiftr val 12) 63);
   tbl base64_table (Z.land (Z.shiftr val 6) 63)].
Proof.
  intro val. subst val.
  pose proof (unsigned_bound b0) as H0. pose proof (unsigned_bound b1) as H1.
  rewrite base64_val_sum by lia.
  assert (HV : bits_value (byte_bits b0 ++ byte_bits b1) =
               byte.unsigned b0 * 256 + byte.unsigned b1).
  { rewrite !bits_value_app, !byte_bits_value, !byte_bits_length. pow2. lia. }
  destruct (bits_split 6 10 (byte_bits b0 ++ byte_bits b1) eq_refl)
    as [g0 [r0 [E0 [L0 [M0 [V0 [B0 _]]]]]]].
  destruct (bits_split 6 4 r0 M0) as [g1 [g2 [E1 [L1 [L2 [V1 [B1 B2]]]]]]].
  rewrite E0 in *. rewrite E1 in *. clear E0 E1.
  rewrite (chunks_app 6 g0), (chunks_app 6 g1), (chunks_short 6 g2) by (assumption || lia).
  cbn [map]. rewrite !group_symbol_full by assumption.
  unfold group_symbol. rewrite L2. change (Z.of_nat (6 - 4)) with 2.
  rewrite (shiftl_mul _ 2 4) by lia.
  rewrite (sextet _ 18 262144), (sextet _ 12 4096), (sextet _ 6 64) by lia. pow2.
  symbols_eq.
Qed.

Lemma base64_encode_stream payload :
  base64_encode payload = pad_right 4 (stream_symbols base64_table 6 payload).
Proof.
  induction payload as [|b0|b0 b1|b0 b1 b2 rest IH] using triple_induction.
  - reflexivity.
  - unfold stream_symbols. cbn [bit_stream flat_map]. rewrite app_nil_r.
    rewrite base64_symbols_1. reflexivity.
  - unfold stream_symbols. cbn [bit_stream flat_map]. rewrite app_nil_r.
    rewrite base64_symbols_2. reflexivity.
  - unfold stream_symbols in *. cbn [bit_stream flat_map]. rewrite <- ?app_assoc.
    fold (bit_stream rest). rewrite base64_symbols_3. rewrite pad_right_app by (cbn [length]; lia || reflexivity).
    cbn [base64_encode app]. now rewrite IH.
Qed.

(** The pieces of [chunks] are not empty and hold at most [k] elements. *)
Lemma chunks_pieces {A} (k : nat) (l : list A) :
  (0 < k)%nat -> Forall (fun g => (0 < length g <= k)%nat) (chunks k l).
Proof.
  intro Hk. remember (length l) as n eqn:Hn. revert l Hn.
  induction n as [n IH] using lt_wf_ind. intros l Hn.
  destruct (Nat.eq_dec n 0) as [E|E].
  - subst n. destruct l; [constructor | cbn [length] in E; lia].
  - destruct (Nat.lt_ge_cases k n) as [Hlt|Hge].
    + destruct (take_piece k l ltac:(lia)) as [g [r [-> [Hg Hr]]]].
      rewrite chunks_app by assumption. constructor; [lia|].
      rewrite length_app in Hn.
      apply (IH (length r)); [lia | reflexivity].
    + rewrite chunks_short by lia. constructor; [lia | constructor].
Qed.

Lemma group_symbol_in_table table (k : nat) group :
  Z.of_nat (length table) = 2 ^ Z.of_nat k -> (length group <= k)%nat ->
  In (group_symbol table k group) table.
Proof.
  intros Ht Hg. unfold group_symbol. apply tbl_in.
  rewrite Z.shiftl_mul_pow2 by lia. rewrite Ht.
  pose proof (bits_value_bound group) as B.
  replace (Z.of_nat k) with (Z.of_nat (length group) + Z.of_nat (k - length group)) by lia.
  rewrite Z.pow_add_r by lia.
  assert (0 < 2 ^ Z.of_nat (k - length group)) by (apply Z.pow_pos_nonneg; lia).
  nia.
Qed.

Lemma stream_symbols_in_table table (k : nat) payload :
  (0 < k)%nat -> Z.of_nat (length table) = 2 ^ Z.of_nat k ->
  Forall (fun c => In c table) (stream_symbols table k payload).
Proof.
  intros Hk Ht. unfold stream_symbols. apply Forall_map.
  eapply Forall_impl; [|apply chunks_pieces; exact Hk].
  intros g Hg. cbv beta in Hg. apply group_symbol_in_table; [exact Ht | lia].
Qed.

Lemma stream_symbols_length table (k : nat) payload :
  (0 < k)%nat ->
  (8 * length payload <= k * length (stream_symbols table k payload)
   < 8 * length payload + k)%nat.
Proof.
  intro Hk. unfold stream_symbols. rewrite length_map.
  rewrite <- bit_stream_length. now apply chunks_length.
Qed.

Lemma stream_symbols_no_PAD table (k : nat) payload :
  (0 < k)%nat -> Z.of_nat (length table) = 2 ^ Z.of_nat k -> ~ In PAD table ->
  ~ In PAD (stream_symbols table k payload).
Proof.
  intros Hk Ht Hp Hin.
  pose proof (stream_symbols_in_table table k payload Hk Ht) as H.
  rewrite Forall_forall in H. apply Hp. now apply H.
Qed.

(** C6: base64_encode consumes the payload as a bit-stream, six bits per
    symbol, and fills the last group of four symbols with ['=']: the output
    has [4 * ceil(n / 3)] symbols, the symbols of the bit-stream hold no
    ['='], and one ['='] follows them for each byte missing from the last
    group of three.  "Man" encodes to "TWFu". *)
Theorem base64_encode_spec (payload : list byte) :
  base64_encode payload = pad_right 4 (stream_symbols base64_table 6 payload) /\
  Z.of_nat (length (base64_encode payload)) =
    4 * ((Z.of_nat (length payload) + 2) / 3) /\
  ~ In PAD (stream_symbols base64_table 6 payload) /\
  base64_encode payload =
    stream_symbols base64_table 6 payload
    ++ repeat PAD ((3 - length payload mod 3) mod 3) /\
  base64_encode (cstr "Man") = cstr "TWFu".
Proof.
  pose proof (stream_symbols_length base64_table 6 payload ltac:(lia)) as HL.
  assert (Hpads : ((4 - length (stream_symbols base64_table 6 payload) mod 4) mod 4
                   = (3 - length payload mod 3) mod 3)%nat) by nlia.
  split; [apply base64_encode_stream|].
  split; [|split; [|split; [|reflexivity]]].
  - rewrite base64_encode_stream. unfold pad_right.
    rewrite length_app, repeat_length, Hpads. nlia.
  - apply stream_symbols_no_PAD; [lia | reflexivity | exact PAD_not_in_base64].
  - rewrite base64_encode_stream. unfold pad_right. now rewrite Hpads.
Qed.

(** ** Base32 encoding *)

Lemma split_mod val M G P :
  0 < M -> val mod (32 * M) = G * M + P -> 0 <= P < M -> 0 <= G < 32 ->
  (val / M) mod 32 = G /\ val mod M = P.
Proof.
  intros HM H HP HG.
  pose proof (Z.div_mod val (32 * M) ltac:(lia)) as E. rewrite H in E.
  assert (Hq : val / M = 32 * (val / (32 * M)) + G).
  { symmetry. apply (Z.div_unique val M _ P); [lia|]. rewrite E at 1. ring. }
  assert (Hr : val mod M = P).
  { symmetry. apply (Z.mod_unique val M (32 * (val / (32 * M)) + G) P); [lia|].
    rewrite E at 1. ring. }
  split; [|exact Hr]. rewrite Hq. zlia.
Qed.

Lemma quintet val n : 0 <= n -> Z.land (Z.shiftr val n) 31 = (val / 2 ^ n) mod 32.
Proof. intro Hn. now rewrite land_31, Z.shiftr_div_pow2. Qed.

Lemma base32_drain_spec fuel val bit_count pending :
  pending_ok val bit_count pending ->
  bit_count <= 5 * Z.of_nat fuel + 4 ->
  exists full left,
    pending = full ++ left /\
    (length full mod 5 = 0)%nat /\ (length left < 5)%nat /\
    base32_drain fuel val bit_count =
      (map (group_symbol base32_table 5) (chunks 5 full), Z.of_nat (length left)) /\
    pending_ok val (Z.of_nat (length left)) left.
Proof.
  revert bit_count pending.
  induction fuel as [|fuel IH]; intros bc pend [Hlen Hval] Hfuel.
  - exists [], pend. cbn [base32_drain app length].
    split; [reflexivity|]. split; [reflexivity|]. split; [lia|].
    split; [now rewrite Hlen|]. split; [reflexivity | now rewrite Hlen].
  - cbn [base32_drain]. destruct (5 <=? bc) eqn:E.
    + apply Z.leb_le in E.
      destruct (bits_split 5 (length pend - 5) pend ltac:(lia))
        as [g [pend' [-> [Lg [Lp [V [Bg Bp]]]]]]].
      assert (Hpow : 2 ^ bc = 32 * 2 ^ (bc - 5)).
      { replace bc with (5 + (bc - 5)) at 1 by lia. now rewrite Z.pow_add_r by lia. }
      assert (Hp : Z.of_nat (length pend') = bc - 5).
      { rewrite length_app in Hlen. lia. }
      rewrite Lp, <- Lp, Hp in *. pow2.
      rewrite Hpow, V in Hval.
      destruct (split_mod val (2 ^ (bc - 5)) (bits_value g) (bits_value pend'))
        as [Hsym Hrest]; try assumption; try lia.
      destruct (IH (bc - 5) pend') as [full [left [-> [Hf [Hl [Hd Hok]]]]]];
        [split; assumption | lia |].
      exists (g ++ full), left. rewrite Hd.
      split; [now rewrite app_assoc|].
      split; [rewrite length_app, Lg, <- Nat.Div0.add_mod_idemp_l; exact Hf|].
      split; [exact Hl|].
      split; [|exact Hok].
      rewrite chunks_app by (assumption || lia).
      cbn [map]. rewrite group_symbol_full by exact Lg.
      rewrite quintet by lia. now rewrite Hsym.
    + apply Z.leb_gt in E. exists [], pend. cbn [app length].
      split; [reflexivity|]. split; [reflexivity|]. split; [lia|].
      split; [now rewrite Hlen|]. split; [reflexivity | now rewrite Hlen].
Qed.

Lemma base32_push val bit_count pending b :
  pending_ok val bit_count pending -> 0 <= bit_count < 5 ->
  pending_ok (Z.lor (u32 (Z.shiftl val 8)) (byte.unsigned b)) (bit_count + 8)
             (pending ++ byte_bits b).
Proof.
  intros [Hlen Hval] Hbc. pose proof (unsigned_bound b) as Hb.
  split.
  - rewrite length_app, byte_bits_length. lia.
  - rewrite bits_value_app, byte_bits_value, byte_bits_length, <- Hval.
    unfold u32. rewrite (shiftl_mul val 8 256) by lia.
    rewrite (lor_disjoint_add _ _ 8) by (change (2 ^ 8) with 256; change (2 ^ 32) with 4294967296; zlia).
    change (2 ^ 32) with 4294967296. pow2.
    assert (C : bit_count = 0 \/ bit_count = 1 \/ bit_count = 2 \/ bit_count = 3 \/ bit_count = 4) by lia.
    destruct C as [->|[->|[->|[->| ->]]]];
      match goal with |- context [2 ^ ?n] =>
        let v := eval cbv in (2 ^ n) in change (2 ^ n) with v end;
      cbn [Z.add Pos.add Pos.succ];
      match goal with |- context [2 ^ ?n] =>
        let v := eval cbv in (2 ^ n) in change (2 ^ n) with v end;
      zlia.
Qed.

Lemma base32_last val bit_count pending :
  pending_ok val bit_count pending -> 0 < bit_count < 5 ->
  Z.land (u32 (Z.shiftl val (5 - bit_count))) 31 =
  Z.shiftl (bits_value pending) (Z.of_nat (5 - length pending)).
Proof.
  intros [Hlen Hval] Hbc. rewrite <- Hval, land_31. unfold u32.
  replace (Z.of_nat (5 - length pending)) with (5 - bit_count) by lia.
  change (2 ^ 32) with 4294967296.
  assert (C : bit_count = 1 \/ bit_count = 2 \/ bit_count = 3 \/ bit_count = 4) by lia.
  destruct C as [->|[->|[->| ->]]];
    match goal with |- context [Z.shiftl _ ?n] =>
      let v := eval cbv in (2 ^ n) in rewrite !(shiftl_mul _ n v) by (cbv; intuition congruence)
    end;
    match goal with |- context [2 ^ ?n] =>
      let v := eval cbv in (2 ^ n) in change (2 ^ n) with v end;
    zlia.
Qed.

Lemma base32_encode_loop_stream input :
  forall val bit_count pending,
    pending_ok val bit_count pending -> 0 <= bit_count < 5 ->
    base32_encode_loop input val bit_count =
    map (group_symbol base32_table 5) (chunks 5 (pending ++ bit_stream input)).
Proof.
  induction input as [|b rest IH]; intros val bc pend Hok Hbc.
  - cbn [base32_encode_loop bit_stream flat_map]. rewrite app_nil_r.
    destruct Hok as [Hlen Hval].
    destruct (0 <? bc) eqn:E.
    + apply Z.ltb_lt in E. rewrite chunks_short by lia. cbn [map].
      unfold group_symbol. f_equal. f_equal.
      apply base32_last; [split; assumption | lia].
    + apply Z.ltb_ge in E. destruct pend; [reflexivity | cbn [length] in Hlen; lia].
  - cbn [base32_encode_loop]. rewrite bit_stream_cons.
    pose proof (base32_push val bc pend b Hok Hbc) as Hpush.
    destruct (base32_drain_spec (Z.to_nat (bc + 8)) _ _ _ Hpush ltac:(lia))
      as [full [left [E [Hf [Hl [Hd Hok']]]]]].
    rewrite Hd. rewrite (IH _ _ left Hok') by lia.
    rewrite app_assoc, E, <- app_assoc.
    rewrite (chunks_app_full 5 full) by (assumption || lia).
    now rewrite map_app.
Qed.

Lemma base32_encode_stream payload :
  base32_encode payload = stream_symbols base32_table 5 payload.
Proof.
  unfold base32_encode, stream_symbols.
  apply (base32_encode_loop_stream payload 0 0 []); [split; reflexivity | lia].
Qed.

(** C7: base32_encode consumes the payload as a bit-stream, five bits per
    symbol, most significant bit first and across byte boundaries; a short
    last group is left-shifted, zero-filled, to one symbol.  The output has
    [ceil(8n/5)] symbols, none of them ['='].  "Hello" encodes to
    "JBSWY3DP". *)
Theorem base32_encode_spec (payload : list byte) :
  base32_encode payload = stream_symbols base32_table 5 payload /\
  Z.of_nat (length (base32_encode payload)) =
    (8 * Z.of_nat (length payload) + 4) / 5 /\
  ~ In PAD (base32_encode payload) /\
  base32_encode (cstr "Hello") = cstr "JBSWY3DP".
Proof.
  split; [apply base32_encode_stream|].
  split; [|split; [|reflexivity]].
  - rewrite base32_encode_stream.
    pose proof (stream_symbols_length base32_table 5 payload ltac:(lia)). nlia.
  - rewrite base32_encode_stream.
    apply stream_symbols_no_PAD; [lia | reflexivity | exact PAD_not_in_base32].
Qed.

(** ** Round trips: Base16 *)

Lemma base16_encode_length payload :
  length (base16_encode payload) = (2 * length payload)%nat.
Proof.
  induction payload as [|b rest IH]; [reflexivity|].
  cbn [base16_encode length]. rewrite IH. lia.
Qed.

Lemma base16_roundtrip payload :
  base16_decode (base16_encode payload) = Ok payload.
Proof.
  unfold base16_decode. rewrite base16_encode_length.
  replace (Z.of_nat (2 * length payload) mod 2 =? 0) with true by (symmetry; apply Z.eqb_eq; nlia).
  induction payload as [|b rest IH]; [reflexivity|].
  cbn [base16_encode base16_decode_loop]. change base16_chars with base16_table.
  pose proof (unsigned_bound b) as Hb.
  rewrite land_15, (shiftr_div _ 4 16), land_15 by lia.
  rewrite !base16_index by zlia.
  set (hi := (byte.unsigned b / 16) mod 16). set (lo := byte.unsigned b mod 16).
  replace (hi =? -1) with false by (subst hi; symmetry; apply Z.eqb_neq; zlia).
  replace (lo =? -1) with false by (subst lo; symmetry; apply Z.eqb_neq; zlia).
  cbn [orb]. rewrite IH. cbn [bind].
  rewrite (lor_shiftl_add hi lo 4) by (subst lo; change (2 ^ 4) with 16; zlia).
  replace (hi * 2 ^ 4 + lo) with (byte.unsigned b) by (subst hi lo; change (2 ^ 4) with 16; zlia).
  now rewrite byte.of_Z_unsigned.
Qed.

(** ** Round trips: Base85 *)

Lemma base85_pack_4 b0 b1 b2 b3 :
  base85_pack [b0; b1; b2; b3] =
  ((byte.unsigned b0 * 256 + byte.unsigned b1) * 256 + byte.unsigned b2) * 256
  + byte.unsigned b3.
Proof.
  pose proof (unsigned_bound b0) as H0. pose proof (unsigned_bound b1) as H1.
  pose proof (unsigned_bound b2) as H2. pose proof (unsigned_bound b3) as H3.
  unfold base85_pack. cbn [length Nat.sub repeat fold_left].
  rewrite Z.shiftl_0_l. change (u32 0) with 0. rewrite Z.lor_0_l.
  set (u0 := byte.unsigned b0) in *. set (u1 := byte.unsigned b1) in *.
  set (u2 := byte.unsigned b2) in *. set (u3 := byte.unsigned b3) in *.
  rewrite (shiftl_mul u0 8 256) by lia.
  rewrite (u32_small (u0 * 256)) by (change (2 ^ 32) with 4294967296; lia).
  rewrite (lor_disjoint_add (u0 * 256) u1 8) by (change (2 ^ 8) with 256; zlia).
  rewrite (shiftl_mul (u0 * 256 + u1) 8 256) by lia.
  rewrite (u32_small ((u0 * 256 + u1) * 256)) by (change (2 ^ 32) with 4294967296; lia).
  rewrite (lor_disjoint_add ((u0 * 256 + u1) * 256) u2 8) by (change (2 ^ 8) with 256; zlia).
  rewrite (shiftl_mul ((u0 * 256 + u1) * 256 + u2) 8 256) by lia.
  rewrite (u32_small (((u0 * 256 + u1) * 256 + u2) * 256)) by (change (2 ^ 32) with 4294967296; lia).
  rewrite (lor_disjoint_add (((u0 * 256 + u1) * 256 + u2) * 256) u3 8) by (change (2 ^ 8) with 256; zlia).
  reflexivity.
Qed.

Lemma base85_table_no_space : forallb (fun c => negb (is_space c)) base85_table = true.
Proof. reflexivity. Qed.

Lemma base85_symbol_kept i :
  0 <= i < 85 -> negb (is_space (tbl base85_table i)) = true.
Proof.
  intro H. pose proof base85_table_no_space as T.
  rewrite forallb_forall in T. apply T, tbl_in. cbn. lia.
Qed.

Lemma base85_symbol_not_NUL i : 0 <= i < 85 -> tbl base85_table i <> NUL.
Proof.
  intros H E. assert (Hin : In NUL base85_table) by (rewrite <- E; apply tbl_in; cbn; lia).
  apply find_index_present in Hin. now apply Hin.
Qed.

Lemma base85_value_symbol i rest value :
  0 <= i < 85 ->
  base85_value (tbl base85_table i :: rest) value =
  base85_value rest (ulong (value * 85 + i)).
Proof.
  intro H. rewrite base85_value_step.
  - rewrite base85_index by lia. reflexivity.
  - now apply base85_symbol_not_NUL.
  - apply tbl_in. cbn. lia.
Qed.

Lemma base85_block_roundtrip b0 b1 b2 b3 rest :
  base85_decode_blocks (base85_encode_block [b0; b1; b2; b3] ++ rest) =
  (out <- base85_decode_blocks rest ;; Ok ([b0; b1; b2; b3] ++ out)).
Proof.
  pose proof (unsigned_bound b0) as H0. pose proof (unsigned_bound b1) as H1.
  pose proof (unsigned_bound b2) as H2. pose proof (unsigned_bound b3) as H3.
  unfold base85_encode_block. rewrite base85_pack_4.
  set (V := ((byte.unsigned b0 * 256 + byte.unsigned b1) * 256 + byte.unsigned b2) * 256
            + byte.unsigned b3).
  assert (HV : 0 <= V < 4294967296) by (subst V; lia).
  cbn [base85_digits app base85_decode_blocks].
  rewrite !base85_value_symbol by zlia.
  cbn [base85_value]. change (2 ^ 64) with 18446744073709551616 in *.
  set (d4 := V mod 85). set (d3 := V / 85 mod 85). set (d2 := V / 85 / 85 mod 85).
  set (d1 := V / 85 / 85 / 85 mod 85). set (d0 := V / 85 / 85 / 85 / 85 mod 85).
  assert (HD : 0 <= d0 < 85 /\ 0 <= d1 < 85 /\ 0 <= d2 < 85 /\ 0 <= d3 < 85 /\ 0 <= d4 < 85)
    by (subst d0 d1 d2 d3 d4; repeat split; zlia).
  rewrite (ulong_small (0 * 85 + d0)) by (change (2 ^ 64) with 18446744073709551616; lia).
  rewrite (ulong_small ((0 * 85 + d0) * 85 + d1)) by (change (2 ^ 64) with 18446744073709551616; lia).
  rewrite (ulong_small (((0 * 85 + d0) * 85 + d1) * 85 + d2)) by (change (2 ^ 64) with 18446744073709551616; lia).
  rewrite (ulong_small ((((0 * 85 + d0) * 85 + d1) * 85 + d2) * 85 + d3)) by (change (2 ^ 64) with 18446744073709551616; lia).
  rewrite (ulong_small (((((0 * 85 + d0) * 85 + d1) * 85 + d2) * 85 + d3) * 85 + d4)) by (change (2 ^ 64) with 18446744073709551616; lia).
  replace (((((0 * 85 + d0) * 85 + d1) * 85 + d2) * 85 + d3) * 85 + d4) with V
    by (subst d0 d1 d2 d3 d4; zlia).
  cbn [bind]. destruct (base85_decode_blocks rest) as [out|e]; cbn [bind]; [|reflexivity].
  do 2 f_equal. unfold base85_unpack.
  rewrite !land_255, (shiftr_div V 24 16777216), (shiftr_div V 16 65536),
          (shiftr_div V 8 256) by lia.
  rewrite <- (byte.of_Z_unsigned b0), <- (byte.of_Z_unsigned b1),
          <- (byte.of_Z_unsigned b2), <- (byte.of_Z_unsigned b3).
  cbn [app]. repeat (apply (f_equal2 (@cons byte)); [f_equal; subst V; zlia|]).
  reflexivity.
Qed.

Lemma filter_all {A} (f : A -> bool) (l : list A) :
  Forall (fun x => f x = true) l -> filter f l = l.
Proof.
  induction 1 as [|x l Hx _ IH]; [reflexivity|].
  cbn [filter]. now rewrite Hx, IH.
Qed.

Lemma base85_encode_block_kept b0 b1 b2 b3 :
  Forall (fun c => negb (is_space c) = true) (base85_encode_block [b0; b1; b2; b3]) /\
  length (base85_encode_block [b0; b1; b2; b3]) = 5%nat.
Proof.
  unfold base85_encode_block. cbn [base85_digits]. split; [|reflexivity].
  repeat constructor; apply base85_symbol_kept; zlia.
Qed.

Lemma base85_encode_cons4 b0 b1 b2 b3 rest :
  base85_encode (b0 :: b1 :: b2 :: b3 :: rest) =
  base85_encode_block [b0; b1; b2; b3] ++ base85_encode rest.
Proof. reflexivity. Qed.

Lemma base85_encode_kept payload :
  (length payload mod 4 = 0)%nat ->
  Forall (fun c => negb (is_space c) = true) (base85_encode payload) /\
  length (base85_encode payload) = (5 * (length payload / 4))%nat.
Proof.
  intro Hlen. by_groups4 payload Hlen.
  - split; [constructor | reflexivity].
  - destruct IH as [IH1 IH2].
    destruct (base85_encode_block_kept c0 c1 c2 c3) as [B1 B2].
    rewrite base85_encode_cons4. split.
    + apply Forall_app. now split.
    + rewrite length_app, B2, IH2. cbn [length]. nlia.
Qed.

Lemma base85_blocks_roundtrip payload :
  (length payload mod 4 = 0)%nat ->
  base85_decode_blocks (base85_encode payload) = Ok payload.
Proof.
  intro Hlen. by_groups4 payload Hlen; [reflexivity|].
  rewrite base85_encode_cons4, base85_block_roundtrip, IH. reflexivity.
Qed.

Lemma base85_roundtrip payload :
  payload <> [] -> (length payload mod 4 = 0)%nat ->
  base85_decode (base85_encode payload) = Ok payload.
Proof.
  intros Hne Hlen. destruct (base85_encode_kept payload Hlen) as [Hk Hl].
  unfold base85_decode, cleaned_input. rewrite (filter_all _ _ Hk), Hl.
  destruct payload as [|b0 [|b1 [|b2 [|b3 rest]]]]; try contradiction; try discriminate Hlen.
  replace (5 * (length (b0 :: b1 :: b2 :: b3 :: rest) / 4) =? 0)%nat with false
    by (symmetry; apply Nat.eqb_neq; cbn [length]; nlia).
  replace (Z.of_nat (5 * (length (b0 :: b1 :: b2 :: b3 :: rest) / 4)) mod 5 =? 0) with true
    by (symmetry; apply Z.eqb_eq; nlia).
  now apply base85_blocks_roundtrip.
Qed.

(** ** Round trips: Base64 *)

Lemma group_value_4 q0 q1 q2 q3 :
  0 <= q0 < 64 -> 0 <= q1 < 64 -> 0 <= q2 < 64 -> 0 <= q3 < 64 ->
  group_value 6 18 [q0; q1; q2; q3] 0 = ((q0 * 64 + q1) * 64 + q2) * 64 + q3.
Proof.
  intros H0 H1 H2 H3. cbn [group_value].
  change (18 - 6) with 12. change (12 - 6) with 6. change (6 - 6) with 0.
  rewrite Z.lor_0_l, Z.shiftl_0_r.
  rewrite (shiftl_mul q0 18 262144), (shiftl_mul q1 12 4096), (shiftl_mul q2 6 64) by lia.
  rewrite (lor_disjoint_add (q0 * 262144) (q1 * 4096) 18) by (change (2 ^ 18) with 262144; zlia).
  rewrite (lor_disjoint_add (q0 * 262144 + q1 * 4096) (q2 * 64) 12) by (change (2 ^ 12) with 4096; zlia).
  rewrite (lor_disjoint_add (q0 * 262144 + q1 * 4096 + q2 * 64) q3 6) by (change (2 ^ 6) with 64; zlia).
  lia.
Qed.

Lemma base64_symbol_not_PAD q : 0 <= q < 64 -> tbl base64_table q <> PAD.
Proof.
  intros H E. apply PAD_not_in_base64. rewrite <- E. apply tbl_in. cbn. lia.
Qed.

Lemma group_index_base64 q :
  0 <= q < 64 -> group_index base64_table (tbl base64_table q) = Ok q.
Proof.
  intro H. rewrite group_index_symbol.
  - now rewrite base64_index.
  - now apply base64_symbol_not_PAD.
  - apply tbl_in. cbn. lia.
Qed.

Lemma not_pad_base64 q : 0 <= q < 64 -> not_pad (tbl base64_table q) = true.
Proof.
  intro H. unfold not_pad. apply negb_true_iff, byte_eqb_neq.
  now apply base64_symbol_not_PAD.
Qed.

Lemma byte_of_parts (b : byte) z : z = byte.unsigned b -> byte.of_Z z = b.
Proof. intros ->. apply byte.of_Z_unsigned. Qed.

Ltac sextets :=
  rewrite ?(sextet _ 18 262144), ?(sextet _ 12 4096), ?(sextet _ 6 64), ?land_63 by lia.

Ltac octets :=
  rewrite ?land_255, ?(shiftr_div _ 32 4294967296), ?(shiftr_div _ 24 16777216),
          ?(shiftr_div _ 16 65536), ?(shiftr_div _ 8 256) by lia.

Lemma base64_group_roundtrip_3 b0 b1 b2 :
  let val := base64_val (byte.unsigned b0) (byte.unsigned b1) (byte.unsigned b2) in
  base64_decode_group
    (tbl base64_table (Z.land (Z.shiftr val 18) 63))
    (tbl base64_table (Z.land (Z.shiftr val 12) 63))
    (tbl base64_table (Z.land (Z.shiftr val 6) 63))
    (tbl base64_table (Z.land val 63)) = Ok [b0; b1; b2].
Proof.
  intro val. subst val.
  pose proof (unsigned_bound b0) as H0. pose proof (unsigned_bound b1) as H1.
  pose proof (unsigned_bound b2) as H2.
  rewrite base64_val_sum by assumption. sextets.
  set (V := byte.unsigned b0 * 65536 + byte.unsigned b1 * 256 + byte.unsigned b2).
  assert (HV : 0 <= V < 16777216) by (subst V; lia).
  unfold base64_decode_group. cbn [group_indices].
  rewrite !group_index_base64 by zlia. cbn [bind].
  rewrite group_value_4 by zlia.
  rewrite !not_pad_base64 by zlia. cbn [emit_if app].
  rewrite u32_small by (change (2 ^ 32) with 4294967296; zlia).
  octets. do 2 f_equal; [|f_equal; [|f_equal]]; apply byte_of_parts; subst V; zlia.
Qed.

Lemma base64_group_roundtrip_2 b0 b1 :
  let val := base64_val (byte.unsigned b0) (byte.unsigned b1) 0 in
  base64_decode_group
    (tbl base64_table (Z.land (Z.shiftr val 18) 63))
    (tbl base64_table (Z.land (Z.shiftr val 12) 63))
    (tbl base64_table (Z.land (Z.shiftr val 6) 63))
    PAD = Ok [b0; b1].
Proof.
  intro val. subst val.
  pose proof (unsigned_bound b0) as H0. pose proof (unsigned_bound b1) as H1.
  rewrite base64_val_sum by lia. sextets.
  set (V := byte.unsigned b0 * 65536 + byte.unsigned b1 * 256 + 0).
  assert (HV : 0 <= V < 16777216) by (subst V; lia).
  unfold base64_decode_group. cbn [group_indices].
  rewrite !group_index_base64 by zlia. rewrite group_index_PAD. cbn [bind].
  rewrite group_value_4 by zlia.
  rewrite !not_pad_base64 by zlia. cbn [emit_if app].
  change (not_pad PAD) with false. cbn [emit_if].
  rewrite u32_small by (change (2 ^ 32) with 4294967296; zlia).
  octets. do 2 f_equal; [|f_equal]; apply byte_of_parts; subst V; zlia.
Qed.

Lemma base64_group_roundtrip_1 b0 :
  let val := base64_val (byte.unsigned b0) 0 0 in
  base64_decode_group
    (tbl base64_table (Z.land (Z.shiftr val 18) 63))
    (tbl base64_table (Z.land (Z.shiftr val 12) 63))
    PAD PAD = Ok [b0].
Proof.
  intro val. subst val.
  pose proof (unsigned_bound b0) as H0.
  rewrite base64_val_sum by lia. sextets.
  set (V := byte.unsigned b0 * 65536 + 0 * 256 + 0).
  assert (HV : 0 <= V < 16777216) by (subst V; lia).
  unfold base64_decode_group. cbn [group_indices].
  rewrite !group_index_base64 by zlia. rewrite !group_index_PAD. cbn [bind].
  rewrite group_value_4 by zlia.
  change (not_pad PAD) with false. cbn [emit_if app].
  rewrite u32_small by (change (2 ^ 32) with 4294967296; zlia).
  octets. do 2 f_equal. apply byte_of_parts; subst V; zlia.
Qed.

Lemma base64_encode_padded_text payload :
  padded_text base64_table (base64_encode payload).
Proof.
  rewrite base64_encode_stream. unfold pad_right.
  apply padded_text_app. split; [|apply padded_text_repeat].
  intros c Hc. right.
  pose proof (stream_symbols_in_table base64_table 6 payload ltac:(lia) eq_refl) as H.
  rewrite Forall_forall in H. now apply H.
Qed.

Lemma base64_decode_one_group c0 c1 c2 c3 :
  padded_text base64_table [c0; c1; c2; c3] ->
  base64_decode [c0; c1; c2; c3] = base64_decode_group c0 c1 c2 c3.
Proof.
  intro H. rewrite base64_decode_padded, pad_right_multiple by (try exact H; cbn [length]; lia).
  cbn [base64_decode_groups].
  destruct (base64_decode_group c0 c1 c2 c3); cbn [bind]; [|reflexivity].
  now rewrite app_nil_r.
Qed.

Lemma base64_roundtrip payload :
  base64_decode (base64_encode payload) = Ok payload.
Proof.
  induction payload as [|b0|b0 b1|b0 b1 b2 rest IH] using triple_induction.
  - reflexivity.
  - pose proof (base64_encode_padded_text [b0]) as Hp.
    cbn [base64_encode] in *. rewrite base64_decode_one_group by exact Hp.
    apply base64_group_roundtrip_1.
  - pose proof (base64_encode_padded_text [b0; b1]) as Hp.
    cbn [base64_encode] in *. rewrite base64_decode_one_group by exact Hp.
    apply base64_group_roundtrip_2.
  - pose proof (base64_encode_padded_text (b0 :: b1 :: b2 :: rest)) as Hp.
    cbn [base64_encode] in *.
    match goal with
    | |- base64_decode (?s0 :: ?s1 :: ?s2 :: ?s3 :: ?r) = _ =>
        change (s0 :: s1 :: s2 :: s3 :: r) with ([s0; s1; s2; s3] ++ r) in *
    end.
    rewrite base64_decode_app by (try exact Hp; reflexivity).
    apply padded_text_app in Hp. destruct Hp as [Hg _].
    rewrite base64_decode_one_group by exact Hg.
    rewrite base64_group_roundtrip_3, IH. reflexivity.
Qed.

(** ** Round trips: Base32 *)

(** The symbols of base32_encode for a block of five bytes and for the
    short last blocks. *)
Lemma base32_symbols_5 b0 b1 b2 b3 b4 bits :
  let V := (((byte.unsigned b0 * 256 + byte.unsigned b1) * 256 + byte.unsigned b2) * 256
            + byte.unsigned b3) * 256 + byte.unsigned b4 in
  map (group_symbol base32_table 5)
      (chunks 5 (byte_bits b0 ++ byte_bits b1 ++ byte_bits b2 ++ byte_bits b3
                 ++ byte_bits b4 ++ bits)) =
  [tbl base32_table (V / 34359738368 mod 32);
   tbl base32_table (V / 1073741824 mod 32);
   tbl base32_table (V / 33554432 mod 32);
   tbl base32_table (V / 1048576 mod 32);
   tbl base32_table (V / 32768 mod 32);
   tbl base32_table (V / 1024 mod 32);
   tbl base32_table (V / 32 mod 32);
   tbl base32_table (V mod 32)]
  ++ map (group_symbol base32_table 5) (chunks 5 bits).
Proof.
  intro V. subst V.
  pose proof (unsigned_bound b0) as H0. pose proof (unsigned_bound b1) as H1.
  pose proof (unsigned_bound b2) as H2. pose proof (unsigned_bound b3) as H3.
  pose proof (unsigned_bound b4) as H4.
  set (B := byte_bits b0 ++ byte_bits b1 ++ byte_bits b2 ++ byte_bits b3 ++ byte_bits b4).
  assert (HV : bits_value B =
               (((byte.unsigned b0 * 256 + byte.unsigned b1) * 256 + byte.unsigned b2) * 256
                + byte.unsigned b3) * 256 + byte.unsigned b4).
  { subst B. rewrite !bits_value_app, !byte_bits_value, !length_app, !byte_bits_length.
    pow2. lia. }
  replace (byte_bits b0 ++ byte_bits b1 ++ byte_bits b2 ++ byte_bits b3
           ++ byte_bits b4 ++ bits) with (B ++ bits)
    by (subst B; now rewrite <- !app_assoc).
  destruct (bits_split 5 35 B eq_refl) as [g0 [r0 [E0 [L0 [M0 [V0 [B0 _]]]]]]].
  destruct (bits_split 5 30 r0 M0) as [g1 [r1 [E1 [L1 [M1 [V1 [B1 _]]]]]]].
  destruct (bits_split 5 25 r1 M1) as [g2 [r2 [E2 [L2 [M2 [V2 [B2 _]]]]]]].
  destruct (bits_split 5 20 r2 M2) as [g3 [r3 [E3 [L3 [M3 [V3 [B3 _]]]]]]].
  destruct (bits_split 5 15 r3 M3) as [g4 [r4 [E4 [L4 [M4 [V4 [B4 _]]]]]]].
  destruct (bits_split 5 10 r4 M4) as [g5 [r5 [E5 [L5 [M5 [V5 [B5 _]]]]]]].
  destruct (bits_split 5 5 r5 M5) as [g6 [g7 [E6 [L6 [L7 [V6 [B6 B7]]]]]]].
  clearbody B. subst B r0 r1 r2 r3 r4 r5.
  rewrite <- !app_assoc.
  rewrite (chunks_app 5 g0), (chunks_app 5 g1), (chunks_app 5 g2), (chunks_app 5 g3),
          (chunks_app 5 g4), (chunks_app 5 g5), (chunks_app 5 g6), (chunks_app 5 g7)
    by (assumption || lia).
  cbn [map app]. rewrite !group_symbol_full by assumption. pow2.
  symbols_eq.
Qed.

Lemma base32_symbols_1 b0 :
  let W := byte.unsigned b0 * 4 in
  map (group_symbol base32_table 5) (chunks 5 (byte_bits b0)) =
  [tbl base32_table (W / 32 mod 32); tbl base32_table (W mod 32)].
Proof.
  intro W. subst W. pose proof (unsigned_bound b0) as H0.
  pose proof (byte_bits_value b0) as HV.
  destruct (bits_split 5 3 (byte_bits b0) eq_refl) as [g0 [g1 [E0 [L0 [L1 [V0 [B0 B1]]]]]]].
  rewrite E0 in *. clear E0.
  rewrite (chunks_app 5 g0), (chunks_short 5 g1) by (assumption || lia).
  cbn [map]. rewrite group_symbol_full by assumption.
  unfold group_symbol. rewrite L1. change (Z.of_nat (5 - 3)) with 2.
  rewrite (shiftl_mul _ 2 4) by lia. pow2. symbols_eq.
Qed.

Lemma base32_symbols_2 b0 b1 :
  let W := (byte.unsigned b0 * 256 + byte.unsigned b1) * 16 in
  map (group_symbol base32_table 5) (chunks 5 (byte_bits b0 ++ byte_bits b1)) =
  [tbl base32_table (W / 32768 mod 32); tbl base32_table (W / 1024 mod 32);
   tbl base32_table (W / 32 mod 32); tbl base32_table (W mod 32)].
Proof.
  intro W. subst W.
  pose proof (unsigned_bound b0) as H0. pose proof (unsigned_bound b1) as H1.
  set (B := byte_bits b0 ++ byte_bits b1).
  assert (HV : bits_value B = byte.unsigned b0 * 256 + byte.unsigned b1).
  { subst B. rewrite !bits_value_app, !byte_bits_value, !byte_bits_length. pow2. lia. }
  destruct (bits_split 5 11 B eq_refl) as [g0 [r0 [E0 [L0 [M0 [V0 [B0 _]]]]]]].
  destruct (bits_split 5 6 r0 M0) as [g1 [r1 [E1 [L1 [M1 [V1 [B1 _]]]]]]].
  destruct (bits_split 5 1 r1 M1) as [g2 [g3 [E2 [L2 [L3 [V2 [B2 B3]]]]]]].
  clearbody B. subst B r0 r1.
  rewrite (chunks_app 5 g0), (chunks_app 5 g1), (chunks_app 5 g2), (chunks_short 5 g3)
    by (assumption || lia).
  cbn [map]. rewrite !group_symbol_full by assumption.
  unfold group_symbol. rewrite L3. change (Z.of_nat (5 - 1)) with 4.
  rewrite (shiftl_mul _ 4 16) by lia. pow2. symbols_eq.
Qed.

Lemma base32_symbols_3 b0 b1 b2 :
  let W := ((byte.unsigned b0 * 256 + byte.unsigned b1) * 256 + byte.unsigned b2) * 2 in
  map (group_symbol base32_table 5)
      (chunks 5 (byte_bits b0 ++ byte_bits b1 ++ byte_bits b2)) =
  [tbl base32_table (W / 1048576 mod 32); tbl base32_table (W / 32768 mod 32);
   tbl base32_table (W / 1024 mod 32); tbl base32_table (W / 32 mod 32);
   tbl base32_table (W mod 32)].
Proof.
  intro W. subst W.
  pose proof (unsigned_bound b0) as H0. pose proof (unsigned_bound b1) as H1.
  pose proof (unsigned_bound b2) as H2.
  set (B := byte_bits b0 ++ byte_bits b1 ++ byte_bits b2).
  assert (HV : bits_value B =
               (byte.unsigned b0 * 256 + byte.unsigned b1) * 256 + byte.unsigned b2).
  { subst B. rewrite !bits_value_app, !byte_bits_value, !length_app, !byte_bits_length.
    pow2. lia. }
  destruct (bits_split 5 19 B eq_refl) as [g0 [r0 [E0 [L0 [M0 [V0 [B0 _]]]]]]].
  destruct (bits_split 5 14 r0 M0) as [g1 [r1 [E1 [L1 [M1 [V1 [B1 _]]]]]]].
  destruct (bits_split 5 9 r1 M1) as [g2 [r2 [E2 [L2 [M2 [V2 [B2 _]]]]]]].
  destruct (bits_split 5 4 r2 M2) as [g3 [g4 [E3 [L3 [L4 [V3 [B3 B4]]]]]]].
  clearbody B. subst B r0 r1 r2.
  rewrite (chunks_app 5 g0), (chunks_app 5 g1), (chunks_app 5 g2), (chunks_app 5 g3),
          (chunks_short 5 g4) by (assumption || lia).
  cbn [map]. rewrite !group_symbol_full by assumption.
  unfold group_symbol. rewrite L4. change (Z.of_nat (5 - 4)) with 1.
  rewrite (shiftl_mul _ 1 2) by lia. pow2. symbols_eq.
Qed.

Lemma group_value_8 q0 q1 q2 q3 q4 q5 q6 q7 :
  0 <= q0 < 32 -> 0 <= q1 < 32 -> 0 <= q2 < 32 -> 0 <= q3 < 32 ->
  0 <= q4 < 32 -> 0 <= q5 < 32 -> 0 <= q6 < 32 -> 0 <= q7 < 32 ->
  group_value 5 35 [q0; q1; q2; q3; q4; q5; q6; q7] 0 =
  ((((((q0 * 32 + q1) * 32 + q2) * 32 + q3) * 32 + q4) * 32 + q5) * 32 + q6) * 32 + q7.
Proof.
  intros H0 H1 H2 H3 H4 H5 H6 H7. cbn [group_value].
  change (35 - 5) with 30. change (30 - 5) with 25. change (25 - 5) with 20.
  change (20 - 5) with 15. change (15 - 5) with 10. change (10 - 5) with 5.
  change (5 - 5) with 0.
  rewrite Z.lor_0_l, Z.shiftl_0_r.
  rewrite (shiftl_mul q0 35 34359738368), (shiftl_mul q1 30 1073741824),
          (shiftl_mul q2 25 33554432), (shiftl_mul q3 20 1048576),
          (shiftl_mul q4 15 32768), (shiftl_mul q5 10 1024), (shiftl_mul q6 5 32) by lia.
  rewrite (lor_disjoint_add (q0 * 34359738368) (q1 * 1073741824) 35)
    by (change (2 ^ 35) with 34359738368; zlia).
  rewrite (lor_disjoint_add _ (q2 * 33554432) 30)
    by (change (2 ^ 30) with 1073741824; zlia).
  rewrite (lor_disjoint_add _ (q3 * 1048576) 25)
    by (change (2 ^ 25) with 33554432; zlia).
  rewrite (lor_disjoint_add _ (q4 * 32768) 20)
    by (change (2 ^ 20) with 1048576; zlia).
  rewrite (lor_disjoint_add _ (q5 * 1024) 15)
    by (change (2 ^ 15) with 32768; zlia).
  rewrite (lor_disjoint_add _ (q6 * 32) 10)
    by (change (2 ^ 10) with 1024; zlia).
  rewrite (lor_disjoint_add _ q7 5)
    by (change (2 ^ 5) with 32; zlia).
  lia.
Qed.

Lemma base32_symbol_not_PAD q : 0 <= q < 32 -> tbl base32_table q <> PAD.
Proof.
  intros H E. apply PAD_not_in_base32. rewrite <- E. apply tbl_in. cbn. lia.
Qed.

Lemma group_index_base32 q :
  0 <= q < 32 -> group_index base32_table (tbl base32_table q) = Ok q.
Proof.
  intro H. rewrite group_index_symbol.
  - now rewrite base32_index.
  - now apply base32_symbol_not_PAD.
  - apply tbl_in. cbn. lia.
Qed.

Lemma not_pad_base32 q : 0 <= q < 32 -> not_pad (tbl base32_table q) = true.
Proof.
  intro H. unfold not_pad. apply negb_true_iff, byte_eqb_neq.
  now apply base32_symbol_not_PAD.
Qed.

Ltac bytes_eq V :=
  repeat match goal with
  | |- _ :: _ = _ :: _ =>
      apply (f_equal2 (@cons byte)); [apply byte_of_parts; subst V; zlia | ]
  | |- _ = _ => reflexivity
  end.

Lemma base32_group_roundtrip_5 b0 b1 b2 b3 b4 :
  let V := (((byte.unsigned b0 * 256 + byte.unsigned b1) * 256 + byte.unsigned b2) * 256
            + byte.unsigned b3) * 256 + byte.unsigned b4 in
  base32_decode_group
    (tbl base32_table (V / 34359738368 mod 32)) (tbl base32_table (V / 1073741824 mod 32))
    (tbl base32_table (V / 33554432 mod 32)) (tbl base32_table (V / 1048576 mod 32))
    (tbl base32_table (V / 32768 mod 32)) (tbl base32_table (V / 1024 mod 32))
    (tbl base32_table (V / 32 mod 32)) (tbl base32_table (V mod 32))
  = Ok [b0; b1; b2; b3; b4].
Proof.
  intro V.
  pose proof (unsigned_bound b0) as H0. pose proof (unsigned_bound b1) as H1.
  pose proof (unsigned_bound b2) as H2. pose proof (unsigned_bound b3) as H3.
  pose proof (unsigned_bound b4) as H4.
  assert (HV : 0 <= V < 1099511627776) by (subst V; lia).
  unfold base32_decode_group. cbn [group_indices].
  rewrite !group_index_base32 by zlia. cbn [bind].
  rewrite group_value_8 by zlia.
  rewrite !not_pad_base32 by zlia. cbn [emit_if app].
  octets.
  replace (((((((V / 34359738368 mod 32 * 32 + V / 1073741824 mod 32) * 32
                + V / 33554432 mod 32) * 32 + V / 1048576 mod 32) * 32
              + V / 32768 mod 32) * 32 + V / 1024 mod 32) * 32 + V / 32 mod 32) * 32
           + V mod 32) with V by zlia.
  f_equal. bytes_eq V.
Qed.

Lemma base32_group_roundtrip_1 b0 :
  let W := byte.unsigned b0 * 4 in
  base32_decode_group
    (tbl base32_table (W / 32 mod 32)) (tbl base32_table (W mod 32))
    PAD PAD PAD PAD PAD PAD = Ok [b0].
Proof.
  intro W. pose proof (unsigned_bound b0) as H0.
  assert (HW : 0 <= W < 1024) by (subst W; lia).
  unfold base32_decode_group. cbn [group_indices].
  rewrite !group_index_base32 by zlia. rewrite !group_index_PAD. cbn [bind].
  rewrite group_value_8 by zlia.
  change (not_pad PAD) with false. cbn [emit_if app].
  octets. f_equal. bytes_eq W.
Qed.

Lemma base32_group_roundtrip_2 b0 b1 :
  let W := (byte.unsigned b0 * 256 + byte.unsigned b1) * 16 in
  base32_decode_group
    (tbl base32_table (W / 32768 mod 32)) (tbl base32_table (W / 1024 mod 32))
    (tbl base32_table (W / 32 mod 32)) (tbl base32_table (W mod 32))
    PAD PAD PAD PAD = Ok [b0; b1].
Proof.
  intro W. pose proof (unsigned_bound b0) as H0. pose proof (unsigned_bound b1) as H1.
  assert (HW : 0 <= W < 1048576) by (subst W; lia).
  unfold base32_decode_group. cbn [group_indices].
  rewrite !group_index_base32 by zlia. rewrite !group_index_PAD. cbn [bind].
  rewrite group_value_8 by zlia.
  rewrite !not_pad_base32 by zlia.
  change (not_pad PAD) with false. cbn [emit_if app].
  octets. f_equal. bytes_eq W.
Qed.

Lemma base32_group_roundtrip_3 b0 b1 b2 :
  let W := ((byte.unsigned b0 * 256 + byte.unsigned b1) * 256 + byte.unsigned b2) * 2 in
  base32_decode_group
    (tbl base32_table (W / 1048576 mod 32)) (tbl base32_table (W / 32768 mod 32))
    (tbl base32_table (W / 1024 mod 32)) (tbl base32_table (W / 32 mod 32))
    (tbl base32_table (W mod 32))
    PAD PAD PAD = Ok [b0; b1; b2].
Proof.
  intro W. pose proof (unsigned_bound b0) as H0. pose proof (unsigned_bound b1) as H1.
  pose proof (unsigned_bound b2) as H2.
  assert (HW : 0 <= W < 33554432) by (subst W; lia).
  unfold base32_decode_group. cbn [group_indices].
  rewrite !group_index_base32 by zlia. rewrite !group_index_PAD. cbn [bind].
  rewrite group_value_8 by zlia.
  rewrite !not_pad_base32 by zlia.
  change (not_pad PAD) with false. cbn [emit_if app].
  octets. f_equal. bytes_eq W.
Qed.

Lemma five_induction {A} (P : list A -> Prop) :
  P [] -> (forall a, P [a]) -> (forall a b, P [a; b]) ->
  (forall a b c, P [a; b; c]) -> (forall a b c d, P [a; b; c; d]) ->
  (forall a b c d e l, P l -> P (a :: b :: c :: d :: e :: l)) ->
  forall l, P l.
Proof.
  intros H0 H1 H2 H3 H4 H5 l.
  remember (length l) as n eqn:Hn. revert l Hn.
  induction n as [n IH] using lt_wf_ind. intros l Hn.
  destruct l as [|a [|b [|c [|d [|e l]]]]]; auto.
  apply H5. apply (IH (length l)); [subst n; cbn [length]; lia | reflexivity].
Qed.

Lemma base32_encode_cons5 b0 b1 b2 b3 b4 rest :
  let V := (((byte.unsigned b0 * 256 + byte.unsigned b1) * 256 + byte.unsigned b2) * 256
            + byte.unsigned b3) * 256 + byte.unsigned b4 in
  base32_encode (b0 :: b1 :: b2 :: b3 :: b4 :: rest) =
  [tbl base32_table (V / 34359738368 mod 32); tbl base32_table (V / 1073741824 mod 32);
   tbl base32_table (V / 33554432 mod 32); tbl base32_table (V / 1048576 mod 32);
   tbl base32_table (V / 32768 mod 32); tbl base32_table (V / 1024 mod 32);
   tbl base32_table (V / 32 mod 32); tbl base32_table (V mod 32)]
  ++ base32_encode rest.
Proof.
  intro V. rewrite !base32_encode_stream. unfold stream_symbols.
  cbn [bit_stream flat_map]. rewrite <- ?app_assoc. fold (bit_stream rest).
  apply base32_symbols_5.
Qed.

Lemma base32_encode_1 b0 :
  let W := byte.unsigned b0 * 4 in
  base32_encode [b0] =
  [tbl base32_table (W / 32 mod 32); tbl base32_table (W mod 32)].
Proof.
  intro W. rewrite base32_encode_stream. unfold stream_symbols.
  cbn [bit_stream flat_map]. rewrite app_nil_r. apply base32_symbols_1.
Qed.

Lemma base32_encode_2 b0 b1 :
  let W := (byte.unsigned b0 * 256 + byte.unsigned b1) * 16 in
  base32_encode [b0; b1] =
  [tbl base32_table (W / 32768 mod 32); tbl base32_table (W / 1024 mod 32);
   tbl base32_table (W / 32 mod 32); tbl base32_table (W mod 32)].
Proof.
  intro W. rewrite base32_encode_stream. unfold stream_symbols.
  cbn [bit_stream flat_map]. rewrite app_nil_r. apply base32_symbols_2.
Qed.

Lemma base32_encode_3 b0 b1 b2 :
  let W := ((byte.unsigned b0 * 256 + byte.unsigned b1) * 256 + byte.unsigned b2) * 2 in
  base32_encode [b0; b1; b2] =
  [tbl base32_table (W / 1048576 mod 32); tbl base32_table (W / 32768 mod 32);
   tbl base32_table (W / 1024 mod 32); tbl base32_table (W / 32 mod 32);
   tbl base32_table (W mod 32)].
Proof.
  intro W. rewrite base32_encode_stream. unfold stream_symbols.
  cbn [bit_stream flat_map]. rewrite app_nil_r. apply base32_symbols_3.
Qed.

Lemma base32_encode_padded_text payload :
  padded_text base32_table (base32_encode payload).
Proof.
  rewrite base32_encode_stream. intros c Hc. right.
  pose proof (stream_symbols_in_table base32_table 5 payload ltac:(lia) eq_refl) as H.
  rewrite Forall_forall in H. now apply H.
Qed.

Lemma base32_decode_one_group c0 c1 c2 c3 c4 c5 c6 c7 :
  base32_decode_groups [c0; c1; c2; c3; c4; c5; c6; c7] =
  base32_decode_group c0 c1 c2 c3 c4 c5 c6 c7.
Proof.
  cbn [base32_decode_groups].
  destruct (base32_decode_group c0 c1 c2 c3 c4 c5 c6 c7); cbn [bind]; [|reflexivity].
  now rewrite app_nil_r.
Qed.

Lemma base32_roundtrip payload :
  (length payload mod 5 <> 4)%nat ->
  base32_decode (base32_encode payload) = Ok payload.
Proof.
  induction payload as [|b0|b0 b1|b0 b1 b2|b0 b1 b2 b3|b0 b1 b2 b3 b4 rest IH]
    using five_induction; intro Hlen.
  - reflexivity.
  - pose proof (base32_encode_padded_text [b0]) as Hp.
    rewrite base32_encode_1 in *. rewrite base32_decode_padded by exact Hp.
    change (pad_right 8 ?l) with (l ++ repeat PAD 6). cbn [app repeat].
    rewrite base32_decode_one_group. apply base32_group_roundtrip_1.
  - pose proof (base32_encode_padded_text [b0; b1]) as Hp.
    rewrite base32_encode_2 in *. rewrite base32_decode_padded by exact Hp.
    change (pad_right 8 ?l) with (l ++ repeat PAD 4). cbn [app repeat].
    rewrite base32_decode_one_group. apply base32_group_roundtrip_2.
  - pose proof (base32_encode_padded_text [b0; b1; b2]) as Hp.
    rewrite base32_encode_3 in *. rewrite base32_decode_padded by exact Hp.
    change (pad_right 8 ?l) with (l ++ repeat PAD 3). cbn [app repeat].
    rewrite base32_decode_one_group. apply base32_group_roundtrip_3.
  - now contradiction Hlen.
  - pose proof (base32_encode_padded_text (b0 :: b1 :: b2 :: b3 :: b4 :: rest)) as Hp.
    rewrite base32_encode_cons5 in *.
    rewrite base32_decode_app by (try exact Hp; reflexivity).
    apply padded_text_app in Hp. destruct Hp as [Hg _].
    rewrite base32_decode_padded, pad_right_multiple by (try exact Hg; cbn [length]; lia).
    rewrite base32_decode_one_group, base32_group_roundtrip_5.
    rewrite IH by (cbn [length] in Hlen; nlia). reflexivity.
Qed.

(** ** Digit arrays *)

Section DigitArrays.

Variable radix : Z.
Hypothesis radix_gt_1 : 1 < radix.

Lemma lval_app a b :
  lval radix (a ++ b) = lval radix a + radix ^ Z.of_nat (length a) * lval radix b.
Proof using Type.
  induction a as [|d a IH].
  - cbn [app lval length]. change (radix ^ Z.of_nat 0) with (radix ^ 0).
    rewrite Z.pow_0_r. lia.
  - cbn [app lval length]. rewrite IH, Nat2Z.inj_succ, Z.pow_succ_r by lia. ring.
Qed.

Lemma lval_bound digits :
  digits_ok radix digits ->
  0 <= lval radix digits < radix ^ Z.of_nat (length digits).
Proof using radix_gt_1.
  intros H. induction H as [|d ds Hd _ IH].
  - cbn. lia.
  - cbn [lval length]. rewrite Nat2Z.inj_succ, Z.pow_succ_r by lia. nia.
Qed.

Lemma bval_snoc digits d :
  bval radix (digits ++ [d]) = bval radix digits * radix + d.
Proof using Type. unfold bval. now rewrite fold_left_app. Qed.

Lemma bval_rev digits : bval radix digits = lval radix (rev digits).
Proof using Type.
  induction digits as [|d ds IH] using rev_ind; [reflexivity|].
  rewrite bval_snoc, rev_app_distr. cbn [rev app lval]. rewrite IH. ring.
Qed.

Lemma bval_cons d digits :
  bval radix (d :: digits) =
  d * radix ^ Z.of_nat (length digits) + bval radix digits.
Proof using Type.
  rewrite !bval_rev. cbn [rev]. rewrite lval_app, length_rev. cbn [lval]. ring.
Qed.

Lemma digits_ok_app a b :
  digits_ok radix (a ++ b) <-> digits_ok radix a /\ digits_ok radix b.
Proof using Type. apply Forall_app. Qed.

(** Two arrays of the same length that hold the same number are equal. *)
Lemma lval_unique a :
  forall b,
    digits_ok radix a -> digits_ok radix b -> length a = length b ->
    lval radix a = lval radix b -> a = b.
Proof using radix_gt_1.
  induction a as [|d a IH]; intros [|e b] Ha Hb Hlen Hv;
    try discriminate Hlen; [reflexivity|].
  inversion Ha as [|? ? Hd Ha']; inversion Hb as [|? ? He Hb']; subst.
  cbn [lval] in Hv.
  assert (Hv' : lval radix a = lval radix b).
  { rewrite (Z.div_unique (d + radix * lval radix a) radix (lval radix a) d) by lia.
    rewrite Hv. symmetry. apply (Z.div_unique _ radix (lval radix b) e); lia. }
  assert (d = e) as -> by (rewrite Hv' in Hv; lia).
  f_equal. apply IH; try assumption. cbn [length] in Hlen. lia.
Qed.

Lemma canon_length a b :
  canon radix a -> canon radix b ->
  lval radix a = lval radix b -> (length a <= length b)%nat.
Proof using radix_gt_1.
  intros [Ha Ca] [Hb _] Hv.
  destruct Ca as [->|Ca]; [cbn [length]; lia|].
  pose proof (lval_bound b Hb) as Bb.
  rewrite <- Hv in Bb.
  assert (Hlt : radix ^ (Z.of_nat (length a) - 1) < radix ^ Z.of_nat (length b)) by lia.
  apply Z.pow_lt_mono_r_iff in Hlt; lia.
Qed.

(** The number determines the array when the most significant digit is
    not zero. *)
Lemma canon_unique a b :
  canon radix a -> canon radix b -> lval radix a = lval radix b -> a = b.
Proof using radix_gt_1.
  intros Ha Hb Hv. apply lval_unique.
  - apply Ha.
  - apply Hb.
  - pose proof (canon_length a b Ha Hb Hv).
    pose proof (canon_length b a Hb Ha (eq_sym Hv)). lia.
  - exact Hv.
Qed.

Lemma canon_last digits d : canon radix (digits ++ [d]) -> d <> 0.
Proof using radix_gt_1.
  intros [Hok [E|C]] ->.
  - now destruct digits.
  - apply digits_ok_app in Hok. destruct Hok as [Hok _].
    pose proof (lval_bound digits Hok) as B.
    rewrite lval_app, length_app in C. cbn [lval length] in C.
    replace (Z.of_nat (length digits + 1) - 1) with (Z.of_nat (length digits)) in C by lia.
    lia.
Qed.

(** The most significant digit comes first in the text, and is not zero. *)
Lemma canon_rev_head digits :
  canon radix digits ->
  rev digits = [] \/ exists d rest, rev digits = d :: rest /\ d <> 0.
Proof using radix_gt_1.
  intros Hc. destruct digits as [|d0 ds] using rev_ind; [now left | right].
  clear IHds. rewrite rev_app_distr. cbn [rev app].
  exists d0, (rev ds). split; [reflexivity|]. now apply (canon_last ds).
Qed.

Lemma canon_nil : canon radix [].
Proof using Type. split; [constructor | now left]. Qed.

(** Appending the digits of what is left of the carry keeps the array
    without a zero most significant digit, when the number has not
    decreased. *)
Lemma canon_extend old new high :
  (old = [] \/ radix ^ (Z.of_nat (length old) - 1) <= lval radix old) ->
  length new = length old -> digits_ok radix new ->
  canon radix high ->
  (high = [] -> lval radix old <= lval radix new) ->
  canon radix (new ++ high).
Proof using radix_gt_1.
  intros Hold Hlen Hnew [Hh Ch] Hmono. split.
  - apply digits_ok_app. now split.
  - destruct high as [|h high].
    + rewrite app_nil_r. destruct Hold as [->|Hold].
      * left. destruct new; [reflexivity | discriminate Hlen].
      * right. rewrite Hlen. specialize (Hmono eq_refl). lia.
    + right. destruct Ch as [Ch|Ch]; [discriminate Ch|].
      rewrite lval_app, length_app.
      pose proof (lval_bound new Hnew) as Bn.
      replace (Z.of_nat (length new + length (h :: high)) - 1)
        with (Z.of_nat (length new) + (Z.of_nat (length (h :: high)) - 1))
        by lia.
      rewrite Z.pow_add_r by (cbn [length]; lia).
      assert (0 < radix ^ Z.of_nat (length new)) by (apply Z.pow_pos_nonneg; lia).
      nia.
Qed.

End DigitArrays.

(** ** The loops of the big-integer codecs *)

Ltac zlia_div :=
  match goal with
  | |- 0 <= ?t / ?r < ?b =>
      split; [apply Z.div_pos; lia | apply Z.div_lt_upper_bound; nia]
  end.

Lemma u8_small z : 0 <= z < 256 -> u8 z = z.
Proof. intro H. unfold u8. now apply Z.mod_small. Qed.

Lemma wrap_ok_u32 : wrap_ok u32.
Proof. intros z H. now apply u32_small. Qed.

Lemma wrap_ok_sint : wrap_ok sint.
Proof. intros z _. reflexivity. Qed.

Lemma digits_ok_weaken r1 r2 digits :
  r1 <= r2 -> digits_ok r1 digits -> digits_ok r2 digits.
Proof.
  intros Hr H. eapply Forall_impl; [|exact H]. cbv beta. intros d Hd. lia.
Qed.

Section BigIntLoops.

(** The radix of the digit array: 58 or 62 when encoding, 256 when
    decoding. *)
Variable radix : Z.
Hypothesis radix_range : 2 <= radix <= 256.

(** With fuel for every iteration, the loop that empties [carry] appends
    exactly the digits of [carry]. *)
Lemma flush_carry_spec :
  forall fuel carry,
    0 <= carry <= Z.of_nat fuel ->
    canon radix (flush_carry fuel radix carry) /\
    lval radix (flush_carry fuel radix carry) = carry.
Proof using radix_range.
  induction fuel as [|fuel IH]; intros carry Hc.
  - cbn [flush_carry]. split; [apply canon_nil | cbn [lval]; lia].
  - cbn [flush_carry]. destruct (0 <? carry) eqn:E.
    + apply Z.ltb_lt in E.
      pose proof (Z.mod_pos_bound carry radix ltac:(lia)) as Hm.
      pose proof (Z.div_mod carry radix ltac:(lia)) as Hdm.
      assert (Hq : 0 <= carry / radix <= Z.of_nat fuel).
      { split; [apply Z.div_pos; lia|].
        assert (carry / radix < carry) by (apply Z.div_lt; lia). lia. }
      destruct (IH (carry / radix) Hq) as [[Hok Hc'] Hv].
      rewrite u8_small by lia.
      split; [split|].
      * constructor; [lia | exact Hok].
      * right. cbn [length lval]. rewrite Hv.
        replace (Z.of_nat (S (length (flush_carry fuel radix (carry / radix)))) - 1)
          with (Z.of_nat (length (flush_carry fuel radix (carry / radix)))) by lia.
        destruct (flush_carry fuel radix (carry / radix)) as [|h t] eqn:F.
        -- cbn [length]. change (radix ^ Z.of_nat 0) with (radix ^ 0).
           rewrite Z.pow_0_r. lia.
        -- destruct Hc' as [Hc'|Hc']; [discriminate Hc'|].
           rewrite Hv in Hc'.
           replace (Z.of_nat (length (h :: t)))
             with (Z.succ (Z.of_nat (length (h :: t)) - 1)) by lia.
           rewrite Z.pow_succ_r by (cbn [length]; lia). nia.
      * cbn [lval]. rewrite Hv. lia.
    + apply Z.ltb_ge in E. split; [apply canon_nil | cbn [lval]; lia].
Qed.

Section Step.

(** The type of [carry] and the factor of the loop: 256 when encoding,
    58 or 62 when decoding. *)
Variable wrap : Z -> Z.
Variable factor : Z.
Hypothesis wrap_small : wrap_ok wrap.
Hypothesis factor_range : 1 <= factor <= 256.

(** The cells are bytes and the carry stays below 2^16, so that neither
    [carry] nor the stores wrap. *)
Lemma muladd_digits_spec :
  forall digits carry,
    digits_ok 256 digits -> 0 <= carry < 65536 ->
    length (fst (muladd_digits wrap radix factor digits carry)) = length digits /\
    digits_ok radix (fst (muladd_digits wrap radix factor digits carry)) /\
    0 <= snd (muladd_digits wrap radix factor digits carry) < 65536 /\
    lval radix (fst (muladd_digits wrap radix factor digits carry))
    + radix ^ Z.of_nat (length digits)
      * snd (muladd_digits wrap radix factor digits carry)
    = factor * lval radix digits + carry.
Proof using wrap_small radix_range factor_range.
  induction digits as [|d rest IH]; intros carry Hok Hc.
  - cbn [muladd_digits fst snd length lval]. repeat split; try lia. constructor.
  - inversion Hok as [|? ? Hd Hrest]; subst.
    cbn [muladd_digits].
    rewrite (wrap_small (carry + factor * d))
      by (change (2 ^ 32) with 4294967296; nia).
    set (t := carry + factor * d).
    assert (Ht : 0 <= t < 131072) by (subst t; nia).
    assert (Hq : 0 <= t / radix < 65536) by zlia_div.
    specialize (IH (t / radix) Hrest Hq).
    destruct (muladd_digits wrap radix factor rest (t / radix)) as [rest' carry'].
    cbn [fst snd] in *. destruct IH as [IH1 [IH2 [IH3 IH4]]].
    pose proof (Z.mod_pos_bound t radix ltac:(lia)) as Hm.
    rewrite u8_small by lia.
    repeat split; try lia.
    + cbn [length]. now rewrite IH1.
    + constructor; [lia | exact IH2].
    + cbn [lval length]. rewrite Nat2Z.inj_succ, Z.pow_succ_r by lia.
      pose proof (Z.div_mod t radix ltac:(lia)) as E.
      replace (t mod radix + radix * lval radix rest'
               + radix * radix ^ Z.of_nat (length rest) * carry')
        with (t mod radix + radix * (lval radix rest'
               + radix ^ Z.of_nat (length rest) * carry')) by ring.
      rewrite IH4. subst t. nia.
Qed.

(** One iteration of the main loop multiplies the number by [factor] and
    adds [carry]. *)
Lemma bigint_step_spec digits carry :
  canon radix digits -> 0 <= carry < 65536 ->
  canon radix (bigint_step wrap radix factor digits carry) /\
  lval radix (bigint_step wrap radix factor digits carry)
  = factor * lval radix digits + carry.
Proof using wrap_small radix_range factor_range.
  intros [Hok Hc] Hcarry. unfold bigint_step.
  pose proof (muladd_digits_spec digits carry
                (digits_ok_weaken radix 256 digits ltac:(lia) Hok) Hcarry) as M.
  destruct (muladd_digits wrap radix factor digits carry) as [digits' carry'].
  cbn [fst snd] in M. destruct M as [M1 [M2 [M3 M4]]].
  destruct (flush_carry_spec (Z.to_nat carry') carry' ltac:(lia)) as [Fc Fv].
  pose proof (lval_bound radix ltac:(lia) digits Hok) as B.
  split.
  - apply (canon_extend radix ltac:(lia) digits); try assumption; try lia.
    intro E. rewrite E in Fv. cbn [lval] in Fv. subst carry'. nia.
  - rewrite lval_app, M1, Fv. lia.
Qed.

End Step.

End BigIntLoops.

Lemma add_digit_spec :
  forall buffer carry,
    digits_ok 256 buffer -> 0 <= carry < 65536 ->
    length (fst (add_digit buffer carry)) = length buffer /\
    digits_ok 256 (fst (add_digit buffer carry)) /\
    0 <= snd (add_digit buffer carry) < 65536 /\
    lval 256 (fst (add_digit buffer carry))
    + 256 ^ Z.of_nat (length buffer) * snd (add_digit buffer carry)
    = lval 256 buffer + carry.
Proof.
  induction buffer as [|b rest IH]; intros carry Hok Hc.
  - cbn [add_digit fst snd length lval]. repeat split; try lia. constructor.
  - inversion Hok as [|? ? Hb Hrest]; subst.
    cbn [add_digit].
    rewrite (u32_small (b + carry)) by (change (2 ^ 32) with 4294967296; lia).
    set (t := b + carry).
    assert (Ht : 0 <= t < 65792) by (subst t; lia).
    pose proof (Z.mod_pos_bound t 256 ltac:(lia)) as Hm.
    rewrite u8_small by lia.
    destruct (t / 256 =? 0) eqn:E.
    + apply Z.eqb_eq in E. cbn [fst snd length lval].
      repeat split; try lia.
      constructor; [lia | exact Hrest].
    + assert (Hq : 0 <= t / 256 < 65536) by zlia.
      specialize (IH (t / 256) Hrest Hq).
      destruct (add_digit rest (t / 256)) as [rest' carry'].
      cbn [fst snd] in *. destruct IH as [IH1 [IH2 [IH3 IH4]]].
      repeat split; try lia.
      * cbn [length]. now rewrite IH1.
      * constructor; [lia | exact IH2].
      * cbn [lval length]. rewrite Nat2Z.inj_succ, Z.pow_succ_r by lia.
        replace (t mod 256 + 256 * lval 256 rest'
                 + 256 * 256 ^ Z.of_nat (length rest) * carry')
          with (t mod 256 + 256 * (lval 256 rest'
                 + 256 ^ Z.of_nat (length rest) * carry')) by ring.
        rewrite IH4. subst t. zlia.
Qed.

Lemma base62_decode_step_spec buffer digit :
  canon 256 buffer -> 0 <= digit < 62 ->
  canon 256 (base62_decode_step buffer digit) /\
  lval 256 (base62_decode_step buffer digit) = 62 * lval 256 buffer + digit.
Proof.
  intros Hb Hd. unfold base62_decode_step.
  destruct (bigint_step_spec 256 ltac:(lia) u32 62 wrap_ok_u32 ltac:(lia) buffer 0 Hb
              ltac:(lia)) as [[Hok Hc] Hv].
  set (b1 := bigint_step u32 256 62 buffer 0) in *.
  pose proof (add_digit_spec b1 digit Hok ltac:(lia)) as A.
  destruct (add_digit b1 digit) as [b2 carry].
  cbn [fst snd] in A. destruct A as [A1 [A2 [A3 A4]]].
  destruct (flush_carry_spec 256 ltac:(lia) (Z.to_nat carry) carry ltac:(lia)) as [Fc Fv].
  split.
  - apply (canon_extend 256 ltac:(lia) b1); try assumption; try lia.
    intro E. rewrite E in Fv. cbn [lval] in Fv. subst carry. lia.
  - rewrite lval_app, A1, Fv. lia.
Qed.

Lemma base62_decode_step_first digit :
  0 <= digit < 62 -> base62_decode_step [0] digit = [digit].
Proof.
  intro H. unfold base62_decode_step, bigint_step.
  cbn [muladd_digits]. change (u32 (0 + 62 * 0)) with 0.
  change (0 / 256) with 0. change (0 mod 256) with 0. change (u8 0) with 0.
  cbn [Z.to_nat flush_carry app add_digit].
  rewrite (u32_small (0 + digit)) by (change (2 ^ 32) with 4294967296; lia).
  replace ((0 + digit) / 256) with 0 by zlia. cbn [Z.eqb Z.to_nat flush_carry app].
  rewrite u8_small by zlia. f_equal. zlia.
Qed.

(** Folding a step that multiplies by [factor] and adds a digit. *)
Lemma fold_step_spec radix factor (step : list Z -> Z -> list Z) :
  (forall a d, canon radix a -> 0 <= d < factor ->
               canon radix (step a d) /\ lval radix (step a d) = factor * lval radix a + d) ->
  forall digits acc,
    canon radix acc -> digits_ok factor digits ->
    canon radix (fold_left step digits acc) /\
    lval radix (fold_left step digits acc)
    = lval radix acc * factor ^ Z.of_nat (length digits) + bval factor digits.
Proof.
  intros Hstep digits. induction digits as [|d ds IH] using rev_ind; intros acc Ha Hd.
  - cbn [fold_left length]. split; [exact Ha|]. cbn. lia.
  - apply digits_ok_app in Hd. destruct Hd as [Hds Hd].
    inversion Hd as [|? ? Hd' _]; subst.
    destruct (IH acc Ha Hds) as [IH1 IH2].
    rewrite fold_left_app. cbn [fold_left].
    destruct (Hstep _ d IH1 Hd') as [S1 S2].
    split; [exact S1|].
    rewrite S2, IH2, bval_snoc, length_app. cbn [length].
    rewrite Nat2Z.inj_add, Z.pow_add_r by lia. change (factor ^ Z.of_nat 1) with (factor ^ 1).
    rewrite Z.pow_1_r. ring.
Qed.

(** ** Round trips: Base58 and Base62 *)

Lemma fold_left_unsigned (f : list Z -> Z -> list Z) payload acc :
  fold_left (fun r (b : byte) => f r (byte.unsigned b)) payload acc =
  fold_left f (map byte.unsigned payload) acc.
Proof.
  revert acc. induction payload as [|b rest IH]; intro acc; [reflexivity|].
  cbn [fold_left map]. apply IH.
Qed.

Lemma payload_digits_ok payload : digits_ok 256 (map byte.unsigned payload).
Proof.
  apply Forall_map, Forall_forall. intros b _. apply unsigned_bound.
Qed.

Lemma encode_digits_spec radix payload :
  2 <= radix <= 256 ->
  canon radix (fold_left (fun r b => bigint_step u32 radix 256 r (byte.unsigned b))
                         payload []) /\
  lval radix (fold_left (fun r b => bigint_step u32 radix 256 r (byte.unsigned b))
                        payload [])
  = bval 256 (map byte.unsigned payload).
Proof.
  intro HR. rewrite fold_left_unsigned.
  destruct (fold_step_spec radix 256 (bigint_step u32 radix 256)) with
    (digits := map byte.unsigned payload) (acc := @nil Z) as [H1 H2].
  - intros a d Ha Hd. apply bigint_step_spec; try assumption; try lia.
    apply wrap_ok_u32.
  - apply canon_nil.
  - apply payload_digits_ok.
  - split; [exact H1|]. rewrite H2. cbn [lval]. lia.
Qed.

Lemma unsigned_NUL b : byte.unsigned b = 0 -> b = NUL.
Proof. intro H. apply byte.unsigned_inj. now rewrite H. Qed.

(** A payload that does not start with a zero byte is, read from its last
    byte, a digit array without a zero most significant digit. *)
Lemma payload_canon payload :
  hd_error payload <> Some NUL -> canon 256 (rev (map byte.unsigned payload)).
Proof.
  intro H. split.
  - apply Forall_rev, payload_digits_ok.
  - destruct payload as [|b rest]; [now left | right].
    cbn [map rev]. rewrite lval_app, length_app, !length_rev, !length_map.
    cbn [length lval].
    replace (Z.of_nat (length rest + 1) - 1) with (Z.of_nat (length rest)) by lia.
    pose proof (lval_bound 256 ltac:(lia) (rev (map byte.unsigned rest))
                  (Forall_rev (payload_digits_ok rest))) as B.
    pose proof (unsigned_bound b) as Hb.
    assert (byte.unsigned b <> 0).
    { intro E. apply H. cbn [hd_error]. f_equal. now apply unsigned_NUL. }
    assert (0 < 256 ^ Z.of_nat (length rest)) by (apply Z.pow_pos_nonneg; lia).
    nia.
Qed.

Lemma payload_of_digits payload output :
  canon 256 output ->
  hd_error payload <> Some NUL ->
  lval 256 output = bval 256 (map byte.unsigned payload) ->
  map byte.of_Z (rev output) = payload.
Proof.
  intros Hc Hp Hv.
  rewrite (canon_unique 256 ltac:(lia) output (rev (map byte.unsigned payload)));
    try assumption.
  - rewrite rev_involutive, map_map. rewrite <- (map_id payload) at 2.
    apply map_ext. intro b. apply byte.of_Z_unsigned.
  - now apply payload_canon.
  - now rewrite <- bval_rev.
Qed.

Lemma base58_encode_symbols input :
  base58_encode input = map (tbl base58_table) (rev (base58_encode_digits input)).
Proof.
  unfold base58_encode, overwrite.
  rewrite firstn_app, length_map, length_rev, Nat.sub_diag. cbn [firstn].
  rewrite app_nil_r. apply firstn_all2. now rewrite length_map, length_rev.
Qed.

Lemma base58_decode_loop_digits digits :
  digits_ok 58 digits ->
  forall output,
    base58_decode_loop (map (tbl base58_table) digits) output =
    Ok (fold_left (bigint_step sint 256 58) digits output).
Proof.
  induction 1 as [|d ds Hd _ IH]; intro output; [reflexivity|].
  cbn [map base58_decode_loop fold_left]. rewrite base58_index by lia.
  replace (d =? -1) with false by lia. apply IH.
Qed.

Lemma count_leading_head c d rest :
  Byte.eqb d c = false -> count_leading c (d :: rest) = 0%nat.
Proof. intro H. cbn [count_leading]. now rewrite H. Qed.

Lemma base58_symbol_not_zero d :
  0 <= d < 58 -> d <> 0 ->
  Byte.eqb (tbl base58_table d) (tbl base58_table 0) = false.
Proof.
  intros Hd Hn. apply byte_eqb_neq. intro E.
  apply (f_equal (fun c => find_index c base58_table)) in E.
  rewrite !base58_index in E by lia. contradiction.
Qed.

Lemma base58_roundtrip payload :
  hd_error payload <> Some NUL ->
  base58_decode (base58_encode payload) = Ok payload.
Proof.
  intro Hp. rewrite base58_encode_symbols. unfold base58_encode_digits.
  assert (Hz : count_leading NUL payload = 0%nat).
  { destruct payload as [|b rest]; [reflexivity|]. apply count_leading_head.
    apply byte_eqb_neq. intro E. apply Hp. now rewrite E. }
  rewrite Hz. cbn [skipn repeat].
  destruct (encode_digits_spec 58 payload ltac:(lia)) as [Hc Hv].
  set (ds := fold_left _ payload []) in *.
  assert (Hok : digits_ok 58 (rev ds)) by (apply Forall_rev, Hc).
  unfold base58_decode.
  assert (Hzc : count_leading (tbl base58_table 0) (map (tbl base58_table) (rev ds)) = 0%nat).
  { destruct (canon_rev_head 58 ltac:(lia) ds Hc) as [E|[d [rest [E Hd]]]].
    - now rewrite E.
    - rewrite E in *. cbn [map]. apply count_leading_head.
      inversion Hok; subst. now apply base58_symbol_not_zero. }
  rewrite Hzc. cbn [skipn Nat.ltb Nat.leb].
  rewrite base58_decode_loop_digits by exact Hok. cbn [bind]. f_equal.
  destruct (fold_step_spec 256 58 (bigint_step sint 256 58)) with
    (digits := rev ds) (acc := @nil Z) as [H1 H2].
  - intros a d Ha Hd. apply bigint_step_spec; try assumption; try lia.
    apply wrap_ok_sint.
  - apply canon_nil.
  - exact Hok.
  - apply payload_of_digits; try assumption.
    rewrite H2. cbn [lval]. rewrite bval_rev, rev_involutive. lia.
Qed.

Lemma base62_decode_fold digits :
  digits_ok 62 digits ->
  forall buffer,
    fold_left (fun buffer c => base62_decode_step buffer (find_index c base62_table))
              (map (tbl base62_table) digits) buffer =
    fold_left base62_decode_step digits buffer.
Proof.
  induction 1 as [|d ds Hd _ IH]; intro buffer; [reflexivity|].
  cbn [map fold_left]. rewrite base62_index by lia. apply IH.
Qed.

Lemma base62_symbols_valid digits :
  digits_ok 62 digits ->
  existsb (fun c => find_index c base62_table =? -1) (map (tbl base62_table) digits) = false.
Proof.
  induction 1 as [|d ds Hd _ IH]; [reflexivity|].
  cbn [map existsb]. rewrite base62_index by lia.
  replace (d =? -1) with false by lia. exact IH.
Qed.

Lemma base62_roundtrip payload :
  payload <> [] -> hd_error payload <> Some NUL ->
  base62_decode (base62_encode payload) = Ok payload.
Proof.
  intros Hne Hp. unfold base62_encode, base62_encode_digits.
  destruct (encode_digits_spec 62 payload ltac:(lia)) as [Hc Hv].
  set (ds := fold_left _ payload []) in *.
  assert (Hok : digits_ok 62 (rev ds)) by (apply Forall_rev, Hc).
  assert (Hpos : 0 < bval 256 (map byte.unsigned payload)).
  { destruct (payload_canon payload Hp) as [_ [E|C]].
    - destruct payload; [contradiction | cbn [map rev] in E].
      now destruct (rev (map byte.unsigned payload)).
    - rewrite bval_rev.
      assert (0 < 256 ^ (Z.of_nat (length (rev (map byte.unsigned payload))) - 1)).
      { apply Z.pow_pos_nonneg; [lia|]. rewrite length_rev, length_map.
        destruct payload; [contradiction | cbn [length]; lia]. }
      lia. }
  destruct (canon_rev_head 62 ltac:(lia) ds Hc) as [E|[d [rest [E Hd]]]].
  - exfalso. assert (ds = []) by (apply (f_equal (@rev Z)) in E; now rewrite rev_involutive in E).
    subst ds. rewrite H in Hv. cbn [lval] in Hv. lia.
  - unfold base62_decode. rewrite E in *. cbn [map length Nat.eqb].
    change (tbl base62_table d :: map (tbl base62_table) rest)
      with (map (tbl base62_table) (d :: rest)).
    rewrite base62_symbols_valid by exact Hok.
    rewrite base62_decode_fold by exact Hok. f_equal.
    inversion Hok as [|? ? Hd0 Hrest]; subst.
    cbn [fold_left]. rewrite base62_decode_step_first by exact Hd0.
    destruct (fold_step_spec 256 62 base62_decode_step) with
      (digits := rest) (acc := [d]) as [H1 H2].
    + intros a x Ha Hx. now apply base62_decode_step_spec.
    + split; [constructor; [lia | constructor] | right; cbn; lia].
    + exact Hrest.
    + apply payload_of_digits; try assumption.
      rewrite H2, <- Hv. cbn [lval].
      replace ds with (rev (d :: rest))
        by (rewrite <- E; apply rev_involutive).
      rewrite <- bval_rev, bval_cons. lia.
Qed.

(** ** Round trip *)

(** C1 as stated fails: Base62 drops the zero byte, and the empty text it
    yields is rejected by the decoder. *)
Lemma round_trip_counterexample :
  decode Base62 (encode Base62 [Byte.x00]) <> Ok [Byte.x00].
Proof. discriminate. Qed.

(** Further payloads that do not come back. *)
Lemma round_trip_failures :
  decode Base62 (encode Base62 [Byte.x00; Byte.x01]) = Ok [Byte.x01] /\
  decode Base85 (encode Base85 [Byte.x01]) = Ok [Byte.x01; Byte.x00; Byte.x00; Byte.x00] /\
  decode Base85 (encode Base85 []) = Err EmptyInputRejected /\
  decode Base58 (encode Base58 [Byte.x00; Byte.x01]) = Ok [Byte.x01] /\
  decode Base32 (encode Base32 [Byte.x01; Byte.x02; Byte.x03; Byte.x04]) =
    Ok [Byte.x01; Byte.x02; Byte.x03; Byte.x04; Byte.x00].
Proof. repeat split. Qed.

(** C1 (amended): decoding the encoding of a payload gives the payload back
    for every payload under Base16 and Base64; under Base32 when its length
    is not 4 modulo 5; under Base58 when it does not start with a zero byte;
    under Base62 when it is not empty and does not start with a zero byte;
    under Base85 when it is not empty and its length is a multiple of 4. *)
Theorem round_trip (F : format) (payload : list byte) :
  round_trip_domain F payload -> decode F (encode F payload) = Ok payload.
Proof.
  destruct F; cbn [round_trip_domain decode encode]; intro H.
  - apply base16_roundtrip.
  - now apply base32_roundtrip.
  - now apply base58_roundtrip.
  - now apply base62_roundtrip.
  - apply base64_roundtrip.
  - now apply base85_roundtrip.
Qed.

Lemma round_trip_witness :
  decode Base16 (encode Base16 (cstr "Hello")) = Ok (cstr "Hello") /\
  decode Base32 (encode Base32 (cstr "Hello!!")) = Ok (cstr "Hello!!") /\
  decode Base58 (encode Base58 (cstr "Hello")) = Ok (cstr "Hello") /\
  decode Base62 (encode Base62 (cstr "Hello")) = Ok (cstr "Hello") /\
  decode Base64 (encode Base64 (cstr "Hello")) = Ok (cstr "Hello") /\
  decode Base85 (encode Base85 (cstr "Hello!!!")) = Ok (cstr "Hello!!!").
Proof.
  repeat apply conj.
  - apply (round_trip Base16). exact I.
  - apply (round_trip Base32). cbn. discriminate.
  - apply (round_trip Base58). cbn. discriminate.
  - apply (round_trip Base62). cbn. split; discriminate.
  - apply (round_trip Base64). exact I.
  - apply (round_trip Base85). cbn. split; [discriminate | reflexivity].
Defined.

(** * Further properties of the code *)

(** ** The tables *)

Lemma find_index_of_member c table :
  In c table -> tbl table (find_index c table) = c.
Proof. intro H. apply tbl_find_index. now apply find_index_present. Qed.

Lemma table_of_ok F : table_ok (table_of F) = true.
Proof. destruct F; reflexivity. Qed.

(** X1: in each of the six tables, [find_index] gives back the index of
    every symbol of the table and [-1] exactly for the characters that are
    not in it; no table holds NUL, and the tables have 16, 32, 58, 62, 64
    and 90 symbols. *)
Theorem table_lookup (F : format) :
  (forall i, 0 <= i < Z.of_nat (length (table_of F)) ->
             find_index (tbl (table_of F) i) (table_of F) = i) /\
  (forall c, In c (table_of F) ->
             0 <= find_index c (table_of F) < Z.of_nat (length (table_of F)) /\
             tbl (table_of F) (find_index c (table_of F)) = c) /\
  (forall c, find_index c (table_of F) = -1 <-> ~ In c (table_of F)) /\
  NoDup (table_of F) /\
  ~ In NUL (table_of F) /\
  map (fun G => length (table_of G)) [Base16; Base32; Base58; Base62; Base64; Base85]
  = [16; 32; 58; 62; 64; 90]%nat.
Proof.
  pose proof (table_ok_spec (table_of F) (table_of_ok F)) as Hidx.
  split; [exact Hidx|]. split; [|split; [|split; [|split]]].
  - intros c Hc. split; [|now apply find_index_of_member].
    pose proof Hc as Hc'. apply find_index_present in Hc'.
    destruct (find_index_bounds c (table_of F)); [contradiction | assumption].
  - intro c. apply find_index_absent.
  - apply (NoDup_nth (table_of F) NUL). intros i j Hi Hj E.
    assert (Ei : find_index (tbl (table_of F) (Z.of_nat i)) (table_of F) = Z.of_nat i)
      by (apply Hidx; lia).
    assert (Ej : find_index (tbl (table_of F) (Z.of_nat j)) (table_of F) = Z.of_nat j)
      by (apply Hidx; lia).
    unfold tbl in Ei, Ej. rewrite !Nat2Z.id in *. rewrite E in Ei. lia.
  - apply find_index_absent. destruct F; reflexivity.
  - reflexivity.
Qed.

Lemma table_lookup_witness :
  find_index (tbl (table_of Base58) 57) (table_of Base58) = 57 /\
  (0 <= find_index Byte.x7a (table_of Base85) < Z.of_nat (length (table_of Base85)) /\
   tbl (table_of Base85) (find_index Byte.x7a (table_of Base85)) = Byte.x7a).
Proof.
  split.
  - apply (proj1 (table_lookup Base58)). cbn. lia.
  - apply (proj1 (proj2 (table_lookup Base85))). apply find_index_present. discriminate.
Defined.

(** ** Digit arrays that may start with zero cells *)

Section StepAnyArray.

Variable radix : Z.
Hypothesis radix_range : 2 <= radix <= 256.
Variable wrap : Z -> Z.
Variable factor : Z.
Hypothesis wrap_small : wrap_ok wrap.
Hypothesis factor_range : 1 <= factor <= 256.

(** One iteration of the main loop on any array of digits: the digits stay
    below the radix, the number is multiplied and added to, and the array
    does not shrink. *)
Lemma bigint_step_digits digits carry :
  digits_ok radix digits -> 0 <= carry < 65536 ->
  digits_ok radix (bigint_step wrap radix factor digits carry) /\
  lval radix (bigint_step wrap radix factor digits carry)
  = factor * lval radix digits + carry /\
  (length digits <= length (bigint_step wrap radix factor digits carry))%nat.
Proof using radix_range wrap_small factor_range.
  intros Hok Hcarry. unfold bigint_step.
  pose proof (muladd_digits_spec radix radix_range wrap factor wrap_small factor_range
                digits carry (digits_ok_weaken radix 256 digits ltac:(lia) Hok) Hcarry) as M.
  destruct (muladd_digits wrap radix factor digits carry) as [digits' carry'].
  cbn [fst snd] in M. destruct M as [M1 [M2 [M3 M4]]].
  destruct (flush_carry_spec radix radix_range (Z.to_nat carry') carry' ltac:(lia))
    as [[Fok _] Fv].
  split; [|split].
  - apply digits_ok_app. now split.
  - rewrite lval_app, M1, Fv. lia.
  - rewrite length_app, M1. lia.
Qed.

(** When the array grows, its most significant digit is not zero. *)
Lemma bigint_step_grows digits carry :
  digits_ok radix digits -> 0 <= carry < 65536 ->
  (length digits < length (bigint_step wrap radix factor digits carry))%nat ->
  radix ^ (Z.of_nat (length (bigint_step wrap radix factor digits carry)) - 1)
  <= lval radix (bigint_step wrap radix factor digits carry).
Proof using radix_range wrap_small factor_range.
  intros Hok Hcarry. unfold bigint_step.
  pose proof (muladd_digits_spec radix radix_range wrap factor wrap_small factor_range
                digits carry (digits_ok_weaken radix 256 digits ltac:(lia) Hok) Hcarry) as M.
  destruct (muladd_digits wrap radix factor digits carry) as [digits' carry'].
  cbn [fst snd] in M. destruct M as [M1 [M2 [M3 M4]]].
  destruct (flush_carry_spec radix radix_range (Z.to_nat carry') carry' ltac:(lia))
    as [[Fok Fc] Fv].
  rewrite length_app, M1. intro Hgrow.
  destruct Fc as [E|Fc]; [rewrite E in Hgrow; cbn [length] in Hgrow; lia|].
  rewrite lval_app, M1.
  pose proof (lval_bound radix ltac:(lia) digits' M2) as B.
  replace (Z.of_nat (length digits + length (flush_carry (Z.to_nat carry') radix carry')) - 1)
    with (Z.of_nat (length digits)
          + (Z.of_nat (length (flush_carry (Z.to_nat carry') radix carry')) - 1)) by lia.
  rewrite Z.pow_add_r by lia.
  assert (0 < radix ^ Z.of_nat (length digits)) by (apply Z.pow_pos_nonneg; lia).
  nia.
Qed.

End StepAnyArray.

(** Folding the step over the digits of the input, from any array. *)
Lemma fold_step_value radix factor (step : list Z -> Z -> list Z) :
  (forall a d, digits_ok radix a -> 0 <= d < factor ->
               digits_ok radix (step a d) /\
               lval radix (step a d) = factor * lval radix a + d /\
               (length a <= length (step a d))%nat) ->
  forall digits acc,
    digits_ok radix acc -> digits_ok factor digits ->
    digits_ok radix (fold_left step digits acc) /\
    lval radix (fold_left step digits acc)
    = lval radix acc * factor ^ Z.of_nat (length digits) + bval factor digits /\
    (length acc <= length (fold_left step digits acc))%nat.
Proof.
  intros Hstep digits. induction digits as [|d ds IH] using rev_ind; intros acc Ha Hd.
  - cbn [fold_left length]. split; [exact Ha|]. split; [cbn; lia | lia].
  - apply digits_ok_app in Hd. destruct Hd as [Hds Hd].
    inversion Hd as [|? ? Hd' _]; subst.
    destruct (IH acc Ha Hds) as [IH1 [IH2 IH3]].
    rewrite fold_left_app. cbn [fold_left].
    destruct (Hstep _ d IH1 Hd') as [S1 [S2 S3]].
    split; [exact S1|]. split; [|lia].
    rewrite S2, IH2, bval_snoc, length_app. cbn [length].
    rewrite Nat2Z.inj_add, Z.pow_add_r by lia. change (factor ^ Z.of_nat 1) with (factor ^ 1).
    rewrite Z.pow_1_r. ring.
Qed.

Lemma lval_zeros radix n : lval radix (repeat 0 n) = 0.
Proof. induction n as [|n IH]; [reflexivity|]. cbn [repeat lval]. rewrite IH. lia. Qed.

Lemma digits_ok_zeros radix n : 0 < radix -> digits_ok radix (repeat 0 n).
Proof.
  intro H. apply Forall_forall. intros d Hd. apply repeat_spec in Hd. lia.
Qed.

Lemma bval_skip_zeros payload :
  bval 256 (map byte.unsigned (skipn (count_leading NUL payload) payload))
  = bval 256 (map byte.unsigned payload).
Proof.
  induction payload as [|b rest IH]; [reflexivity|].
  cbn [count_leading]. destruct (Byte.eqb b NUL) eqn:E.
  - apply byte_eqb_eq in E. subst b. cbn [skipn map]. rewrite IH.
    rewrite (bval_cons 256 (byte.unsigned NUL)). change (byte.unsigned NUL) with 0. lia.
  - reflexivity.
Qed.

Lemma base58_encode_digits_spec payload :
  digits_ok 58 (base58_encode_digits payload) /\
  lval 58 (base58_encode_digits payload) = bval 256 (map byte.unsigned payload) /\
  (count_leading NUL payload <= length (base58_encode_digits payload))%nat.
Proof.
  unfold base58_encode_digits. rewrite fold_left_unsigned.
  destruct (fold_step_value 58 256 (bigint_step u32 58 256)) with
    (digits := map byte.unsigned (skipn (count_leading NUL payload) payload))
    (acc := repeat 0 (count_leading NUL payload)) as [H1 [H2 H3]].
  - intros a d Ha Hd.
    apply (bigint_step_digits 58 ltac:(lia) u32 256 wrap_ok_u32 ltac:(lia)); [exact Ha | lia].
  - apply digits_ok_zeros. lia.
  - apply payload_digits_ok.
  - split; [exact H1|]. split.
    + rewrite H2, lval_zeros, bval_skip_zeros. lia.
    + now rewrite repeat_length in H3.
Qed.

Lemma text_digits_symbols table digits :
  (forall i, 0 <= i < Z.of_nat (length table) -> find_index (tbl table i) table = i) ->
  digits_ok (Z.of_nat (length table)) digits ->
  text_digits table (map (tbl table) digits) = digits.
Proof.
  intros Hidx H. unfold text_digits. rewrite map_map.
  induction H as [|d ds Hd _ IH]; [reflexivity|].
  cbn [map]. now rewrite Hidx, IH.
Qed.

Lemma symbols_in_table table digits :
  digits_ok (Z.of_nat (length table)) digits ->
  Forall (fun c => In c table) (map (tbl table) digits).
Proof.
  intro H. apply Forall_map. eapply Forall_impl; [|exact H].
  cbv beta. intros d Hd. now apply tbl_in.
Qed.

(** ** The texts written by the encoders *)

Lemma c_string_no_NUL text : ~ In NUL text -> c_string text = text.
Proof.
  induction text as [|c rest IH]; intro H; [reflexivity|].
  cbn [c_string]. destruct (Byte.eqb c NUL) eqn:E.
  - apply byte_eqb_eq in E. exfalso. apply H. now left.
  - f_equal. apply IH. intro Hin. apply H. now right.
Qed.

Lemma written_symbols_no_NUL F : ~ In NUL (written_symbols F).
Proof. apply find_index_absent. destruct F; reflexivity. Qed.

Lemma four_induction {A} (P : list A -> Prop) :
  P [] -> (forall a, P [a]) -> (forall a b, P [a; b]) -> (forall a b c, P [a; b; c]) ->
  (forall a b c d l, P l -> P (a :: b :: c :: d :: l)) ->
  forall l, P l.
Proof.
  intros H0 H1 H2 H3 H4 l.
  remember (length l) as n eqn:Hn. revert l Hn.
  induction n as [n IH] using lt_wf_ind. intros l Hn.
  destruct l as [|a [|b [|c [|d l]]]]; auto.
  apply H4. apply (IH (length l)); [subst n; cbn [length]; lia | reflexivity].
Qed.

Lemma base16_encode_alphabet payload :
  Forall (fun c => In c base16_table) (base16_encode payload).
Proof.
  induction payload as [|b rest IH]; [constructor|].
  cbn [base16_encode]. change base16_chars with base16_table.
  constructor; [|constructor; [|exact IH]]; apply tbl_in; rewrite land_15;
    change (Z.of_nat (length base16_table)) with 16; zlia.
Qed.

Lemma base85_tbl_written i :
  0 <= i < 85 -> In (tbl base85_table i) (firstn 85 base85_table).
Proof.
  intro Hi. unfold tbl.
  replace (nth (Z.to_nat i) base85_table NUL)
    with (nth (Z.to_nat i) (firstn 85 base85_table) NUL).
  - apply nth_In. rewrite length_firstn. change (length base85_table) with 90%nat. lia.
  - rewrite nth_firstn. replace (Z.to_nat i <? 85)%nat with true; [reflexivity|].
    symmetry. apply Nat.ltb_lt. lia.
Qed.

Lemma base85_digits_alphabet n :
  forall value block,
    Forall (fun c => In c (firstn 85 base85_table)) block ->
    Forall (fun c => In c (firstn 85 base85_table)) (base85_digits n value block).
Proof.
  induction n as [|n IH]; intros value block H; [exact H|].
  cbn [base85_digits]. apply IH. constructor; [|exact H].
  apply base85_tbl_written. zlia.
Qed.

Lemma base85_digits_length n :
  forall value block, length (base85_digits n value block) = (n + length block)%nat.
Proof.
  induction n as [|n IH]; intros value block; [reflexivity|].
  cbn [base85_digits]. rewrite IH. cbn [length]. lia.
Qed.

Lemma base85_encode_alphabet payload :
  Forall (fun c => In c (firstn 85 base85_table)) (base85_encode payload).
Proof.
  induction payload as [|b0|b0 b1|b0 b1 b2|b0 b1 b2 b3 rest IH] using four_induction;
    cbn [base85_encode]; try apply Forall_app; try split;
    try (unfold base85_encode_block; apply base85_digits_alphabet);
    try constructor; exact IH.
Qed.

Lemma base64_encode_alphabet payload :
  Forall (fun c => In c (base64_table ++ [PAD])) (base64_encode payload).
Proof.
  rewrite base64_encode_stream. unfold pad_right. apply Forall_app. split.
  - eapply Forall_impl; [|apply (stream_symbols_in_table base64_table 6); [lia | reflexivity]].
    cbv beta. intros c Hc. apply in_or_app. now left.
  - apply Forall_forall. intros c Hc. apply repeat_spec in Hc. subst c.
    apply in_or_app. right. now left.
Qed.

Lemma base62_encode_digits_ok payload : digits_ok 62 (base62_encode_digits payload).
Proof. apply (encode_digits_spec 62 payload). lia. Qed.

Lemma encode_written (F : format) (payload : list byte) :
  Forall (fun c => In c (written_symbols F)) (encode F payload).
Proof.
  destruct F; cbn [encode written_symbols table_of].
  - apply base16_encode_alphabet.
  - rewrite base32_encode_stream.
    apply (stream_symbols_in_table base32_table 5); [lia | reflexivity].
  - rewrite base58_encode_symbols. apply symbols_in_table.
    apply Forall_rev. apply base58_encode_digits_spec.
  - unfold base62_encode. apply symbols_in_table.
    apply Forall_rev. apply base62_encode_digits_ok.
  - apply base64_encode_alphabet.
  - apply base85_encode_alphabet.
Qed.

Lemma encode_no_NUL (F : format) (payload : list byte) : ~ In NUL (encode F payload).
Proof.
  intro Hin. pose proof (encode_written F payload) as H. rewrite Forall_forall in H.
  exact (written_symbols_no_NUL F (H NUL Hin)).
Qed.

(** X2: every symbol of an encoded text is one the encoder of the format can
    write: a symbol of the table, for Base64 also the pad symbol, for Base85
    one of the first 85 symbols of its table.  The text therefore holds no
    NUL, and the [strlen] that main takes before writing the file is the
    length of the whole text. *)
Theorem encoded_alphabet (F : format) (payload : list byte) :
  Forall (fun c => In c (written_symbols F)) (encode F payload) /\
  ~ In NUL (encode F payload) /\
  c_string (encode F payload) = encode F payload.
Proof.
  split; [apply encode_written|]. split; [apply encode_no_NUL|].
  apply c_string_no_NUL, encode_no_NUL.
Qed.

(** ** Lengths and allocations *)

(** If [a^q <= b^p] then a number below [a^r] has at most [r*p/q + 1]
    digits in radix [b]. *)
Lemma digits_of_power a b p q r l :
  1 < a -> 1 < b -> 0 < p -> 0 < q -> 0 <= r -> 1 <= l ->
  a ^ q <= b ^ p ->
  b ^ (l - 1) < a ^ r ->
  l - 1 <= r * p / q.
Proof.
  intros Ha Hb Hp Hq Hr Hl Hpow Hlt.
  destruct (Z_le_gt_dec (l - 1) (r * p / q)) as [|Hgt]; [assumption|exfalso].
  assert (Hrp : r * p < q * (l - 1)).
  { pose proof (Z.mul_div_le (r * p) q Hq). pose proof (Z.mod_pos_bound (r * p) q Hq).
    pose proof (Z.div_mod (r * p) q ltac:(lia)). nia. }
  assert (H1 : (a ^ r) ^ q <= (b ^ (l - 1)) ^ q).
  { rewrite <- !Z.pow_mul_r by lia.
    replace (r * q) with (q * r) by lia. rewrite (Z.pow_mul_r a q r) by lia.
    transitivity ((b ^ p) ^ r).
    - apply Z.pow_le_mono_l. split; [apply Z.pow_nonneg; lia | exact Hpow].
    - rewrite <- Z.pow_mul_r by lia. apply Z.pow_le_mono_r; lia. }
  assert (H2 : (b ^ (l - 1)) ^ q < (a ^ r) ^ q).
  { apply Z.pow_lt_mono_l; [lia|]. split; [apply Z.pow_nonneg; lia | exact Hlt]. }
  lia.
Qed.

Lemma bval_bound radix digits :
  1 < radix -> digits_ok radix digits ->
  0 <= bval radix digits < radix ^ Z.of_nat (length digits).
Proof.
  intros HR H. rewrite bval_rev, <- length_rev.
  apply (lval_bound radix HR). now apply Forall_rev.
Qed.

(** Folding the step over the input: either the array never grew, or its
    most significant digit is not zero. *)
Lemma fold_step_length radix factor (step : list Z -> Z -> list Z) (z : nat) :
  1 < radix -> 1 <= factor ->
  (forall a d, digits_ok radix a -> 0 <= d < factor ->
               digits_ok radix (step a d) /\
               lval radix (step a d) = factor * lval radix a + d /\
               (length a <= length (step a d))%nat) ->
  (forall a d, digits_ok radix a -> 0 <= d < factor ->
               (length a < length (step a d))%nat ->
               radix ^ (Z.of_nat (length (step a d)) - 1) <= lval radix (step a d)) ->
  forall digits acc,
    digits_ok radix acc -> digits_ok factor digits ->
    (length acc = z \/ radix ^ (Z.of_nat (length acc) - 1) <= lval radix acc) ->
    length (fold_left step digits acc) = z \/
    radix ^ (Z.of_nat (length (fold_left step digits acc)) - 1)
    <= lval radix (fold_left step digits acc).
Proof.
  intros HR HF Hstep Hgrow digits.
  induction digits as [|d ds IH]; intros acc Ha Hd Hacc; [exact Hacc|].
  inversion Hd as [|? ? Hd1 Hd2]; subst. cbn [fold_left].
  destruct (Hstep acc d Ha Hd1) as [S1 [S2 S3]].
  apply IH; [exact S1 | exact Hd2 |].
  destruct (Nat.eq_dec (length (step acc d)) (length acc)) as [E|E].
  - destruct Hacc as [Hz|Hv]; [left; lia|]. right. rewrite E, S2.
    pose proof (lval_bound radix HR acc Ha). nia.
  - right. apply Hgrow; try assumption. lia.
Qed.

Lemma base58_encode_digits_length payload :
  (length (base58_encode_digits payload) <= length payload * 138 / 100 + 1)%nat.
Proof.
  pose proof (base58_encode_digits_spec payload) as [Hok [Hv Hz]].
  assert (Hshape :
    length (base58_encode_digits payload) = count_leading NUL payload \/
    58 ^ (Z.of_nat (length (base58_encode_digits payload)) - 1)
    <= lval 58 (base58_encode_digits payload)).
  { unfold base58_encode_digits. rewrite fold_left_unsigned.
    apply (fold_step_length 58 256 (bigint_step u32 58 256)); try lia.
    - intros a d Ha Hd.
      apply (bigint_step_digits 58 ltac:(lia) u32 256 wrap_ok_u32 ltac:(lia)); [exact Ha | lia].
    - intros a d Ha Hd.
      apply (bigint_step_grows 58 ltac:(lia) u32 256 wrap_ok_u32 ltac:(lia)); [exact Ha | lia].
    - apply digits_ok_zeros. lia.
    - apply payload_digits_ok.
    - left. apply repeat_length. }
  assert (Hzn : (count_leading NUL payload <= length payload)%nat).
  { clear. induction payload as [|b rest IH]; [reflexivity|].
    cbn [count_leading length]. destruct (Byte.eqb b NUL); lia. }
  destruct Hshape as [E|Hv'].
  - rewrite E. apply Nat.le_trans with (length payload); [exact Hzn|].
    apply Nat.le_trans with (length payload * 138 / 100)%nat; [|lia].
    apply Nat.div_le_lower_bound; lia.
  - set (l := length (base58_encode_digits payload)) in *.
    destruct (Nat.eq_dec l 0) as [E0|Hl]; [lia|].
    pose proof (bval_bound 256 (map byte.unsigned payload) ltac:(lia)
                  (payload_digits_ok payload)) as B.
    rewrite length_map in B.
    pose proof (digits_of_power 256 58 138 100 (Z.of_nat (length payload)) (Z.of_nat l)
                  ltac:(lia) ltac:(lia) ltac:(lia) ltac:(lia) ltac:(lia) ltac:(lia)
                  ltac:(vm_compute; discriminate) ltac:(lia)) as D.
    apply Nat2Z.inj_le. rewrite Nat2Z.inj_add, Nat2Z.inj_div, Nat2Z.inj_mul.
    change (Z.of_nat 138) with 138. change (Z.of_nat 100) with 100.
    change (Z.of_nat 1) with 1. lia.
Qed.

Lemma base62_encode_digits_length payload :
  (length (base62_encode_digits payload) <= length payload * 2)%nat.
Proof.
  destruct (encode_digits_spec 62 payload ltac:(lia)) as [[Hok Hc] Hv].
  fold (base62_encode_digits payload) in *.
  set (l := length (base62_encode_digits payload)) in *.
  destruct Hc as [E|Hc]; [subst l; rewrite E; cbn [length]; lia|].
  destruct (Nat.eq_dec l 0) as [E0|Hl]; [lia|].
  pose proof (bval_bound 256 (map byte.unsigned payload) ltac:(lia)
                (payload_digits_ok payload)) as B.
  rewrite length_map in B.
  pose proof (digits_of_power 256 62 135 100 (Z.of_nat (length payload)) (Z.of_nat l)
                ltac:(lia) ltac:(lia) ltac:(lia) ltac:(lia) ltac:(lia) ltac:(lia)
                ltac:(vm_compute; discriminate) ltac:(lia)) as D.
  destruct (Nat.eq_dec (length payload) 0) as [En|Hn].
  - rewrite En in *. change (Z.of_nat 0 * 135 / 100) with 0 in D. lia.
  - assert (Z.of_nat (length payload) * 135 / 100 + 1 <= Z.of_nat (length payload) * 2)
      by zlia.
    lia.
Qed.

Lemma base64_encode_length payload :
  length (base64_encode payload) = (4 * ((length payload + 2) / 3))%nat.
Proof.
  induction payload as [|b0|b0 b1|b0 b1 b2 rest IH] using triple_induction;
    try reflexivity.
  cbn [base64_encode length]. rewrite IH.
  replace (S (S (S (length rest))) + 2)%nat with (1 * 3 + (length rest + 2))%nat by lia.
  rewrite Nat.div_add_l by lia. lia.
Qed.

Lemma base85_encode_length payload :
  length (base85_encode payload) = ((length payload + 3) / 4 * 5)%nat.
Proof.
  induction payload as [|b0|b0 b1|b0 b1 b2|b0 b1 b2 b3 rest IH] using four_induction;
    try reflexivity.
  cbn [base85_encode]. rewrite length_app, IH. unfold base85_encode_block.
  rewrite base85_digits_length. cbn [length].
  replace (S (S (S (S (length rest)))) + 3)%nat with (1 * 4 + (length rest + 3))%nat by lia.
  rewrite Nat.div_add_l by lia. lia.
Qed.

Lemma base32_encode_length payload :
  length (base32_encode payload) = ((length payload * 8 + 4) / 5)%nat.
Proof.
  rewrite base32_encode_stream.
  pose proof (stream_symbols_length base32_table 5 payload ltac:(lia)) as H.
  set (L := length (stream_symbols base32_table 5 payload)) in *.
  apply Nat.div_unique with (r := (length payload * 8 + 4 - 5 * L)%nat); lia.
Qed.

(** X3: the length of every encoded text.  Base16, Base32, Base64 and Base85
    write exactly [2 * len], [(len * 8 + 4) / 5], [4 * ((len + 2) / 3)] and
    [((len + 3) / 4) * 5] symbols, the sizes computed in the source; the
    digit arrays of base58_encode and base62_encode, whose lengths are the
    lengths of the texts, never grow beyond the [len * 138 / 100 + 1] and
    [len * 2] cells that are allocated for them. *)
Theorem encoded_length (payload : list byte) :
  length (base16_encode payload) = (2 * length payload)%nat /\
  length (base32_encode payload) = ((length payload * 8 + 4) / 5)%nat /\
  length (base64_encode payload) = (4 * ((length payload + 2) / 3))%nat /\
  length (base85_encode payload) = ((length payload + 3) / 4 * 5)%nat /\
  (length (base58_encode payload) = length (base58_encode_digits payload) /\
   length (base58_encode_digits payload) <= length payload * 138 / 100 + 1)%nat /\
  (length (base62_encode payload) = length (base62_encode_digits payload) /\
   length (base62_encode_digits payload) <= length payload * 2)%nat.
Proof.
  split; [apply base16_encode_length|]. split; [apply base32_encode_length|].
  split; [apply base64_encode_length|]. split; [apply base85_encode_length|].
  split; split.
  - rewrite base58_encode_symbols. now rewrite length_map, length_rev.
  - apply base58_encode_digits_length.
  - unfold base62_encode. now rewrite length_map, length_rev.
  - apply base62_encode_digits_length.
Qed.

(** ** The numbers written by base58_encode and base62_encode *)

Lemma bval_of_rev radix digits : bval radix (rev digits) = lval radix digits.
Proof. now rewrite bval_rev, rev_involutive. Qed.

(** X4: read as a number in radix 58 (62), most significant digit first, the
    text of base58_encode (base62_encode) is the number that the payload is
    in radix 256, for every payload; the Base58 text has at least one symbol
    for each leading zero byte. *)
Theorem big_integer_encoding (payload : list byte) :
  bval 58 (text_digits base58_table (base58_encode payload))
  = bval 256 (map byte.unsigned payload) /\
  bval 62 (text_digits base62_table (base62_encode payload))
  = bval 256 (map byte.unsigned payload) /\
  (count_leading NUL payload <= length (base58_encode payload))%nat.
Proof.
  destruct (base58_encode_digits_spec payload) as [Hok [Hv Hz]].
  destruct (encode_digits_spec 62 payload ltac:(lia)) as [[Hok' _] Hv'].
  split; [|split].
  - rewrite base58_encode_symbols, text_digits_symbols.
    + now rewrite bval_of_rev.
    + apply (table_ok_spec base58_table). reflexivity.
    + now apply Forall_rev.
  - unfold base62_encode, base62_encode_digits. rewrite text_digits_symbols.
    + now rewrite bval_of_rev.
    + apply (table_ok_spec base62_table). reflexivity.
    + now apply Forall_rev.
  - rewrite base58_encode_symbols. now rewrite length_map, length_rev.
Qed.

(** ** base58_decode and base62_decode on every input *)

Lemma text_digits_ok table text :
  Forall (fun c => In c table) text ->
  digits_ok (Z.of_nat (length table)) (text_digits table text) /\
  map (tbl table) (text_digits table text) = text.
Proof.
  induction 1 as [|c rest Hc _ [IH1 IH2]]; [split; [constructor | reflexivity]|].
  cbn [text_digits map]. split.
  - constructor; [|exact IH1].
    pose proof Hc as Hc'. apply find_index_present in Hc'.
    destruct (find_index_bounds c table); [contradiction | assumption].
  - f_equal; [now apply find_index_of_member | exact IH2].
Qed.

Lemma count_leading_split c input :
  input = repeat c (count_leading c input) ++ skipn (count_leading c input) input.
Proof.
  induction input as [|b rest IH]; [reflexivity|].
  cbn [count_leading]. destruct (Byte.eqb b c) eqn:E; [|reflexivity].
  apply byte_eqb_eq in E. subst b. cbn [repeat skipn app]. now rewrite <- IH.
Qed.

Lemma rev_repeat_app {A} (a : A) n l : rev (repeat a n ++ l) = rev l ++ repeat a n.
Proof.
  rewrite rev_app_distr. f_equal.
  induction n as [|n IH]; [reflexivity|].
  cbn [repeat rev]. rewrite IH. symmetry. apply repeat_cons.
Qed.

Lemma base58_decode_loop_invalid input :
  (exists c, In c input /\ ~ In c base58_table) ->
  forall output,
    (exists e, base58_decode_loop input output = Err e) /\
    forall e, base58_decode_loop input output = Err e -> e = InvalidCharacterError.
Proof.
  induction input as [|c rest IH]; intros [x [Hin Hx]] output; [destruct Hin|].
  cbn [base58_decode_loop].
  destruct (find_index c base58_table =? -1) eqn:E.
  - split; [now exists InvalidCharacterError | intros e He; now inversion He].
  - apply IH. exists x. split; [|exact Hx].
    destruct Hin as [->|Hin]; [|exact Hin].
    exfalso. apply Hx. apply find_index_present. lia.
Qed.

Lemma bytes_of_digits output :
  digits_ok 256 output ->
  map byte.unsigned (map byte.of_Z (rev output)) = rev output.
Proof.
  intro H. rewrite map_map. rewrite <- (map_id (rev output)) at 2.
  apply map_ext_in. intros d Hd. apply of_Z_small.
  apply in_rev in Hd. unfold digits_ok in H. rewrite Forall_forall in H. now apply H.
Qed.

Lemma canon_bytes_head output :
  canon 256 output -> hd_error (map byte.of_Z (rev output)) <> Some NUL.
Proof.
  intro Hc. pose proof Hc as [Hok _].
  destruct (canon_rev_head 256 ltac:(lia) output Hc) as [E|[d [rest [E Hd]]]];
    rewrite E; cbn [map hd_error]; [discriminate|].
  intro H. inversion H as [H0]. apply Hd.
  assert (Hin : In d output) by (apply in_rev; rewrite E; now left).
  unfold digits_ok in Hok. rewrite Forall_forall in Hok. specialize (Hok d Hin).
  rewrite <- (of_Z_small d Hok), H0. reflexivity.
Qed.

(** X5: base58_decode on every input.  A symbol that is not in the table
    gives NULL.  Otherwise the symbols after the leading ['1'] symbols are
    read as a number in radix 58 and written as its big-endian bytes
    without a leading zero byte, and one zero byte for each leading ['1'] is
    put after these bytes, at the end of the output. *)
Theorem base58_decode_cases (input : list byte) :
  let zero_count := count_leading (tbl base58_table 0) input in
  ((exists c, In c input /\ ~ In c base58_table) ->
   base58_decode input = Err InvalidCharacterError) /\
  ((forall c, In c input -> In c base58_table) ->
   exists bytes,
     base58_decode input = Ok (bytes ++ repeat NUL zero_count) /\
     bval 256 (map byte.unsigned bytes)
     = bval 58 (text_digits base58_table (skipn zero_count input)) /\
     hd_error bytes <> Some NUL).
Proof.
  intro zero_count. split.
  - intros [c [Hin Hc]]. unfold base58_decode. fold zero_count.
    assert (Hbody : In c (skipn zero_count input)).
    { rewrite (count_leading_split (tbl base58_table 0) input) in Hin. fold zero_count in Hin.
      apply in_app_or in Hin. destruct Hin as [Hin|Hin]; [|exact Hin].
      apply repeat_spec in Hin. subst c. exfalso. apply Hc. apply tbl_in. cbn. lia. }
    destruct (base58_decode_loop_invalid (skipn zero_count input)
                (ex_intro _ c (conj Hbody Hc)) []) as [[e He] Hk].
    rewrite He. cbn [bind]. f_equal. now apply Hk.
  - intro Hall. unfold base58_decode. fold zero_count.
    set (body := skipn zero_count input).
    assert (Hbody : Forall (fun c => In c base58_table) body).
    { apply Forall_forall. intros c Hc. apply Hall.
      rewrite (count_leading_split (tbl base58_table 0) input). fold zero_count.
      apply in_or_app. now right. }
    destruct (text_digits_ok base58_table body Hbody) as [Hd Ht].
    change (Z.of_nat (length base58_table)) with 58 in Hd.
    pose proof (base58_decode_loop_digits _ Hd []) as Hloop. rewrite Ht in Hloop.
    rewrite Hloop. cbn [bind].
    destruct (fold_step_spec 256 58 (bigint_step sint 256 58)) with
      (digits := text_digits base58_table body) (acc := @nil Z) as [Hc Hv].
    { intros a d Ha Hd'. apply bigint_step_spec; try assumption; try lia.
      apply wrap_ok_sint. }
    { apply canon_nil. }
    { exact Hd. }
    set (output := fold_left _ _ _) in *.
    exists (map byte.of_Z (rev output)). split; [|split].
    + f_equal. destruct (0 <? zero_count)%nat eqn:Ez.
      * rewrite rev_repeat_app, map_app, map_repeat. reflexivity.
      * apply Nat.ltb_ge in Ez. replace zero_count with 0%nat by lia.
        cbn [repeat]. now rewrite app_nil_r.
    + rewrite bytes_of_digits by apply Hc. rewrite bval_of_rev, Hv. cbn [lval]. lia.
    + now apply canon_bytes_head.
Qed.

Lemma base58_decode_cases_witness :
  base58_decode (cstr "1O") = Err InvalidCharacterError /\
  exists bytes,
    base58_decode (cstr "112j") = Ok (bytes ++ repeat NUL 2) /\
    bval 256 (map byte.unsigned bytes) = bval 58 (text_digits base58_table (cstr "2j")) /\
    hd_error bytes <> Some NUL.
Proof.
  split.
  - apply (proj1 (base58_decode_cases (cstr "1O"))).
    exists Byte.x4f. split; [right; now left|].
    apply find_index_absent. reflexivity.
  - apply (proj2 (base58_decode_cases (cstr "112j"))).
    intros c Hc. apply find_index_present.
    cbn in Hc. repeat (destruct Hc as [<-|Hc]; [discriminate|]). destruct Hc.
Defined.

(** The buffer of base62_decode is [0] or the bytes of its number without a
    zero most significant byte. *)
Lemma base62_decode_step_shape buffer digit :
  (buffer = [0] \/ (canon 256 buffer /\ buffer <> [])) -> 0 <= digit < 62 ->
  (base62_decode_step buffer digit = [0] \/
   (canon 256 (base62_decode_step buffer digit) /\ base62_decode_step buffer digit <> [])) /\
  lval 256 (base62_decode_step buffer digit) = 62 * lval 256 buffer + digit.
Proof.
  intros [->|[Hc Hn]] Hd.
  - rewrite base62_decode_step_first by exact Hd. split; [|cbn [lval]; lia].
    destruct (Z.eq_dec digit 0) as [->|Hz]; [now left|]. right. split; [|discriminate].
    split; [constructor; [lia | constructor]|]. right. cbn. lia.
  - destruct (base62_decode_step_spec buffer digit Hc Hd) as [Hc' Hv].
    split; [|exact Hv]. right. split; [exact Hc'|]. intro E. rewrite E in Hv.
    destruct Hc as [Hok [E'|Hp]]; [contradiction|].
    assert (0 < 256 ^ (Z.of_nat (length buffer) - 1)).
    { apply Z.pow_pos_nonneg; [lia|]. destruct buffer; [contradiction | cbn [length]; lia]. }
    cbn [lval] in Hv. lia.
Qed.

Lemma base62_decode_fold_shape digits :
  digits_ok 62 digits ->
  forall buffer,
    (buffer = [0] \/ (canon 256 buffer /\ buffer <> [])) ->
    (fold_left base62_decode_step digits buffer = [0] \/
     (canon 256 (fold_left base62_decode_step digits buffer) /\
      fold_left base62_decode_step digits buffer <> [])) /\
    lval 256 (fold_left base62_decode_step digits buffer)
    = lval 256 buffer * 62 ^ Z.of_nat (length digits) + bval 62 digits.
Proof.
  induction digits as [|d ds IH] using rev_ind; intros Hd buffer Hb.
  - cbn [fold_left length]. split; [exact Hb | cbn; lia].
  - apply digits_ok_app in Hd. destruct Hd as [Hds Hd].
    inversion Hd as [|? ? Hd' _]; subst.
    destruct (IH Hds buffer Hb) as [IH1 IH2].
    rewrite fold_left_app. cbn [fold_left].
    destruct (base62_decode_step_shape _ d IH1 Hd') as [S1 S2].
    split; [exact S1|].
    rewrite S2, IH2, bval_snoc, length_app. cbn [length].
    rewrite Nat2Z.inj_add, Z.pow_add_r by lia. change (62 ^ Z.of_nat 1) with 62. ring.
Qed.

(** X6: base62_decode on every input.  The empty input gives NULL, and so
    does an input with a symbol that is not in the table.  Any other input
    is read as a number in radix 62 and gives the big-endian bytes of that
    number: the single byte 0 for the number zero, otherwise bytes without
    a leading zero byte. *)
Theorem base62_decode_cases (input : list byte) :
  (input = [] -> base62_decode input = Err EmptyInputRejected) /\
  (input <> [] -> (exists c, In c input /\ ~ In c base62_table) ->
   base62_decode input = Err InvalidCharacterError) /\
  (input <> [] -> (forall c, In c input -> In c base62_table) ->
   exists bytes,
     base62_decode input = Ok bytes /\
     bval 256 (map byte.unsigned bytes) = bval 62 (text_digits base62_table input) /\
     (bytes = [NUL] \/ (bytes <> [] /\ hd_error bytes <> Some NUL))).
Proof.
  split; [intros ->; reflexivity|].
  assert (Hlen : input <> [] -> (length input =? 0)%nat = false).
  { intro H. apply Nat.eqb_neq. destruct input; [contradiction | discriminate]. }
  split.
  - intros Hne [c [Hin Hc]]. unfold base62_decode. rewrite (Hlen Hne).
    replace (existsb _ input) with true; [reflexivity|].
    symmetry. apply existsb_exists. exists c. split; [exact Hin|].
    apply Z.eqb_eq. now apply find_index_absent.
  - intros Hne Hall. unfold base62_decode. rewrite (Hlen Hne).
    assert (Hin : Forall (fun c => In c base62_table) input) by now apply Forall_forall.
    destruct (text_digits_ok base62_table input Hin) as [Hd Ht].
    change (Z.of_nat (length base62_table)) with 62 in Hd.
    pose proof (base62_symbols_valid _ Hd) as Hvalid. rewrite Ht in Hvalid.
    pose proof (base62_decode_fold _ Hd [0]) as Hfold. rewrite Ht in Hfold.
    rewrite Hvalid, Hfold.
    destruct (base62_decode_fold_shape _ Hd [0] (or_introl eq_refl)) as [Hs Hv].
    set (buffer := fold_left base62_decode_step _ _) in *.
    exists (map byte.of_Z (rev buffer)). split; [reflexivity|]. split.
    + rewrite bytes_of_digits, bval_of_rev, Hv; [cbn [lval]; lia|].
      destruct Hs as [->|[Hc _]]; [constructor; [lia | constructor] | apply Hc].
    + destruct Hs as [->|[Hc Hn]]; [now left|]. right. split.
      * intro E. apply Hn. apply map_eq_nil in E.
        rewrite <- (rev_involutive buffer), E. reflexivity.
      * now apply canon_bytes_head.
Qed.

Lemma base62_decode_cases_witness :
  base62_decode [] = Err EmptyInputRejected /\
  base62_decode (cstr "a-") = Err InvalidCharacterError /\
  exists bytes,
    base62_decode (cstr "00Zz") = Ok bytes /\
    bval 256 (map byte.unsigned bytes) = bval 62 (text_digits base62_table (cstr "00Zz")) /\
    (bytes = [NUL] \/ (bytes <> [] /\ hd_error bytes <> Some NUL)).
Proof.
  split; [|split].
  - apply (proj1 (base62_decode_cases [])). reflexivity.
  - apply (proj1 (proj2 (base62_decode_cases (cstr "a-")))); [discriminate|].
    exists Byte.x2d. split; [right; now left|].
    apply find_index_absent. reflexivity.
  - apply (proj2 (proj2 (base62_decode_cases (cstr "00Zz")))); [discriminate|].
    intros c Hc. apply find_index_present.
    cbn in Hc. repeat (destruct Hc as [<-|Hc]; [discriminate|]). destruct Hc.
Defined.

(** ** The sizes of the decoders' outputs *)

Lemma Ok_inj {A} (a b : A) : Ok a = Ok b -> a = b.
Proof. intro H. now inversion H. Qed.

Lemma base64_decode_group_size c0 c1 c2 c3 bytes :
  base64_decode_group c0 c1 c2 c3 = Ok bytes -> (1 <= length bytes <= 3)%nat.
Proof.
  unfold base64_decode_group.
  destruct (group_indices base64_table [c0; c1; c2; c3]); cbn [bind]; [|discriminate].
  intro H. apply Ok_inj in H. rewrite <- H. clear H.
  rewrite !length_app, !emit_if_length. cbn [length].
  destruct (not_pad c2), (not_pad c3); lia.
Qed.

Lemma base32_decode_group_size c0 c1 c2 c3 c4 c5 c6 c7 bytes :
  base32_decode_group c0 c1 c2 c3 c4 c5 c6 c7 = Ok bytes -> (1 <= length bytes <= 5)%nat.
Proof.
  unfold base32_decode_group.
  destruct (group_indices base32_table [c0; c1; c2; c3; c4; c5; c6; c7]);
    cbn [bind]; [|discriminate].
  intro H. apply Ok_inj in H. rewrite <- H. clear H.
  rewrite !length_app, !emit_if_length. cbn [length].
  destruct (not_pad c2), (not_pad c4), (not_pad c5), (not_pad c6); lia.
Qed.

Lemma base64_decode_groups_size padded :
  (length padded mod 4 = 0)%nat ->
  forall out, base64_decode_groups padded = Ok out ->
              (length padded <= 4 * length out /\ 4 * length out <= 3 * length padded)%nat.
Proof.
  intro Hlen. by_groups4 padded Hlen.
  - intros out H. inversion H. cbn [length]. lia.
  - intros out. cbn [base64_decode_groups].
    destruct (base64_decode_group c0 c1 c2 c3) as [bytes|] eqn:E; cbn [bind]; [|discriminate].
    destruct (base64_decode_groups rest) as [out'|]; cbn [bind]; [|discriminate].
    intro H. inversion H; subst. apply base64_decode_group_size in E.
    specialize (IH out' eq_refl). rewrite length_app. cbn [length]. lia.
Qed.

Lemma base32_decode_groups_size padded :
  (length padded mod 8 = 0)%nat ->
  forall out, base32_decode_groups padded = Ok out ->
              (length padded <= 8 * length out /\ 8 * length out <= 5 * length padded)%nat.
Proof.
  intro Hlen. by_groups8 padded Hlen.
  - intros out H. inversion H. cbn [length]. lia.
  - intros out. cbn [base32_decode_groups].
    destruct (base32_decode_group c0 c1 c2 c3 c4 c5 c6 c7) as [bytes|] eqn:E;
      cbn [bind]; [|discriminate].
    destruct (base32_decode_groups rest) as [out'|]; cbn [bind]; [|discriminate].
    intro H. inversion H; subst. apply base32_decode_group_size in E.
    specialize (IH out' eq_refl). rewrite length_app. cbn [length]. lia.
Qed.

Lemma padded_input_size input (m : nat) :
  (0 < m)%nat ->
  Z.of_nat (length (padded_input input (Z.of_nat m)))
  = padded_length (Z.of_nat (length input)) (Z.of_nat m).
Proof.
  intro Hm. unfold padded_input. rewrite length_app, strncpy_length, repeat_length.
  rewrite padded_length_spec by lia.
  pose proof (Z.mod_pos_bound (- Z.of_nat (length input)) (Z.of_nat m) ltac:(lia)). lia.
Qed.

(** X7: when base64_decode (base32_decode) returns an output, it holds at
    least one byte and at most three (five) bytes for each group of four
    (eight) symbols of the padded input: the output never exceeds the
    [estimated_size = (padded_len / 4) * 3] ([(padded_len / 8) * 5]) bytes
    that are allocated for it. *)
Theorem decoded_size (input out : list byte) :
  (base64_decode input = Ok out ->
   let padded_len := padded_length (Z.of_nat (length input)) 4 in
   padded_len / 4 <= Z.of_nat (length out) <= padded_len / 4 * 3) /\
  (base32_decode input = Ok out ->
   let padded_len := padded_length (Z.of_nat (length input)) 8 in
   padded_len / 8 <= Z.of_nat (length out) <= padded_len / 8 * 5).
Proof.
  split; intros H padded_len; subst padded_len.
  - pose proof (padded_input_length input 4 ltac:(lia)) as Hm.
    pose proof (base64_decode_groups_size _ Hm out H) as Hs.
    pose proof (padded_input_size input 4 ltac:(lia)) as Hp.
    change (Z.of_nat 4) with 4 in *. rewrite <- Hp.
    set (L := length (padded_input input 4)) in *. nlia.
  - pose proof (padded_input_length input 8 ltac:(lia)) as Hm.
    pose proof (base32_decode_groups_size _ Hm out H) as Hs.
    pose proof (padded_input_size input 8 ltac:(lia)) as Hp.
    change (Z.of_nat 8) with 8 in *. rewrite <- Hp.
    set (L := length (padded_input input 8)) in *. nlia.
Qed.

Lemma decoded_size_witness :
  (2 <= Z.of_nat (length [Byte.x4d; Byte.x61; Byte.x6e; Byte.x4d]) <= 6) /\
  (1 <= Z.of_nat (length [Byte.x66; Byte.x6f]) <= 5).
Proof.
  split.
  - apply (proj1 (decoded_size (cstr "TWFuTQ") [Byte.x4d; Byte.x61; Byte.x6e; Byte.x4d])).
    reflexivity.
  - apply (proj2 (decoded_size (cstr "MZXQ") [Byte.x66; Byte.x6f])).
    reflexivity.
Defined.

Lemma base58_decode_loop_valid input :
  forall output result,
    base58_decode_loop input output = Ok result ->
    Forall (fun c => In c base58_table) input.
Proof.
  induction input as [|c rest IH]; intros output result H; [constructor|].
  cbn [base58_decode_loop] in H.
  destruct (find_index c base58_table =? -1) eqn:E; [discriminate|].
  constructor; [apply find_index_present; lia | eapply IH; exact H].
Qed.

(** X8: the byte array that base58_decode builds from the symbols after the
    leading ['1'] symbols never grows beyond the
    [(len - zero_count) * 733 / 1000 + 1] bytes allocated for it. *)
Theorem base58_decode_allocation (symbols : list byte) (output : list Z) :
  base58_decode_loop symbols [] = Ok output ->
  (length output <= length symbols * 733 / 1000 + 1)%nat.
Proof.
  intro H. pose proof (base58_decode_loop_valid _ _ _ H) as Hall.
  destruct (text_digits_ok base58_table symbols Hall) as [Hd Ht].
  change (Z.of_nat (length base58_table)) with 58 in Hd.
  pose proof (base58_decode_loop_digits _ Hd []) as Hloop. rewrite Ht, H in Hloop.
  inversion Hloop as [Hout]. clear Hloop.
  destruct (fold_step_spec 256 58 (bigint_step sint 256 58)) with
    (digits := text_digits base58_table symbols) (acc := @nil Z) as [[Hok Hc] Hv].
  { intros a d Ha Hd'. apply bigint_step_spec; try assumption; try lia.
    apply wrap_ok_sint. }
  { apply canon_nil. }
  { exact Hd. }
  rewrite <- Hout in *.
  destruct Hc as [E|Hc]; [rewrite E; cbn [length]; lia|].
  destruct (Nat.eq_dec (length output) 0) as [E0|Hl]; [lia|].
  pose proof (bval_bound 58 (text_digits base58_table symbols) ltac:(lia) Hd) as B.
  assert (Hlen : length (text_digits base58_table symbols) = length symbols)
    by (unfold text_digits; apply length_map).
  rewrite Hlen in B. cbn [lval] in Hv.
  pose proof (digits_of_power 58 256 733 1000 (Z.of_nat (length symbols))
                (Z.of_nat (length output))
                ltac:(lia) ltac:(lia) ltac:(lia) ltac:(lia) ltac:(lia) ltac:(lia)
                ltac:(vm_compute; discriminate) ltac:(lia)) as D.
  apply Nat2Z.inj_le. rewrite Nat2Z.inj_add, Nat2Z.inj_div, Nat2Z.inj_mul.
  change (Z.of_nat 733) with 733. change (Z.of_nat 1000) with 1000.
  change (Z.of_nat 1) with 1. lia.
Qed.

Lemma base58_decode_allocation_witness :
  (length [9; 60] <= length (cstr "5Zz") * 733 / 1000 + 1)%nat.
Proof.
  apply (base58_decode_allocation (cstr "5Zz") [9; 60]).
  vm_compute. reflexivity.
Defined.

(** ** Round trips on all payloads: Base85 and Base32 *)

Lemma base85_pack_padded block :
  (length block <= 4)%nat ->
  base85_pack (block ++ repeat NUL (4 - length block)) = base85_pack block.
Proof.
  intro H.
  destruct block as [|b0 [|b1 [|b2 [|b3 [|b4 rest]]]]];
    try (cbn [length] in H; lia);
    unfold base85_pack; cbn [length Nat.sub repeat app fold_left];
    change (byte.unsigned NUL) with 0; rewrite ?Z.lor_0_r; reflexivity.
Qed.

Lemma base85_encode_zero_fill payload :
  base85_encode (zero_fill 4 payload) = base85_encode payload.
Proof.
  unfold zero_fill.
  induction payload as [|b0|b0 b1|b0 b1 b2|b0 b1 b2 b3 rest IH] using four_induction.
  - reflexivity.
  - cbn [length Nat.modulo Nat.divmod fst snd Nat.sub repeat app base85_encode].
    unfold base85_encode_block. rewrite app_nil_r. f_equal.
    apply (base85_pack_padded [b0]). cbn [length]. lia.
  - cbn [length Nat.modulo Nat.divmod fst snd Nat.sub repeat app base85_encode].
    unfold base85_encode_block. rewrite app_nil_r. f_equal.
    apply (base85_pack_padded [b0; b1]). cbn [length]. lia.
  - cbn [length Nat.modulo Nat.divmod fst snd Nat.sub repeat app base85_encode].
    unfold base85_encode_block. rewrite app_nil_r. f_equal.
    apply (base85_pack_padded [b0; b1; b2]). cbn [length]. lia.
  - replace (length (b0 :: b1 :: b2 :: b3 :: rest) mod 4)%nat with (length rest mod 4)%nat
      by (cbn [length]; nlia).
    rewrite <- !app_comm_cons. rewrite !base85_encode_cons4. now rewrite IH.
Qed.

Lemma zero_fill_length (m : nat) payload :
  (0 < m)%nat -> (length (zero_fill m payload) mod m = 0)%nat.
Proof.
  intro Hm. unfold zero_fill. rewrite length_app, repeat_length.
  pose proof (Nat.mod_upper_bound (length payload) m ltac:(lia)).
  pose proof (Nat.div_mod_eq (length payload) m).
  set (r := (length payload mod m)%nat) in *. set (q := (length payload / m)%nat) in *.
  destruct (Nat.eq_dec r 0) as [E|E].
  - rewrite E, Nat.sub_0_r, Nat.Div0.mod_same, Nat.add_0_r.
    replace (length payload) with (q * m)%nat by lia. apply Nat.Div0.mod_mul.
  - rewrite (Nat.mod_small (m - r) m) by lia.
    replace (length payload + (m - r))%nat with ((q + 1) * m)%nat by lia.
    apply Nat.Div0.mod_mul.
Qed.

(** X9: base85_decode after base85_encode gives back every non-empty
    payload followed by the zero bytes that fill its last block of four:
    the decoder does not remove the fill of a short last block. *)
Theorem base85_round_trip_zero_filled (payload : list byte) :
  payload <> [] ->
  base85_decode (base85_encode payload)
  = Ok (payload ++ repeat NUL ((4 - length payload mod 4) mod 4)).
Proof.
  intro Hne. rewrite <- base85_encode_zero_fill.
  apply base85_roundtrip.
  - unfold zero_fill. destruct payload; [contradiction | discriminate].
  - apply zero_fill_length. lia.
Qed.

Lemma base85_round_trip_zero_filled_witness :
  base85_decode (base85_encode (cstr "hello")) = Ok (cstr "hello" ++ [NUL; NUL; NUL]).
Proof.
  apply (base85_round_trip_zero_filled (cstr "hello")). discriminate.
Defined.

Lemma base32_symbols_4 b0 b1 b2 b3 :
  let W := (((byte.unsigned b0 * 256 + byte.unsigned b1) * 256 + byte.unsigned b2) * 256
            + byte.unsigned b3) * 8 in
  map (group_symbol base32_table 5)
      (chunks 5 (byte_bits b0 ++ byte_bits b1 ++ byte_bits b2 ++ byte_bits b3)) =
  [tbl base32_table (W / 1073741824 mod 32); tbl base32_table (W / 33554432 mod 32);
   tbl base32_table (W / 1048576 mod 32); tbl base32_table (W / 32768 mod 32);
   tbl base32_table (W / 1024 mod 32); tbl base32_table (W / 32 mod 32);
   tbl base32_table (W mod 32)].
Proof.
  intro W. subst W.
  pose proof (unsigned_bound b0) as H0. pose proof (unsigned_bound b1) as H1.
  pose proof (unsigned_bound b2) as H2. pose proof (unsigned_bound b3) as H3.
  set (B := byte_bits b0 ++ byte_bits b1 ++ byte_bits b2 ++ byte_bits b3).
  assert (HV : bits_value B =
               ((byte.unsigned b0 * 256 + byte.unsigned b1) * 256 + byte.unsigned b2) * 256
               + byte.unsigned b3).
  { subst B. rewrite !bits_value_app, !byte_bits_value, !length_app, !byte_bits_length.
    pow2. lia. }
  destruct (bits_split 5 27 B eq_refl) as [g0 [r0 [E0 [L0 [M0 [V0 [B0 _]]]]]]].
  destruct (bits_split 5 22 r0 M0) as [g1 [r1 [E1 [L1 [M1 [V1 [B1 _]]]]]]].
  destruct (bits_split 5 17 r1 M1) as [g2 [r2 [E2 [L2 [M2 [V2 [B2 _]]]]]]].
  destruct (bits_split 5 12 r2 M2) as [g3 [r3 [E3 [L3 [M3 [V3 [B3 _]]]]]]].
  destruct (bits_split 5 7 r3 M3) as [g4 [r4 [E4 [L4 [M4 [V4 [B4 _]]]]]]].
  destruct (bits_split 5 2 r4 M4) as [g5 [g6 [E5 [L5 [L6 [V5 [B5 B6]]]]]]].
  clearbody B. subst B r0 r1 r2 r3 r4.
  rewrite (chunks_app 5 g0), (chunks_app 5 g1), (chunks_app 5 g2), (chunks_app 5 g3),
          (chunks_app 5 g4), (chunks_app 5 g5), (chunks_short 5 g6) by (assumption || lia).
  cbn [map]. rewrite !group_symbol_full by assumption.
  unfold group_symbol. rewrite L6. change (Z.of_nat (5 - 2)) with 3.
  rewrite (shiftl_mul _ 3 8) by lia. pow2. symbols_eq.
Qed.

Lemma base32_encode_4 b0 b1 b2 b3 :
  let W := (((byte.unsigned b0 * 256 + byte.unsigned b1) * 256 + byte.unsigned b2) * 256
            + byte.unsigned b3) * 8 in
  base32_encode [b0; b1; b2; b3] =
  [tbl base32_table (W / 1073741824 mod 32); tbl base32_table (W / 33554432 mod 32);
   tbl base32_table (W / 1048576 mod 32); tbl base32_table (W / 32768 mod 32);
   tbl base32_table (W / 1024 mod 32); tbl base32_table (W / 32 mod 32);
   tbl base32_table (W mod 32)].
Proof.
  intro W. rewrite base32_encode_stream. unfold stream_symbols.
  cbn [bit_stream flat_map]. rewrite app_nil_r. apply base32_symbols_4.
Qed.

Lemma digits32_7 W :
  0 <= W < 34359738368 ->
  ((((((W / 1073741824) mod 32 * 32 + (W / 33554432) mod 32) * 32
      + (W / 1048576) mod 32) * 32 + (W / 32768) mod 32) * 32
    + (W / 1024) mod 32) * 32 + (W / 32) mod 32) * 32 + W mod 32 = W.
Proof.
  intro H.
  replace (W / 1024) with (W / 32 / 32) by (rewrite Z.div_div by lia; reflexivity).
  replace (W / 32768) with (W / 32 / 32 / 32) by (rewrite !Z.div_div by lia; reflexivity).
  replace (W / 1048576) with (W / 32 / 32 / 32 / 32)
    by (rewrite !Z.div_div by lia; reflexivity).
  replace (W / 33554432) with (W / 32 / 32 / 32 / 32 / 32)
    by (rewrite !Z.div_div by lia; reflexivity).
  replace (W / 1073741824) with (W / 32 / 32 / 32 / 32 / 32 / 32)
    by (rewrite !Z.div_div by lia; reflexivity).
  set (q1 := W / 32). set (q2 := q1 / 32). set (q3 := q2 / 32).
  set (q4 := q3 / 32). set (q5 := q4 / 32). set (q6 := q5 / 32).
  pose proof (Z.div_mod W 32 ltac:(lia)) as E0. fold q1 in E0.
  pose proof (Z.div_mod q1 32 ltac:(lia)) as E1. fold q2 in E1.
  pose proof (Z.div_mod q2 32 ltac:(lia)) as E2. fold q3 in E2.
  pose proof (Z.div_mod q3 32 ltac:(lia)) as E3. fold q4 in E3.
  pose proof (Z.div_mod q4 32 ltac:(lia)) as E4. fold q5 in E4.
  pose proof (Z.div_mod q5 32 ltac:(lia)) as E5. fold q6 in E5.
  assert (E6 : q6 mod 32 = q6).
  { apply Z.mod_small. subst q6 q5 q4 q3 q2 q1. rewrite !Z.div_div by lia.
    split; [apply Z.div_pos; lia | apply Z.div_lt_upper_bound; lia]. }
  set (r0 := W mod 32) in *. set (r1 := q1 mod 32) in *. set (r2 := q2 mod 32) in *.
  set (r3 := q3 mod 32) in *. set (r4 := q4 mod 32) in *. set (r5 := q5 mod 32) in *.
  rewrite E6. clearbody r0 r1 r2 r3 r4 r5 q1 q2 q3 q4 q5 q6. clear E6 H. lia.
Qed.

Lemma byte_of_shifted (b : byte) hi lo k :
  0 <= lo < k -> 0 < k ->
  byte.of_Z (((hi * 256 + byte.unsigned b) * k + lo) / k mod 256) = b.
Proof.
  intros Hlo Hk. apply byte_of_parts.
  pose proof (unsigned_bound b) as Hb.
  replace (((hi * 256 + byte.unsigned b) * k + lo) / k) with (hi * 256 + byte.unsigned b).
  - rewrite Z.add_comm, Z.mod_add by lia. apply Z.mod_small. lia.
  - apply Z.div_unique with (r := lo); lia.
Qed.

(** The group of a last block of four bytes: seven symbols and one pad.
    The symbol at offset 6 is not a pad, so a fifth byte is written. *)
Lemma base32_group_roundtrip_4 b0 b1 b2 b3 :
  let W := (((byte.unsigned b0 * 256 + byte.unsigned b1) * 256 + byte.unsigned b2) * 256
            + byte.unsigned b3) * 8 in
  base32_decode_group
    (tbl base32_table (W / 1073741824 mod 32)) (tbl base32_table (W / 33554432 mod 32))
    (tbl base32_table (W / 1048576 mod 32)) (tbl base32_table (W / 32768 mod 32))
    (tbl base32_table (W / 1024 mod 32)) (tbl base32_table (W / 32 mod 32))
    (tbl base32_table (W mod 32))
    PAD = Ok [b0; b1; b2; b3; NUL].
Proof.
  intro W. pose proof (unsigned_bound b0) as H0. pose proof (unsigned_bound b1) as H1.
  pose proof (unsigned_bound b2) as H2. pose proof (unsigned_bound b3) as H3.
  assert (HW : 0 <= W < 34359738368) by (subst W; lia).
  assert (Hq : forall k, 0 < k -> 0 <= W / k mod 32 < 32)
    by (intros k Hk; apply Z.mod_pos_bound; lia).
  assert (Hq0 : 0 <= W mod 32 < 32) by (apply Z.mod_pos_bound; lia).
  unfold base32_decode_group. cbn [group_indices].
  rewrite !group_index_base32 by (apply Hq; lia) || exact Hq0.
  rewrite !group_index_PAD. cbn [bind].
  rewrite group_value_8 by (apply Hq; lia) || exact Hq0 || lia.
  rewrite !not_pad_base32 by (apply Hq; lia) || exact Hq0.
  cbn [emit_if app]. octets.
  rewrite (digits32_7 W HW). clear Hq Hq0 HW.
  set (B0 := byte.unsigned b0) in *. set (B1 := byte.unsigned b1) in *.
  set (B2 := byte.unsigned b2) in *. set (B3 := byte.unsigned b3) in *.
  f_equal.
  replace (W * 32 + 0) with (((((0 * 256 + B0) * 256 + B1) * 256 + B2) * 256 + B3) * 256)
    by (subst W; ring).
  apply (f_equal2 (@cons byte)).
  { replace (((((0 * 256 + B0) * 256 + B1) * 256 + B2) * 256 + B3) * 256)
      with ((0 * 256 + B0) * 4294967296 + ((B1 * 256 + B2) * 256 + B3) * 256) by ring.
    apply (byte_of_shifted b0); lia. }
  apply (f_equal2 (@cons byte)).
  { replace (((((0 * 256 + B0) * 256 + B1) * 256 + B2) * 256 + B3) * 256)
      with ((B0 * 256 + B1) * 16777216 + (B2 * 256 + B3) * 256) by ring.
    apply (byte_of_shifted b1); lia. }
  apply (f_equal2 (@cons byte)).
  { replace (((((0 * 256 + B0) * 256 + B1) * 256 + B2) * 256 + B3) * 256)
      with (((B0 * 256 + B1) * 256 + B2) * 65536 + B3 * 256) by ring.
    apply (byte_of_shifted b2); lia. }
  apply (f_equal2 (@cons byte)).
  { replace (((((0 * 256 + B0) * 256 + B1) * 256 + B2) * 256 + B3) * 256)
      with ((((B0 * 256 + B1) * 256 + B2) * 256 + B3) * 256 + 0) by ring.
    apply (byte_of_shifted b3); lia. }
  change NUL with (byte.of_Z 0). do 2 f_equal.
  apply Z.mod_mul. lia.
Qed.

Lemma length_cons5_mod {A} (a b c d e : A) l :
  (length (a :: b :: c :: d :: e :: l) mod 5 = length l mod 5)%nat.
Proof.
  cbn [length]. replace (S (S (S (S (S (length l)))))) with (length l + 1 * 5)%nat by lia.
  apply Nat.Div0.mod_add.
Qed.

Lemma base32_decode_full_group c0 c1 c2 c3 c4 c5 c6 c7 :
  padded_text base32_table [c0; c1; c2; c3; c4; c5; c6; c7] ->
  base32_decode [c0; c1; c2; c3; c4; c5; c6; c7] =
  base32_decode_group c0 c1 c2 c3 c4 c5 c6 c7.
Proof.
  intro H. rewrite base32_decode_padded by exact H.
  rewrite pad_right_multiple by (lia || reflexivity).
  apply base32_decode_one_group.
Qed.

(** X10: base32_decode after base32_encode gives back the payload, followed
    by one zero byte when the length of the payload is 4 modulo 5: the
    decoder tests the symbol at offset 6 of the last group, which such a
    payload fills, where the byte depends on the symbol at offset 7. *)
Theorem base32_round_trip_extra_byte (payload : list byte) :
  base32_decode (base32_encode payload)
  = Ok (payload ++ if (length payload mod 5 =? 4)%nat then [NUL] else []).
Proof.
  induction payload as [|b0|b0 b1|b0 b1 b2|b0 b1 b2 b3|b0 b1 b2 b3 b4 rest IH]
    using five_induction.
  - reflexivity.
  - rewrite (base32_roundtrip [b0]) by (cbn; lia). reflexivity.
  - rewrite (base32_roundtrip [b0; b1]) by (cbn; lia). reflexivity.
  - rewrite (base32_roundtrip [b0; b1; b2]) by (cbn; lia). reflexivity.
  - pose proof (base32_encode_padded_text [b0; b1; b2; b3]) as Hp.
    rewrite base32_encode_4 in *. rewrite base32_decode_padded by exact Hp.
    change (pad_right 8 ?l) with (l ++ repeat PAD 1). cbn [app repeat].
    rewrite base32_decode_one_group. apply base32_group_roundtrip_4.
  - rewrite length_cons5_mod.
    pose proof (base32_encode_padded_text (b0 :: b1 :: b2 :: b3 :: b4 :: rest)) as Hp.
    rewrite base32_encode_cons5 in *.
    rewrite base32_decode_app by (exact Hp || reflexivity).
    apply padded_text_app in Hp. destruct Hp as [Hg _].
    rewrite (base32_decode_full_group _ _ _ _ _ _ _ _ Hg).
    rewrite base32_group_roundtrip_5, IH. reflexivity.
Qed.

(** ** Padding, white space and Base16 texts *)

Lemma padded_text_pad_right table (m : nat) text :
  padded_text table text -> padded_text table (pad_right m text).
Proof.
  intro H. unfold pad_right. apply padded_text_app. split; [exact H|].
  apply padded_text_repeat.
Qed.

Lemma pad_right_idempotent (m : nat) text :
  (0 < m)%nat -> pad_right m (pad_right m text) = pad_right m text.
Proof.
  intro Hm. apply pad_right_multiple; [exact Hm|]. now apply pad_right_length.
Qed.

Lemma filter_not_pad_repeat n : filter not_pad (repeat PAD n) = [].
Proof. induction n as [|n IH]; [reflexivity|]. cbn [repeat filter]. exact IH. Qed.

(** X11: the pad symbols at the end of a text are optional for both
    decoders: a text and the same text filled with pad symbols up to a full
    group decode alike, and base64_decode gives back the payload from the
    text of base64_encode with its pad symbols removed. *)
Theorem trailing_pad_optional (text payload : list byte) :
  (padded_text base64_table text ->
   base64_decode (pad_right 4 text) = base64_decode text) /\
  (padded_text base32_table text ->
   base32_decode (pad_right 8 text) = base32_decode text) /\
  base64_decode (filter not_pad (base64_encode payload)) = Ok payload.
Proof.
  assert (H64 : forall t, padded_text base64_table t ->
                          base64_decode (pad_right 4 t) = base64_decode t).
  { intros t Ht.
    rewrite (base64_decode_padded (pad_right 4 t)) by now apply padded_text_pad_right.
    rewrite pad_right_idempotent by lia. symmetry. now apply base64_decode_padded. }
  split; [apply H64|]. split.
  - intro Ht.
    rewrite (base32_decode_padded (pad_right 8 text)) by now apply padded_text_pad_right.
    rewrite pad_right_idempotent by lia. symmetry. now apply base32_decode_padded.
  - transitivity (base64_decode (base64_encode payload)); [|apply base64_roundtrip].
    rewrite base64_encode_stream.
    set (symbols := stream_symbols base64_table 6 payload).
    assert (Hs : Forall (fun c => In c base64_table) symbols)
      by (apply stream_symbols_in_table; [lia | reflexivity]).
    assert (Hn : ~ In PAD symbols).
    { apply stream_symbols_no_PAD; [lia | reflexivity |].
      apply find_index_absent. reflexivity. }
    assert (Hp : padded_text base64_table symbols).
    { intros c Hc. right. rewrite Forall_forall in Hs. now apply Hs. }
    rewrite (H64 symbols Hp). f_equal.
    unfold pad_right. rewrite filter_app, filter_not_pad_repeat, app_nil_r.
    apply filter_all. apply Forall_forall. intros c Hc.
    unfold not_pad. apply negb_true_iff, byte_eqb_neq. intros ->. contradiction.
Qed.

Lemma trailing_pad_optional_witness :
  base64_decode (pad_right 4 (cstr "TWE")) = base64_decode (cstr "TWE") /\
  base32_decode (pad_right 8 (cstr "MZXQ")) = base32_decode (cstr "MZXQ").
Proof.
  split.
  - apply (proj1 (trailing_pad_optional (cstr "TWE") [])).
    intros c Hc. right. apply find_index_present.
    cbn in Hc. repeat (destruct Hc as [<-|Hc]; [discriminate|]). destruct Hc.
  - apply (proj1 (proj2 (trailing_pad_optional (cstr "MZXQ") []))).
    intros c Hc. right. apply find_index_present.
    cbn in Hc. repeat (destruct Hc as [<-|Hc]; [discriminate|]). destruct Hc.
Defined.

Lemma cleaned_input_idempotent input :
  cleaned_input (cleaned_input input) = cleaned_input input.
Proof.
  unfold cleaned_input. apply filter_all. apply Forall_forall.
  intros c Hc. now apply filter_In in Hc.
Qed.

(** X12: base85_decode ignores space, TAB, CR and LF wherever they stand: an
    input decodes as the input without these characters does, and a
    non-empty input that holds nothing else decodes to the empty output. *)
Theorem base85_decode_skips_white_space (input : list byte) :
  (cleaned_input input <> [] ->
   base85_decode input = base85_decode (cleaned_input input)) /\
  (input <> [] -> cleaned_input input = [] -> base85_decode input = Ok []).
Proof.
  split.
  - intro Hc. unfold base85_decode. rewrite cleaned_input_idempotent.
    destruct input as [|c rest]; [now contradiction Hc|].
    destruct (cleaned_input (c :: rest)) as [|d rest']; [now contradiction Hc|].
    reflexivity.
  - intros Hne Hc. unfold base85_decode. rewrite Hc.
    destruct input; [contradiction | reflexivity].
Qed.

Lemma base85_decode_skips_white_space_witness :
  base85_decode (cstr "87c UR" ++ [Byte.x0a; Byte.x09] ++ cstr "DZBb;")
  = base85_decode (cleaned_input (cstr "87c UR" ++ [Byte.x0a; Byte.x09] ++ cstr "DZBb;")) /\
  base85_decode [Byte.x20; Byte.x0a] = Ok [].
Proof.
  split.
  - apply (proj1 (base85_decode_skips_white_space
                    (cstr "87c UR" ++ [Byte.x0a; Byte.x09] ++ cstr "DZBb;"))).
    discriminate.
  - apply (proj2 (base85_decode_skips_white_space [Byte.x20; Byte.x0a]));
      [discriminate | reflexivity].
Defined.

Lemma base16_symbols_back hi lo :
  In hi base16_table -> In lo base16_table ->
  let b := byte.of_Z (Z.lor (Z.shiftl (find_index hi base16_table) 4)
                            (find_index lo base16_table)) in
  tbl base16_chars (Z.land (Z.shiftr (byte.unsigned b) 4) 15) = hi /\
  tbl base16_chars (Z.land (byte.unsigned b) 15) = lo.
Proof.
  intros Hhi Hlo b. subst b.
  pose proof (base16_nibble_bound hi Hhi) as Bh.
  pose proof (base16_nibble_bound lo Hlo) as Bl.
  rewrite base16_byte_value by assumption.
  rewrite (lor_shiftl_add _ _ 4) by lia.
  rewrite !land_15, (shiftr_div _ 4 16) by lia.
  change (2 ^ 4) with 16. change base16_chars with base16_table.
  replace ((find_index hi base16_table * 16 + find_index lo base16_table) / 16 mod 16)
    with (find_index hi base16_table) by zlia.
  replace ((find_index hi base16_table * 16 + find_index lo base16_table) mod 16)
    with (find_index lo base16_table) by zlia.
  split; now apply find_index_of_member.
Qed.

Lemma base16_decode_loop_back text :
  forall payload,
    Z.of_nat (length text) mod 2 = 0 ->
    base16_decode_loop text = Ok payload -> base16_encode payload = text.
Proof.
  induction text as [|a|a b l IH] using pair_induction; intros payload Hlen H.
  - apply Ok_inj in H. now subst payload.
  - discriminate Hlen.
  - cbn [base16_decode_loop] in H.
    destruct (find_index a base16_table =? -1) eqn:Ea; [discriminate|].
    destruct (find_index b base16_table =? -1) eqn:Eb; [discriminate|].
    cbn [orb] in H.
    destruct (base16_decode_loop l) as [out|] eqn:El; cbn [bind] in H; [|discriminate].
    apply Ok_inj in H. subst payload. cbn [base16_encode].
    destruct (base16_symbols_back a b) as [Sa Sb];
      try (apply find_index_present; lia).
    cbv zeta in Sa, Sb. rewrite Sa, Sb. do 2 f_equal.
    apply IH; [|reflexivity]. cbn [length] in Hlen. zlia.
Qed.

(** X13: a text that base16_decode accepts is the text that base16_encode
    writes for the decoded bytes: the two functions are inverse to each
    other in both directions. *)
Theorem base16_text_round_trip (text payload : list byte) :
  base16_decode text = Ok payload ->
  base16_encode payload = text /\ base16_decode (base16_encode payload) = Ok payload.
Proof.
  intro H. split; [|apply base16_roundtrip].
  unfold base16_decode in H.
  destruct (Z.of_nat (length text) mod 2 =? 0) eqn:E; [|discriminate].
  apply base16_decode_loop_back; [lia | exact H].
Qed.

Lemma base16_text_round_trip_witness :
  base16_encode (cstr "Hello") = cstr "48656C6C6F" /\
  base16_decode (base16_encode (cstr "Hello")) = Ok (cstr "Hello").
Proof.
  apply (base16_text_round_trip (cstr "48656C6C6F") (cstr "Hello")). reflexivity.
Defined.

(** ** main.c: file names *)

Lemma strrchr_from_absent s c :
  ~ In c s -> forall i found, strrchr_from s c i found = found.
Proof.
  induction s as [|x rest IH]; intros H i found; [reflexivity|].
  cbn [strrchr_from]. replace (Byte.eqb x c) with false.
  - apply IH. intro Hin. apply H. now right.
  - symmetry. apply byte_eqb_neq. intros ->. apply H. now left.
Qed.

Lemma strrchr_from_last pre c post :
  ~ In c post ->
  forall i found, strrchr_from (pre ++ c :: post) c i found = Some (i + length pre)%nat.
Proof.
  intro H. induction pre as [|x pre IH]; intros i found.
  - cbn [app strrchr_from length]. rewrite byte_eqb_refl.
    rewrite strrchr_from_absent by exact H. f_equal. lia.
  - cbn [app strrchr_from length]. rewrite IH. f_equal. lia.
Qed.

Lemma last_occurrence (c : byte) s :
  In c s -> exists pre post, s = pre ++ c :: post /\ ~ In c post.
Proof.
  induction s as [|x rest IH]; intro H; [destruct H|].
  destruct (in_dec Byte.byte_eq_dec c rest) as [Hin|Hout].
  - destruct (IH Hin) as [pre [post [E Hp]]]. exists (x :: pre), post.
    split; [now rewrite E | exact Hp].
  - destruct H as [->|H]; [|contradiction]. exists [], rest. now split.
Qed.

Lemma strrchr_spec s c :
  (~ In c s /\ strrchr s c = None) \/
  (exists pre post, s = pre ++ c :: post /\ ~ In c post /\ strrchr s c = Some (length pre)).
Proof.
  destruct (in_dec Byte.byte_eq_dec c s) as [Hin|Hout].
  - right. destruct (last_occurrence c s Hin) as [pre [post [E Hp]]].
    exists pre, post. split; [exact E|]. split; [exact Hp|].
    unfold strrchr. rewrite E. now rewrite strrchr_from_last.
  - left. split; [exact Hout|]. now apply strrchr_from_absent.
Qed.

Lemma skipn_past {A} (pre : list A) c post : skipn (S (length pre)) (pre ++ c :: post) = post.
Proof. induction pre as [|x pre IH]; [reflexivity | exact IH]. Qed.

Lemma firstn_before {A} (pre : list A) post : firstn (length pre) (pre ++ post) = pre.
Proof. induction pre as [|x pre IH]; [now destruct post | cbn; now rewrite IH]. Qed.

Lemma in_skipn {A} (x : A) n l : In x (skipn n l) -> In x l.
Proof.
  revert l. induction n as [|n IH]; intros l H; [exact H|].
  destruct l as [|y l]; [destruct H|]. right. now apply IH.
Qed.

(** Of two splits of a string, the one with the longer front has its rest
    inside the rest of the other. *)
Lemma rest_of_later_split {A} (pre1 pre2 post1 post2 : list A) c1 c2 x :
  pre1 ++ c1 :: post1 = pre2 ++ c2 :: post2 ->
  (length pre2 < length pre1)%nat -> In x post1 -> In x post2.
Proof.
  intros E Hlt Hx.
  assert (E1 : post1 = skipn (S (length pre1)) (pre2 ++ c2 :: post2))
    by (rewrite <- E; now rewrite skipn_past).
  replace (S (length pre1)) with ((length pre1 - length pre2) + S (length pre2))%nat in E1 by lia.
  rewrite <- skipn_skipn, skipn_past in E1. rewrite E1 in Hx. now apply in_skipn in Hx.
Qed.

Lemma split_lengths_differ {A} (pre1 pre2 post1 post2 : list A) c1 c2 :
  pre1 ++ c1 :: post1 = pre2 ++ c2 :: post2 -> c1 <> c2 -> length pre1 <> length pre2.
Proof.
  intros E Hc Hl. apply Hc.
  assert (H1 : nth_error (pre1 ++ c1 :: post1) (length pre1) = Some c1)
    by (rewrite nth_error_app2, Nat.sub_diag; [reflexivity | lia]).
  assert (H2 : nth_error (pre2 ++ c2 :: post2) (length pre2) = Some c2)
    by (rewrite nth_error_app2, Nat.sub_diag; [reflexivity | lia]).
  rewrite E, Hl, H2 in H1. now inversion H1.
Qed.

Lemma get_filename_parts (path : list byte) :
  exists dir,
    path = dir ++ get_filename path /\
    ~ In SLASH (get_filename path) /\
    ~ In BACKSLASH (get_filename path) /\
    (dir = [] \/ exists d sep, dir = d ++ [sep] /\ (sep = SLASH \/ sep = BACKSLASH)).
Proof.
  unfold get_filename.
  destruct (strrchr_spec path SLASH) as [[Hs Es]|[pre1 [post1 [E1 [Hp1 Es]]]]];
    destruct (strrchr_spec path BACKSLASH) as [[Hb Eb]|[pre2 [post2 [E2 [Hp2 Eb]]]]];
    rewrite Es, Eb; cbn [ptr_gt].
  - exists []. repeat split; auto.
  - exists (pre2 ++ [BACKSLASH]). rewrite E2 at 2 3 4. rewrite skipn_past.
    rewrite <- app_assoc. split; [exact E2|]. split; [|split; [exact Hp2|]].
    + intro H. apply Hs. rewrite E2. apply in_or_app. right. now right.
    + right. exists pre2, BACKSLASH. auto.
  - exists (pre1 ++ [SLASH]). rewrite E1 at 2 3 4. rewrite skipn_past.
    rewrite <- app_assoc. split; [exact E1|]. split; [exact Hp1|]. split.
    + intro H. apply Hb. rewrite E1. apply in_or_app. right. now right.
    + right. exists pre1, SLASH. auto.
  - assert (E : pre1 ++ SLASH :: post1 = pre2 ++ BACKSLASH :: post2) by congruence.
    pose proof (split_lengths_differ _ _ _ _ _ _ E ltac:(discriminate)) as Hne.
    destruct (length pre2 <? length pre1)%nat eqn:Hlt.
    + apply Nat.ltb_lt in Hlt.
      exists (pre1 ++ [SLASH]). rewrite E1 at 2 3 4. rewrite skipn_past.
      rewrite <- app_assoc. split; [exact E1|]. split; [exact Hp1|]. split.
      * intro H. apply Hp2. now apply (rest_of_later_split _ _ _ _ _ _ _ E Hlt).
      * right. exists pre1, SLASH. auto.
    + apply Nat.ltb_ge in Hlt.
      exists (pre2 ++ [BACKSLASH]). rewrite E2 at 2 3 4. rewrite skipn_past.
      rewrite <- app_assoc. split; [exact E2|]. split; [|split; [exact Hp2|]].
      * intro H. apply Hp1.
        apply (rest_of_later_split _ _ _ _ _ _ _ (eq_sym E)); [lia | exact H].
      * right. exists pre2, BACKSLASH. auto.
Qed.

(** X14: get_filename returns the part of the path after its last
    separator, slash or backslash: what it cuts off is empty or ends with a
    separator, and what it returns holds no separator. *)
Theorem get_filename_spec (path : list byte) :
  exists dir,
    path = dir ++ get_filename path /\
    ~ In SLASH (get_filename path) /\
    ~ In BACKSLASH (get_filename path) /\
    (dir = [] \/ exists d sep, dir = d ++ [sep] /\ (sep = SLASH \/ sep = BACKSLASH)).
Proof. exact (get_filename_parts path). Qed.

Lemma count_dots_absent name :
  ~ In DOT name ->
  forall i num_dots last, count_dots name i num_dots last = (num_dots, last).
Proof.
  induction name as [|x rest IH]; intros H i n last; [reflexivity|].
  cbn [count_dots]. replace (Byte.eqb x DOT) with false.
  - apply IH. intro Hin. apply H. now right.
  - symmetry. apply byte_eqb_neq. intros ->. apply H. now left.
Qed.

Lemma count_dots_last pre post :
  ~ In DOT post ->
  forall i num_dots last,
    snd (count_dots (pre ++ DOT :: post) i num_dots last) = i + Z.of_nat (length pre) /\
    num_dots < fst (count_dots (pre ++ DOT :: post) i num_dots last) /\
    (In DOT pre <-> num_dots + 1 < fst (count_dots (pre ++ DOT :: post) i num_dots last)).
Proof.
  intro H. induction pre as [|x pre IH]; intros i n last.
  - cbn [app count_dots length]. rewrite byte_eqb_refl.
    rewrite count_dots_absent by exact H. cbn [fst snd].
    split; [lia|]. split; [lia|]. split; [intros []|lia].
  - cbn [app count_dots length]. destruct (Byte.eqb x DOT) eqn:E.
    + apply byte_eqb_eq in E. subst x.
      destruct (IH (i + 1) (n + 1) i) as [I1 [I2 I3]].
      split; [lia|]. split; [lia|]. split; [intros _; lia | intros _; now left].
    + apply byte_eqb_neq in E.
      destruct (IH (i + 1) n last) as [I1 [I2 I3]].
      split; [lia|]. split; [lia|]. rewrite <- I3. split.
      * intros [Hx|Hin]; [now contradiction E | exact Hin].
      * intro Hin. now right.
Qed.

(** X15: the three functions that cut a file name at its last dot.
    extension_definition fails exactly on a name without a dot; otherwise
    the name is the result of clear_decoded_name, a dot, and the extension,
    which holds no dot.  decode_input_name returns the same extension, but
    only when the part before the last dot holds another dot. *)
Theorem file_name_parts (name : list byte) :
  match extension_definition name with
  | None =>
      ~ In DOT name /\ clear_decoded_name name = name /\ decode_input_name name = None
  | Some ext =>
      name = clear_decoded_name name ++ DOT :: ext /\
      ~ In DOT ext /\
      decode_input_name name =
      if in_dec Byte.byte_eq_dec DOT (clear_decoded_name name) then Some ext else None
  end.
Proof.
  unfold extension_definition, decode_input_name, clear_decoded_name.
  destruct (strrchr_spec name DOT) as [[Hd Ed]|[pre [post [E [Hp Ed]]]]]; rewrite Ed.
  - rewrite count_dots_absent by exact Hd. cbn. auto.
  - destruct (count_dots_last pre post Hp 0 0 (-1)) as [C1 [C2 C3]].
    rewrite E. destruct (count_dots (pre ++ DOT :: post) 0 0 (-1)) as [n last].
    cbn [fst snd] in *. subst last.
    replace (n <? 1) with false by lia.
    replace (Z.to_nat (0 + Z.of_nat (length pre) + 1)) with (S (length pre)) by lia.
    rewrite skipn_past. replace (pre ++ DOT :: post) with (pre ++ [DOT] ++ post) by reflexivity.
    rewrite firstn_before. split; [reflexivity|]. split; [exact Hp|].
    destruct (in_dec Byte.byte_eq_dec DOT pre) as [Hin|Hout].
    + replace (n <? 2) with false; [reflexivity|]. apply C3 in Hin. lia.
    + replace (n <? 2) with true; [reflexivity|].
      symmetry. apply Z.ltb_lt. destruct (Z_lt_dec n 2); [assumption|].
      exfalso. apply Hout. apply C3. lia.
Qed.

Lemma clear_created_name (name alg : list byte) :
  ~ In DOT alg -> clear_decoded_name (name ++ DOT :: alg) = name.
Proof.
  intro Ha. unfold clear_decoded_name, strrchr.
  rewrite strrchr_from_last by exact Ha. cbn [Nat.add].
  replace (name ++ DOT :: alg) with (name ++ [DOT] ++ alg) by reflexivity.
  apply firstn_before.
Qed.

Lemma decode_created_name (name alg : list byte) :
  ~ In DOT alg ->
  decode_input_name (name ++ DOT :: alg) =
  if in_dec Byte.byte_eq_dec DOT name then Some alg else None.
Proof.
  intro Ha. unfold decode_input_name.
  destruct (count_dots_last name alg Ha 0 0 (-1)) as [C1 [C2 C3]].
  destruct (count_dots (name ++ DOT :: alg) 0 0 (-1)) as [n last].
  cbn [fst snd] in *. subst last.
  destruct (in_dec Byte.byte_eq_dec DOT name) as [Hin|Hout].
  - apply C3 in Hin. replace (n <? 2) with false by lia.
    replace (Z.to_nat (0 + Z.of_nat (length name) + 1)) with (S (length name)) by lia.
    now rewrite skipn_past.
  - replace (n <? 2) with true; [reflexivity|].
    symmetry. apply Z.ltb_lt. destruct (Z_lt_dec n 2); [assumption|].
    exfalso. apply Hout. apply C3. lia.
Qed.

(** X16: the name made by create_output_name from a name and an extension
    [.alg] without further dots is taken apart again by the "Decode" path:
    clear_decoded_name gives back the name, and decode_input_name finds
    [alg] when the name holds a dot and fails when it holds none. *)
Theorem output_name_round_trip (name alg : list byte) :
  ~ In DOT alg ->
  clear_decoded_name (create_output_name name (DOT :: alg)) = name /\
  (In DOT name -> decode_input_name (create_output_name name (DOT :: alg)) = Some alg) /\
  (~ In DOT name -> decode_input_name (create_output_name name (DOT :: alg)) = None).
Proof.
  intro Ha. unfold create_output_name. rewrite decode_created_name by exact Ha.
  split; [now apply clear_created_name|].
  destruct (in_dec Byte.byte_eq_dec DOT name); split; intro; try reflexivity; contradiction.
Qed.

Lemma output_name_round_trip_witness :
  clear_decoded_name (create_output_name (cstr "a.txt") (cstr ".base58")) = cstr "a.txt" /\
  decode_input_name (create_output_name (cstr "a.txt") (cstr ".base58"))
  = Some (cstr "base58").
Proof.
  assert (H : ~ In DOT (cstr "base58")).
  { intro H. cbn in H. repeat (destruct H as [H|H]; [discriminate|]). destruct H. }
  split.
  - apply (proj1 (output_name_round_trip (cstr "a.txt") (cstr "base58") H)).
  - apply (proj1 (proj2 (output_name_round_trip (cstr "a.txt") (cstr "base58") H))).
    cbn. tauto.
Defined.

(** ** main.c: the dispatcher and the two paths of main *)

Lemma streq_true a : streq a a = true.
Proof. unfold streq. destruct (list_eq_dec Byte.byte_eq_dec a a); [reflexivity | contradiction]. Qed.

Lemma streq_false a b : a <> b -> streq a b = false.
Proof. intro H. unfold streq. destruct (list_eq_dec Byte.byte_eq_dec a b); [contradiction | reflexivity]. Qed.

Lemma base16_decode_loop_error input e :
  base16_decode_loop input = Err e -> e = InvalidCharacterError.
Proof.
  induction input as [|a|a b l IH] using pair_induction; try discriminate.
  cbn [base16_decode_loop].
  destruct ((find_index a base16_table =? -1) || (find_index b base16_table =? -1)).
  - intro H. now inversion H.
  - destruct (base16_decode_loop l); cbn [bind]; [discriminate|].
    intro H. inversion H; subst. now apply IH.
Qed.

Ltac other_names :=
  repeat (rewrite streq_false by discriminate); rewrite ?streq_true.

(** X17: url_to_decod_algorithm and choice_of_alg.  Empty data is refused
    before the algorithm is looked at.  On other data the name of a format
    selects the decoder of that format and the result is the result of that
    decoder, failure included; for Base16 the odd length is refused by the
    dispatcher itself.  Any other name is an unknown algorithm.  The
    extension that choice_of_alg gives for the number of a format is the
    name of the format after a dot. *)
Theorem decoder_dispatch (F : format) (data algorithm : list byte) :
  (data = [] -> url_to_decod_algorithm data algorithm = Failed InvalidInputParameters) /\
  (data <> [] ->
   url_to_decod_algorithm data (algorithm_name F) =
   match decode F data with
   | Ok out => Decoded out
   | Err e =>
       Failed (match F, e with
               | Base16, LengthError => Base16OddLength
               | _, _ => DecodingFailed e
               end)
   end) /\
  (data <> [] -> (forall G, algorithm <> algorithm_name G) ->
   url_to_decod_algorithm data algorithm = Failed UnknownAlgorithm) /\
  choice_of_alg (choice_number F) data = Some (encode F data, DOT :: algorithm_name F).
Proof.
  assert (Hlen : data <> [] -> (length data =? 0)%nat = false).
  { intro H. apply Nat.eqb_neq. destruct data; [contradiction | discriminate]. }
  split; [intros ->; reflexivity|]. split; [|split].
  - intro Hne. unfold url_to_decod_algorithm. rewrite (Hlen Hne).
    destruct F; cbn [algorithm_name decode]; other_names.
    + unfold base16_decode. destruct (Z.of_nat (length data) mod 2 =? 0); [|reflexivity].
      destruct (base16_decode_loop data) as [out|e] eqn:E; [reflexivity|].
      apply base16_decode_loop_error in E. now subst e.
    + now destruct (base32_decode data) as [out|[]].
    + now destruct (base58_decode data) as [out|[]].
    + now destruct (base62_decode data) as [out|[]].
    + now destruct (base64_decode data) as [out|[]].
    + now destruct (base85_decode data) as [out|[]].
  - intros Hne Hall. unfold url_to_decod_algorithm. rewrite (Hlen Hne).
    pose proof (Hall Base16). pose proof (Hall Base32). pose proof (Hall Base58).
    pose proof (Hall Base62). pose proof (Hall Base64). pose proof (Hall Base85).
    cbn [algorithm_name] in *. now rewrite !streq_false by assumption.
  - destruct F; reflexivity.
Qed.

Lemma decoder_dispatch_witness :
  url_to_decod_algorithm [] (cstr "base64") = Failed InvalidInputParameters /\
  url_to_decod_algorithm (cstr "ABC") (algorithm_name Base16) = Failed Base16OddLength /\
  url_to_decod_algorithm (cstr "TWFu") (cstr "base65") = Failed UnknownAlgorithm.
Proof.
  split; [|split].
  - apply (proj1 (decoder_dispatch Base64 [] (cstr "base64"))). reflexivity.
  - apply (proj1 (proj2 (decoder_dispatch Base16 (cstr "ABC") []))). discriminate.
  - apply (proj1 (proj2 (proj2 (decoder_dispatch Base64 (cstr "TWFu") (cstr "base65")))));
      [discriminate|].
    intros G; destruct G; discriminate.
Defined.







(** ** Round trips on all payloads: Base62 and Base58 *)

Lemma skipn_count_leading_head c input :
  hd_error (skipn (count_leading c input) input) <> Some c.
Proof.
  induction input as [|b rest IH]; [discriminate|].
  cbn [count_leading]. destruct (Byte.eqb b c) eqn:E; [exact IH|].
  cbn [skipn hd_error]. apply byte_eqb_neq in E. congruence.
Qed.

(** X19: base62_decode after base62_encode on every payload: the leading
    zero bytes are lost.  The result is the payload without them, and NULL
    when nothing is left, since the text is then empty. *)
Theorem base62_round_trip_all (payload : list byte) :
  base62_decode (base62_encode payload) =
  match skipn (count_leading NUL payload) payload with
  | [] => Err EmptyInputRejected
  | rest => Ok rest
  end.
Proof.
  assert (E : base62_encode payload
              = base62_encode (skipn (count_leading NUL payload) payload)).
  { unfold base62_encode. now rewrite base62_encode_digits_skip at 1. }
  rewrite E. pose proof (skipn_count_leading_head NUL payload) as Hh.
  destruct (skipn (count_leading NUL payload) payload) as [|b rest] eqn:Er; [reflexivity|].
  apply base62_roundtrip; [discriminate | exact Hh].
Qed.

Lemma count_leading_repeat c n text :
  hd_error text <> Some c -> count_leading c (repeat c n ++ text) = n.
Proof.
  intro H. induction n as [|n IH].
  - destruct text as [|d rest]; [reflexivity|]. apply count_leading_head.
    apply byte_eqb_neq. intros ->. now apply H.
  - cbn [repeat app count_leading]. now rewrite byte_eqb_refl, IH.
Qed.

Lemma skipn_repeat_app {A} (c : A) n text : skipn n (repeat c n ++ text) = text.
Proof. induction n as [|n IH]; [reflexivity | exact IH]. Qed.

Lemma canon_length_le radix a b :
  1 < radix -> canon radix a -> digits_ok radix b -> lval radix a = lval radix b ->
  (length a <= length b)%nat.
Proof.
  intros HR [Ha [->|Hc]] Hb E; [cbn [length]; lia|].
  pose proof (lval_bound radix HR b Hb) as B. rewrite <- E in B.
  destruct (le_lt_dec (length a) (length b)) as [|Hlt]; [assumption|exfalso].
  assert (radix ^ Z.of_nat (length b) <= radix ^ (Z.of_nat (length a) - 1))
    by (apply Z.pow_le_mono_r; lia).
  lia.
Qed.

(** The digit array of base58_encode: the digits of the number of the
    payload, followed by zero cells where the array, which starts with one
    cell for each leading zero byte, is longer than the number. *)
Lemma base58_encode_digits_shape payload :
  let rest := skipn (count_leading NUL payload) payload in
  base58_encode_digits payload =
  base58_encode_digits rest
  ++ repeat 0 (count_leading NUL payload - length (base58_encode_digits rest)).
Proof.
  intro rest.
  pose proof (base58_encode_digits_spec payload) as [Hok [Hv Hz]].
  assert (Hrest0 : count_leading NUL rest = 0%nat).
  { pose proof (skipn_count_leading_head NUL payload) as Hh. fold rest in Hh.
    destruct rest as [|b r]; [reflexivity|]. apply count_leading_head.
    apply byte_eqb_neq. intros ->. now apply Hh. }
  assert (Hcanon : canon 58 (base58_encode_digits rest) /\
                   lval 58 (base58_encode_digits rest) = bval 256 (map byte.unsigned rest)).
  { unfold base58_encode_digits. rewrite Hrest0. cbn [skipn repeat].
    apply (encode_digits_spec 58 rest). lia. }
  destruct Hcanon as [Hc Hcv].
  assert (Hsame : lval 58 (base58_encode_digits rest) = lval 58 (base58_encode_digits payload)).
  { rewrite Hcv, Hv. apply bval_skip_zeros. }
  pose proof (canon_length_le 58 _ _ ltac:(lia) Hc Hok Hsame) as Hle.
  assert (Hshape :
    length (base58_encode_digits payload) = count_leading NUL payload \/
    58 ^ (Z.of_nat (length (base58_encode_digits payload)) - 1)
    <= lval 58 (base58_encode_digits payload)).
  { unfold base58_encode_digits. rewrite fold_left_unsigned.
    apply (fold_step_length 58 256 (bigint_step u32 58 256)); try lia.
    - intros a d Ha Hd.
      apply (bigint_step_digits 58 ltac:(lia) u32 256 wrap_ok_u32 ltac:(lia)); [exact Ha | lia].
    - intros a d Ha Hd.
      apply (bigint_step_grows 58 ltac:(lia) u32 256 wrap_ok_u32 ltac:(lia)); [exact Ha | lia].
    - apply digits_ok_zeros. lia.
    - apply payload_digits_ok.
    - left. apply repeat_length. }
  assert (Hk : (count_leading NUL payload - length (base58_encode_digits rest)
                = length (base58_encode_digits payload)
                  - length (base58_encode_digits rest))%nat).
  { destruct Hshape as [E|Hp]; [lia|].
    assert (canon 58 (base58_encode_digits payload)) by (split; [exact Hok | now right]).
    rewrite (canon_unique 58 ltac:(lia) _ _ Hc H Hsame). lia. }
  rewrite Hk. symmetry.
  apply (lval_unique 58 ltac:(lia)).
  - apply digits_ok_app. split; [apply Hc | apply digits_ok_zeros; lia].
  - exact Hok.
  - rewrite length_app, repeat_length. lia.
  - rewrite lval_app, lval_zeros. lia.
Qed.

(** X20: base58_decode after base58_encode on every payload: the result is
    the payload without its leading zero bytes, followed by as many zero
    bytes as there are more leading zero bytes than symbols in the text of
    the rest.  The leading zero bytes are never given back in front. *)
Theorem base58_round_trip_all (payload : list byte) :
  let zeros := count_leading NUL payload in
  let rest := skipn zeros payload in
  base58_decode (base58_encode payload)
  = Ok (rest ++ repeat NUL (zeros - length (base58_encode rest))).
Proof.
  intros zeros rest.
  pose proof (skipn_count_leading_head NUL payload) as Hh. fold zeros rest in Hh.
  assert (Hrest0 : count_leading NUL rest = 0%nat).
  { destruct rest as [|b r]; [reflexivity|]. apply count_leading_head.
    apply byte_eqb_neq. intros ->. now apply Hh. }
  assert (Hcanon : canon 58 (base58_encode_digits rest) /\
                   lval 58 (base58_encode_digits rest) = bval 256 (map byte.unsigned rest)).
  { unfold base58_encode_digits. rewrite Hrest0. cbn [skipn repeat].
    apply (encode_digits_spec 58 rest). lia. }
  destruct Hcanon as [Hc Hcv].
  rewrite (base58_encode_symbols rest), length_map, length_rev.
  rewrite base58_encode_symbols, (base58_encode_digits_shape payload).
  fold zeros rest. set (C := base58_encode_digits rest) in *.
  set (k := (zeros - length C)%nat).
  rewrite rev_app_distr, map_app, rev_repeat, map_repeat.
  assert (Hok : digits_ok 58 (rev C)) by (apply Forall_rev, Hc).
  assert (Hhead : hd_error (map (tbl base58_table) (rev C)) <> Some (tbl base58_table 0)).
  { destruct (canon_rev_head 58 ltac:(lia) C Hc) as [E|[d [r [E Hd]]]]; rewrite E in *.
    - discriminate.
    - cbn [map hd_error]. intro H. inversion H as [H0].
      inversion Hok; subst.
      pose proof (base58_symbol_not_zero d ltac:(assumption) Hd) as Hn.
      apply byte_eqb_neq in Hn. contradiction. }
  unfold base58_decode. rewrite count_leading_repeat by exact Hhead.
  rewrite skipn_repeat_app.
  rewrite base58_decode_loop_digits by exact Hok. cbn [bind]. f_equal.
  destruct (fold_step_spec 256 58 (bigint_step sint 256 58)) with
    (digits := rev C) (acc := @nil Z) as [H1 H2].
  { intros a d Ha Hd. apply bigint_step_spec; try assumption; try lia.
    apply wrap_ok_sint. }
  { apply canon_nil. }
  { exact Hok. }
  set (output := fold_left _ _ _) in *.
  assert (Hout : map byte.of_Z (rev output) = rest).
  { apply payload_of_digits; try assumption.
    rewrite H2. cbn [lval]. rewrite bval_of_rev, Hcv. lia. }
  destruct (0 <? k)%nat eqn:Ek.
  - rewrite rev_repeat_app, map_app, map_repeat, Hout. reflexivity.
  - apply Nat.ltb_ge in Ek. replace k with 0%nat by lia.
    cbn [repeat]. now rewrite app_nil_r, Hout.
Qed.

(** ** The buffer of choice_of_alg *)

Lemma base62_encode_digits_tight payload :
  (length (base62_encode_digits payload) <= length payload * 135 / 100 + 1)%nat.
Proof.
  destruct (encode_digits_spec 62 payload ltac:(lia)) as [[Hok Hc] Hv].
  fold (base62_encode_digits payload) in *.
  set (l := length (base62_encode_digits payload)) in *.
  destruct Hc as [E|Hc]; [subst l; rewrite E; cbn [length]; lia|].
  destruct (Nat.eq_dec l 0) as [E0|Hl]; [lia|].
  pose proof (bval_bound 256 (map byte.unsigned payload) ltac:(lia)
                (payload_digits_ok payload)) as B.
  rewrite length_map in B.
  pose proof (digits_of_power 256 62 135 100 (Z.of_nat (length payload)) (Z.of_nat l)
                ltac:(lia) ltac:(lia) ltac:(lia) ltac:(lia) ltac:(lia) ltac:(lia)
                ltac:(vm_compute; discriminate) ltac:(lia)) as D.
  apply Nat2Z.inj_le. rewrite Nat2Z.inj_add, Nat2Z.inj_div, Nat2Z.inj_mul.
  change (Z.of_nat 135) with 135. change (Z.of_nat 100) with 100.
  change (Z.of_nat 1) with 1. lia.
Qed.

(** X21: the buffer of [file_size * 2] bytes that choice_of_alg passes to
    the first four encoders, against the text and its terminating NUL.  The
    text of base16_encode always needs one byte more than the buffer has;
    the text of base32_encode fits from three bytes of input on, the texts
    of base58_encode and base62_encode from two bytes on. *)
Theorem choice_of_alg_buffer_fit (payload : list byte) :
  let capacity := choice_of_alg_buffer (length payload) in
  (length (base16_encode payload) + 1 = capacity + 1)%nat /\
  ((3 <= length payload)%nat -> (length (base32_encode payload) + 1 <= capacity)%nat) /\
  ((2 <= length payload)%nat -> (length (base58_encode payload) + 1 <= capacity)%nat) /\
  ((2 <= length payload)%nat -> (length (base62_encode payload) + 1 <= capacity)%nat).
Proof.
  intro capacity. subst capacity. unfold choice_of_alg_buffer.
  split; [rewrite base16_encode_length; lia|]. split; [|split].
  - intro H. rewrite base32_encode_length. nlia.
  - intro H. rewrite base58_encode_symbols, length_map, length_rev.
    pose proof (base58_encode_digits_length payload). nlia.
  - intro H. unfold base62_encode. rewrite length_map, length_rev.
    pose proof (base62_encode_digits_tight payload). nlia.
Qed.

Lemma choice_of_alg_buffer_fit_witness :
  (length (base32_encode (cstr "foo")) + 1 <= choice_of_alg_buffer 3)%nat /\
  (length (base58_encode (cstr "hi")) + 1 <= choice_of_alg_buffer 2)%nat /\
  (length (base62_encode (cstr "hi")) + 1 <= choice_of_alg_buffer 2)%nat.
Proof.
  split; [|split].
  - apply (proj1 (proj2 (choice_of_alg_buffer_fit (cstr "foo")))). cbn. lia.
  - apply (proj1 (proj2 (proj2 (choice_of_alg_buffer_fit (cstr "hi"))))). cbn. lia.
  - apply (proj2 (proj2 (proj2 (choice_of_alg_buffer_fit (cstr "hi"))))). cbn. lia.
Defined.
